(** * Segment / compaction metadata engine of the data coordinator

    A shallow embedding of [internal/datacoord/meta.go] and
    [internal/datacoord/util.go]: the in-memory segment map, the deferred
    metric mutation, the operator pipeline of [UpdateSegmentsInfo], the
    compaction completer and the channel checkpoints.  The durable catalog
    and the blob store are interfaces in the source and type classes here;
    every call to them is recorded in a trace so that the order of
    persistence and installation can be stated. *)

From Stdlib Require Import ZArith Lia.
From Stdlib.Strings Require Import Byte.
From stdpp Require Import gmap strings list fin_maps pretty.

Local Open Scope Z_scope.

(** ** Machine integers *)

(** Go's [int64] (and [int] on the 64-bit targets of the project) wraps
    around on overflow. *)
Definition wrap64 (z : Z) : Z := (z + 2 ^ 63) mod 2 ^ 64 - 2 ^ 63.
Definition add64 (a b : Z) : Z := wrap64 (a + b).
Definition sub64 (a b : Z) : Z := wrap64 (a - b).
Definition int64_range (z : Z) : Prop := - 2 ^ 63 <= z < 2 ^ 63.

Definition UniqueID := Z.
Definition Timestamp := Z.

(** ** Wire records (data_coord.proto) *)

(** Modelled from the spec: [commonpb.SegmentState] is declared outside the
    repository sources at hand; these are the states the data model lists. *)
Inductive SegmentState :=
| SegmentStateNone | NotExist | Growing | Sealed | Flushed | Flushing | Dropped.

Inductive SegmentLevel := Legacy | L0 | L1 | L2.

Inductive CompactionType :=
| UndefinedCompaction | MergeCompaction | MixCompaction | SingleCompaction
| MinorCompaction | MajorCompaction | Level0DeleteCompaction.

#[global] Instance SegmentState_eq_dec : EqDecision SegmentState.
Proof. solve_decision. Defined.
#[global] Instance SegmentLevel_eq_dec : EqDecision SegmentLevel.
Proof. solve_decision. Defined.

(** The generated [String()] methods, used as metric labels. *)
Definition SegmentState_String (s : SegmentState) : string :=
  match s with
  | SegmentStateNone => "SegmentStateNone"
  | NotExist => "NotExist"
  | Growing => "Growing"
  | Sealed => "Sealed"
  | Flushed => "Flushed"
  | Flushing => "Flushing"
  | Dropped => "Dropped"
  end.

Definition SegmentLevel_String (l : SegmentLevel) : string :=
  match l with
  | Legacy => "Legacy"
  | L0 => "L0"
  | L1 => "L1"
  | L2 => "L2"
  end.

(** Modelled from the spec: [msgpb.MsgPosition] (virtual-channel name,
    message-id, timestamp).  The message id is a byte slice that may be nil. *)
Record MsgPosition := {
  ChannelName : string;
  MsgID : option (list byte);
  Timestamp_ : Timestamp;
}.

Record Binlog := {
  EntriesNum : Z;
  TimestampFrom : Timestamp;
  TimestampTo : Timestamp;
  LogPath : string;
  LogSize : Z;
  LogID : Z;
}.

Record FieldBinlog := {
  FieldID : Z;
  fb_Binlogs : list Binlog;
}.

Record datapb_SegmentInfo := {
  ID : UniqueID;
  CollectionID : UniqueID;
  PartitionID : UniqueID;
  InsertChannel : string;
  NumOfRows : Z;
  State : SegmentState;
  MaxRowNum : Z;
  LastExpireTime : Timestamp;
  StartPosition : option MsgPosition;
  DmlPosition : option MsgPosition;
  Binlogs : list FieldBinlog;
  Statslogs : list FieldBinlog;
  Deltalogs : list FieldBinlog;
  CreatedByCompaction : bool;
  CompactionFrom : list UniqueID;
  DroppedAt : Z;
  IsImporting : bool;
  IsFake : bool;
  Compacted : bool;
  Level : SegmentLevel;
  StorageVersion : Z;
}.

Record SegmentStartPosition := {
  ssp_StartPosition : option MsgPosition;
  ssp_SegmentID : UniqueID;
}.

Record CheckPoint := {
  cp_SegmentID : UniqueID;
  cp_Position : option MsgPosition;
  cp_NumOfRows : Z;
}.

Record CompactionSegmentBinlogs := {
  csb_SegmentID : UniqueID;
  csb_FieldBinlogs : list FieldBinlog;
  csb_Field2StatslogPaths : list FieldBinlog;
  csb_Deltalogs : list FieldBinlog;
  csb_InsertChannel : string;
  csb_Level : SegmentLevel;
  csb_CollectionID : UniqueID;
  csb_PartitionID : UniqueID;
}.

Record CompactionPlan := {
  PlanID : Z;
  SegmentBinlogs : list CompactionSegmentBinlogs;
  StartTime : Timestamp;
  TimeoutInSeconds : Z;
  Type_ : CompactionType;
  Timetravel : Timestamp;
  Channel : string;
  CollectionTtl : Z;
  TotalRows : Z;
}.

Record CompactionSegment := {
  cs_PlanID : Z;
  cs_SegmentID : UniqueID;
  cs_NumOfRows : Z;
  InsertLogs : list FieldBinlog;
  Field2StatslogPaths : list FieldBinlog;
  cs_Deltalogs : list FieldBinlog;
  cs_Channel : string;
}.

Record CompactionPlanResult := {
  r_PlanID : Z;
  r_State : Z;   (* common.CompactionState, by its number *)
  Segments : list CompactionSegment;
  r_Channel : string;
  r_Type : CompactionType;
}.

(** Field updates of a segment record, one per field the engine assigns. *)
Definition set_NumOfRows (v : Z) (s : datapb_SegmentInfo) : datapb_SegmentInfo :=
  {| ID := ID s; CollectionID := CollectionID s; PartitionID := PartitionID s;
     InsertChannel := InsertChannel s; NumOfRows := v; State := State s;
     MaxRowNum := MaxRowNum s; LastExpireTime := LastExpireTime s;
     StartPosition := StartPosition s; DmlPosition := DmlPosition s;
     Binlogs := Binlogs s; Statslogs := Statslogs s; Deltalogs := Deltalogs s;
     CreatedByCompaction := CreatedByCompaction s;
     CompactionFrom := CompactionFrom s; DroppedAt := DroppedAt s;
     IsImporting := IsImporting s; IsFake := IsFake s; Compacted := Compacted s;
     Level := Level s; StorageVersion := StorageVersion s |}.

Definition set_State (v : SegmentState) (s : datapb_SegmentInfo) : datapb_SegmentInfo :=
  {| ID := ID s; CollectionID := CollectionID s; PartitionID := PartitionID s;
     InsertChannel := InsertChannel s; NumOfRows := NumOfRows s; State := v;
     MaxRowNum := MaxRowNum s; LastExpireTime := LastExpireTime s;
     StartPosition := StartPosition s; DmlPosition := DmlPosition s;
     Binlogs := Binlogs s; Statslogs := Statslogs s; Deltalogs := Deltalogs s;
     CreatedByCompaction := CreatedByCompaction s;
     CompactionFrom := CompactionFrom s; DroppedAt := DroppedAt s;
     IsImporting := IsImporting s; IsFake := IsFake s; Compacted := Compacted s;
     Level := Level s; StorageVersion := StorageVersion s |}.

Definition set_StartPosition (v : option MsgPosition) (s : datapb_SegmentInfo) : datapb_SegmentInfo :=
  {| ID := ID s; CollectionID := CollectionID s; PartitionID := PartitionID s;
     InsertChannel := InsertChannel s; NumOfRows := NumOfRows s; State := State s;
     MaxRowNum := MaxRowNum s; LastExpireTime := LastExpireTime s;
     StartPosition := v; DmlPosition := DmlPosition s;
     Binlogs := Binlogs s; Statslogs := Statslogs s; Deltalogs := Deltalogs s;
     CreatedByCompaction := CreatedByCompaction s;
     CompactionFrom := CompactionFrom s; DroppedAt := DroppedAt s;
     IsImporting := IsImporting s; IsFake := IsFake s; Compacted := Compacted s;
     Level := Level s; StorageVersion := StorageVersion s |}.

Definition set_DmlPosition (v : option MsgPosition) (s : datapb_SegmentInfo) : datapb_SegmentInfo :=
  {| ID := ID s; CollectionID := CollectionID s; PartitionID := PartitionID s;
     InsertChannel := InsertChannel s; NumOfRows := NumOfRows s; State := State s;
     MaxRowNum := MaxRowNum s; LastExpireTime := LastExpireTime s;
     StartPosition := StartPosition s; DmlPosition := v;
     Binlogs := Binlogs s; Statslogs := Statslogs s; Deltalogs := Deltalogs s;
     CreatedByCompaction := CreatedByCompaction s;
     CompactionFrom := CompactionFrom s; DroppedAt := DroppedAt s;
     IsImporting := IsImporting s; IsFake := IsFake s; Compacted := Compacted s;
     Level := Level s; StorageVersion := StorageVersion s |}.

Definition set_logs (b st d : list FieldBinlog) (s : datapb_SegmentInfo) : datapb_SegmentInfo :=
  {| ID := ID s; CollectionID := CollectionID s; PartitionID := PartitionID s;
     InsertChannel := InsertChannel s; NumOfRows := NumOfRows s; State := State s;
     MaxRowNum := MaxRowNum s; LastExpireTime := LastExpireTime s;
     StartPosition := StartPosition s; DmlPosition := DmlPosition s;
     Binlogs := b; Statslogs := st; Deltalogs := d;
     CreatedByCompaction := CreatedByCompaction s;
     CompactionFrom := CompactionFrom s; DroppedAt := DroppedAt s;
     IsImporting := IsImporting s; IsFake := IsFake s; Compacted := Compacted s;
     Level := Level s; StorageVersion := StorageVersion s |}.

Definition set_DroppedAt (v : Z) (s : datapb_SegmentInfo) : datapb_SegmentInfo :=
  {| ID := ID s; CollectionID := CollectionID s; PartitionID := PartitionID s;
     InsertChannel := InsertChannel s; NumOfRows := NumOfRows s; State := State s;
     MaxRowNum := MaxRowNum s; LastExpireTime := LastExpireTime s;
     StartPosition := StartPosition s; DmlPosition := DmlPosition s;
     Binlogs := Binlogs s; Statslogs := Statslogs s; Deltalogs := Deltalogs s;
     CreatedByCompaction := CreatedByCompaction s;
     CompactionFrom := CompactionFrom s; DroppedAt := v;
     IsImporting := IsImporting s; IsFake := IsFake s; Compacted := Compacted s;
     Level := Level s; StorageVersion := StorageVersion s |}.

Definition set_IsImporting (v : bool) (s : datapb_SegmentInfo) : datapb_SegmentInfo :=
  {| ID := ID s; CollectionID := CollectionID s; PartitionID := PartitionID s;
     InsertChannel := InsertChannel s; NumOfRows := NumOfRows s; State := State s;
     MaxRowNum := MaxRowNum s; LastExpireTime := LastExpireTime s;
     StartPosition := StartPosition s; DmlPosition := DmlPosition s;
     Binlogs := Binlogs s; Statslogs := Statslogs s; Deltalogs := Deltalogs s;
     CreatedByCompaction := CreatedByCompaction s;
     CompactionFrom := CompactionFrom s; DroppedAt := DroppedAt s;
     IsImporting := v; IsFake := IsFake s; Compacted := Compacted s;
     Level := Level s; StorageVersion := StorageVersion s |}.

Definition set_Compacted (v : bool) (s : datapb_SegmentInfo) : datapb_SegmentInfo :=
  {| ID := ID s; CollectionID := CollectionID s; PartitionID := PartitionID s;
     InsertChannel := InsertChannel s; NumOfRows := NumOfRows s; State := State s;
     MaxRowNum := MaxRowNum s; LastExpireTime := LastExpireTime s;
     StartPosition := StartPosition s; DmlPosition := DmlPosition s;
     Binlogs := Binlogs s; Statslogs := Statslogs s; Deltalogs := Deltalogs s;
     CreatedByCompaction := CreatedByCompaction s;
     CompactionFrom := CompactionFrom s; DroppedAt := DroppedAt s;
     IsImporting := IsImporting s; IsFake := IsFake s; Compacted := v;
     Level := Level s; StorageVersion := StorageVersion s |}.

Definition set_StorageVersion (v : Z) (s : datapb_SegmentInfo) : datapb_SegmentInfo :=
  {| ID := ID s; CollectionID := CollectionID s; PartitionID := PartitionID s;
     InsertChannel := InsertChannel s; NumOfRows := NumOfRows s; State := State s;
     MaxRowNum := MaxRowNum s; LastExpireTime := LastExpireTime s;
     StartPosition := StartPosition s; DmlPosition := DmlPosition s;
     Binlogs := Binlogs s; Statslogs := Statslogs s; Deltalogs := Deltalogs s;
     CreatedByCompaction := CreatedByCompaction s;
     CompactionFrom := CompactionFrom s; DroppedAt := DroppedAt s;
     IsImporting := IsImporting s; IsFake := IsFake s; Compacted := Compacted s;
     Level := Level s; StorageVersion := v |}.

(** ** In-memory segment records and the segment store *)

(** Modelled from the spec: [SegmentInfo], [NewSegmentInfo], [Clone] and the
    [SegmentsInfo] store live in segment_info.go, which is not among the
    sources.  A record wraps the wire record with in-memory-only attributes
    (current rows, the compacting flag), which a new record takes from the
    wire record; a clone is a deep copy, which for immutable values is the
    value itself. *)
Record SegmentInfo := {
  pb : datapb_SegmentInfo;
  currRows : Z;
  isCompacting : bool;
}.

Definition NewSegmentInfo (info : datapb_SegmentInfo) : SegmentInfo :=
  {| pb := info; currRows := NumOfRows info; isCompacting := false |}.

Definition Clone (s : SegmentInfo) : SegmentInfo := s.

Definition with_pb (f : datapb_SegmentInfo → datapb_SegmentInfo) (s : SegmentInfo) : SegmentInfo :=
  {| pb := f (pb s); currRows := currRows s; isCompacting := isCompacting s |}.

(** Modelled from the spec: the segment store, "a mapping from segmentID to a
    record" with [Set/Get/Drop] by id and the in-place setters. *)
Abbreviation SegmentsInfo := (gmap Z SegmentInfo).

Definition GetSegment (s : SegmentsInfo) (segmentID : UniqueID) : option SegmentInfo :=
  s !! segmentID.
Definition SetSegment (segmentID : UniqueID) (segment : SegmentInfo) (s : SegmentsInfo) : SegmentsInfo :=
  <[segmentID := segment]> s.
Definition DropSegment_store (segmentID : UniqueID) (s : SegmentsInfo) : SegmentsInfo :=
  delete segmentID s.
Definition SetState_store (segmentID : UniqueID) (state : SegmentState) (s : SegmentsInfo) : SegmentsInfo :=
  match s !! segmentID with
  | Some segment => <[segmentID := with_pb (set_State state) segment]> s
  | None => s
  end.
Definition SetIsImporting_store (segmentID : UniqueID) (isImporting : bool) (s : SegmentsInfo) : SegmentsInfo :=
  match s !! segmentID with
  | Some segment => <[segmentID := with_pb (set_IsImporting isImporting) segment]> s
  | None => s
  end.

(** [isSegmentHealthy]; the argument is a pointer in the source and [None]
    stands for nil. *)
Definition isSegmentHealthy (segment : option SegmentInfo) : bool :=
  match segment with
  | None => false
  | Some s =>
      bool_decide (State (pb s) ≠ SegmentStateNone)
      && bool_decide (State (pb s) ≠ NotExist)
      && bool_decide (State (pb s) ≠ Dropped)
  end.

(** ** The metric-mutation buffer *)

(** [stateChange] is keyed by the level label, then by the state label. *)
Record segMetricMutation := {
  stateChange : gmap string (gmap string Z);
  rowCountChange : Z;
  rowCountAccChange : Z;
}.

Definition new_segMetricMutation : segMetricMutation :=
  {| stateChange := ∅; rowCountChange := 0; rowCountAccChange := 0 |}.

Definition isFlushState (state : SegmentState) : bool :=
  bool_decide (state = Flushing) || bool_decide (state = Flushed).

(** [m[k] op= d] on a Go map of ints: a missing key reads as zero. *)
Definition bump (k : string) (d : Z) (m : gmap string Z) : gmap string Z :=
  <[k := add64 (default 0 (m !! k)) d]> m.

(** The submap of a level, created empty when it is missing. *)
Definition submap (level : string) (sc : gmap string (gmap string Z)) : gmap string Z :=
  default ∅ (sc !! level).

Definition addNewSeg (state : SegmentState) (level : SegmentLevel) (rowCount : Z)
    (s : segMetricMutation) : segMetricMutation :=
  let lv := SegmentLevel_String level in
  {| stateChange := <[lv := bump (SegmentState_String state) 1 (submap lv (stateChange s))]> (stateChange s);
     rowCountChange := add64 (rowCountChange s) rowCount;
     rowCountAccChange := add64 (rowCountAccChange s) rowCount |}.

Definition segMetricMutation_append (oldState newState : SegmentState) (level : SegmentLevel)
    (rowCountUpdate : Z) (s : segMetricMutation) : segMetricMutation :=
  let lv := SegmentLevel_String level in
  let sc :=
    if bool_decide (oldState ≠ newState) then
      <[lv := bump (SegmentState_String newState) 1
                (bump (SegmentState_String oldState) (-1) (submap lv (stateChange s)))]>
        (stateChange s)
    else stateChange s in
  if isFlushState newState && negb (isFlushState oldState) then
    {| stateChange := sc;
       rowCountChange := add64 (rowCountChange s) rowCountUpdate;
       rowCountAccChange := add64 (rowCountAccChange s) rowCountUpdate |}
  else if bool_decide (newState = Dropped) && bool_decide (oldState ≠ newState) then
    {| stateChange := sc;
       rowCountChange := sub64 (rowCountChange s) rowCountUpdate;
       rowCountAccChange := rowCountAccChange s |}
  else
    {| stateChange := sc;
       rowCountChange := rowCountChange s;
       rowCountAccChange := rowCountAccChange s |}.

(** The pending delta of the (level, state) counter. *)
Definition stateCount (s : segMetricMutation) (level : SegmentLevel) (state : SegmentState) : Z :=
  default 0 (submap (SegmentLevel_String level) (stateChange s) !! SegmentState_String state).

(** [updateSegStateAndPrepareMetrics]: the segment is mutated in place in the
    source, so the updated record is returned along with the buffer. *)
Definition updateSegStateAndPrepareMetrics (segToUpdate : SegmentInfo) (targetState : SegmentState)
    (metricMutation : segMetricMutation) : SegmentInfo * segMetricMutation :=
  (with_pb (set_State targetState) segToUpdate,
   segMetricMutation_append (State (pb segToUpdate)) targetState (Level (pb segToUpdate))
     (NumOfRows (pb segToUpdate)) metricMutation).

(** ** Compacted-segment size (util.go) *)

(** One of the three accumulation loops of [getCompactedSegmentSize]. *)
Definition addLogSizes (segmentSize : Z) (logs : list FieldBinlog) : Z :=
  fold_left (fun acc fb => fold_left (fun acc' l => add64 acc' (LogSize l)) (fb_Binlogs fb) acc)
    logs segmentSize.

Definition getCompactedSegmentSize (s : option CompactionSegment) : Z :=
  match s with
  | None => 0
  | Some s =>
      let segmentSize := addLogSizes 0 (InsertLogs s) in
      let segmentSize := addLogSizes segmentSize (cs_Deltalogs s) in
      (* the loop named statsLogs ranges over s.GetDeltalogs() *)
      let segmentSize := addLogSizes segmentSize (cs_Deltalogs s) in
      segmentSize
  end.

(** The exact (unbounded) sum of the log sizes of a list of field binlogs. *)
Definition totalLogSize (logs : list FieldBinlog) : Z :=
  foldr (fun fb acc => foldr (fun l acc' => LogSize l + acc') 0 (fb_Binlogs fb) + acc) 0 logs.

(** ** External collaborators *)

Inductive error :=
| ErrSegmentNotFound (segmentID : UniqueID)   (* merr.WrapErrSegmentNotFound *)
| ErrSegmentNotExist (segmentID : UniqueID)   (* "segment is not exist with ID = %d" *)
| ErrSegmentMissing (segmentID : UniqueID)    (* "segment not found %d" *)
| ErrChannelCPNil (vChannel : string)         (* "channelCP is nil, vChannel=%s" *)
| ErrExternal (msg : string).                 (* raised by the catalog or the blob store *)

(** The result of a call: a value, a returned error, or a run-time panic
    (index out of range, nil dereference). *)
Inductive result (A : Type) :=
| Ok (a : A)
| Err (e : error)
| Panic.
Arguments Ok {A} a.
Arguments Err {A} e.
Arguments Panic {A}.

(** Modelled from the spec: [metautil.BuildDeltaLogPath] is not among the
    sources.  Delta-log keys are "derived from
    collectionID/partitionID/segmentID/logID under the blob-store root"; the
    key is kept as these components instead of the joined string. *)
Record DeltaLogPath := {
  path_root : string;
  path_collectionID : UniqueID;
  path_partitionID : UniqueID;
  path_segmentID : UniqueID;
  path_logID : Z;
}.

Definition BuildDeltaLogPath (rootPath : string) (collectionID partitionID segmentID logID : Z)
    : DeltaLogPath :=
  {| path_root := rootPath; path_collectionID := collectionID;
     path_partitionID := partitionID; path_segmentID := segmentID;
     path_logID := logID |}.

(** [metastore.DataCoordCatalog], restricted to the methods the engine calls
    in the operations below.  [K] is the state of the durable store; a call
    returns the new state and the error, if any. *)
Class DataCoordCatalog (K : Type) := {
  catalog_AddSegment : datapb_SegmentInfo → K → K * option error;
  catalog_AlterSegments :
    list datapb_SegmentInfo → list datapb_SegmentInfo → K → K * option error;
  catalog_DropSegment : datapb_SegmentInfo → K → K * option error;
  catalog_SaveChannelCheckpoint : string → MsgPosition → K → K * option error;
}.

(** [storage.ChunkManager]: the blob store. *)
Class ChunkManager (B : Type) := {
  RootPath : string;
  chunk_Read : DeltaLogPath → B → B * (error + list byte);
  chunk_Write : DeltaLogPath → list byte → B → B * option error;
}.

(** Calls that leave the process, in the order they are issued. *)
Inductive Event :=
| CatalogAddSegment (segment : datapb_SegmentInfo)
| CatalogAlterSegments (segments increments : list datapb_SegmentInfo)
| CatalogDropSegment (segment : datapb_SegmentInfo)
| CatalogSaveChannelCheckpoint (vChannel : string) (pos : MsgPosition)
| ChunkRead (key : DeltaLogPath)
| ChunkWrite (key : DeltaLogPath) (blob : list byte).

(** The process-wide metric registry; gauges and counters are kept as
    integers, a missing label reads as zero. *)
Record Metrics := {
  DataCoordNumSegments : gmap (string * string) Z;   (* labels: state, level *)
  DataCoordNumStoredRowsCounter : Z;
  DataCoordCheckpointUnixSeconds : gmap string Z;    (* label: vChannel *)
}.

Definition gauge_add (key : string * string) (d : Z) (g : gmap (string * string) Z)
    : gmap (string * string) Z :=
  <[key := default 0 (g !! key) + d]> g.

(** [segMetricMutation.commit] *)
Definition commit (s : segMetricMutation) (reg : Metrics) : Metrics :=
  {| DataCoordNumSegments :=
       map_fold (fun level sub acc =>
                   map_fold (fun state change acc' => gauge_add (state, level) change acc') acc sub)
         (DataCoordNumSegments reg) (stateChange s);
     DataCoordNumStoredRowsCounter := DataCoordNumStoredRowsCounter reg + rowCountAccChange s;
     DataCoordCheckpointUnixSeconds := DataCoordCheckpointUnixSeconds reg |}.

Definition segment_labels (s : datapb_SegmentInfo) : string * string :=
  (SegmentState_String (State s), SegmentLevel_String (Level s)).

(** ** The meta engine *)

(** The engine's state: the catalog and the blob store it owns, the segment
    map, the channel checkpoints; with it the metric registry and the trace
    of external calls. *)
Record meta (K B : Type) := {
  catalog : K;
  chunkManager : B;
  segments : gmap Z SegmentInfo;
  channelCPs : gmap string MsgPosition;
  metrics : Metrics;
  trace : list Event;
}.
Arguments catalog {K B} m.
Arguments chunkManager {K B} m.
Arguments segments {K B} m.
Arguments channelCPs {K B} m.
Arguments metrics {K B} m.
Arguments trace {K B} m.

Section Engine.
Context {K B : Type} `{!DataCoordCatalog K} `{!ChunkManager B}.

(** [segmentutil.CalcRowCountFromBinLog] and the Unix seconds of
    [tsoutil.ParseTS] are helpers outside the sources; the engine is
    parametric in them. *)
Variable CalcRowCountFromBinLog : datapb_SegmentInfo → Z.
Variable ParseTS_Unix : Timestamp → Z.

Abbreviation Meta := (meta K B).

Definition set_segments (v : gmap Z SegmentInfo) (m : Meta) : Meta :=
  {| catalog := catalog m; chunkManager := chunkManager m; segments := v;
     channelCPs := channelCPs m; metrics := metrics m; trace := trace m |}.
Definition set_channelCPs (v : gmap string MsgPosition) (m : Meta) : Meta :=
  {| catalog := catalog m; chunkManager := chunkManager m; segments := segments m;
     channelCPs := v; metrics := metrics m; trace := trace m |}.
Definition set_metrics (v : Metrics) (m : Meta) : Meta :=
  {| catalog := catalog m; chunkManager := chunkManager m; segments := segments m;
     channelCPs := channelCPs m; metrics := v; trace := trace m |}.

(** An external call: the collaborator's state advances and the call is
    appended to the trace. *)
Definition catalog_call (e : Event) (f : K → K * option error) (m : Meta)
    : Meta * option error :=
  let '(k, r) := f (catalog m) in
  ({| catalog := k; chunkManager := chunkManager m; segments := segments m;
      channelCPs := channelCPs m; metrics := metrics m; trace := trace m ++ [e] |}, r).

Definition chunk_call {A} (e : Event) (f : B → B * A) (m : Meta) : Meta * A :=
  let '(b, r) := f (chunkManager m) in
  ({| catalog := catalog m; chunkManager := b; segments := segments m;
      channelCPs := channelCPs m; metrics := metrics m; trace := trace m ++ [e] |}, r).

(** *** AddSegment, DropSegment, SetState, UpdateSegment, UnsetIsImporting *)

Definition AddSegment (segment : SegmentInfo) (m : Meta) : Meta * result unit :=
  match catalog_call (CatalogAddSegment (pb segment)) (catalog_AddSegment (pb segment)) m with
  | (m1, Some err) => (m1, Err err)
  | (m1, None) =>
      let m2 := set_segments (SetSegment (ID (pb segment)) segment (segments m1)) m1 in
      let reg := metrics m2 in
      (set_metrics
         {| DataCoordNumSegments := gauge_add (segment_labels (pb segment)) 1 (DataCoordNumSegments reg);
            DataCoordNumStoredRowsCounter := DataCoordNumStoredRowsCounter reg;
            DataCoordCheckpointUnixSeconds := DataCoordCheckpointUnixSeconds reg |} m2,
       Ok tt)
  end.

Definition DropSegment (segmentID : UniqueID) (m : Meta) : Meta * result unit :=
  match GetSegment (segments m) segmentID with
  | None => (m, Ok tt)
  | Some segment =>
      match catalog_call (CatalogDropSegment (pb segment)) (catalog_DropSegment (pb segment)) m with
      | (m1, Some err) => (m1, Err err)
      | (m1, None) =>
          let reg := metrics m1 in
          let m2 :=
            set_metrics
              {| DataCoordNumSegments := gauge_add (segment_labels (pb segment)) (-1) (DataCoordNumSegments reg);
                 DataCoordNumStoredRowsCounter := DataCoordNumStoredRowsCounter reg;
                 DataCoordCheckpointUnixSeconds := DataCoordCheckpointUnixSeconds reg |} m1 in
          (set_segments (DropSegment_store segmentID (segments m2)) m2, Ok tt)
      end
  end.

Definition GetHealthySegment (segID : UniqueID) (m : Meta) : option SegmentInfo :=
  match GetSegment (segments m) segID with
  | Some segment => if isSegmentHealthy (Some segment) then Some segment else None
  | None => None
  end.

Definition SetState (segmentID : UniqueID) (targetState : SegmentState) (m : Meta)
    : Meta * result unit :=
  match GetSegment (segments m) segmentID with
  | None =>
      (* idempotent drop *)
      if bool_decide (targetState = Dropped) then (m, Ok tt)
      else (m, Err (ErrSegmentNotExist segmentID))
  | Some curSegInfo =>
      let clonedSegment := Clone curSegInfo in
      let metricMutation := new_segMetricMutation in
      if isSegmentHealthy (Some clonedSegment) then
        let '(clonedSegment, metricMutation) :=
          updateSegStateAndPrepareMetrics clonedSegment targetState metricMutation in
        match catalog_call (CatalogAlterSegments [pb clonedSegment] [])
                (catalog_AlterSegments [pb clonedSegment] []) m with
        | (m1, Some err) => (m1, Err err)
        | (m1, None) =>
            let m2 := set_metrics (commit metricMutation (metrics m1)) m1 in
            (set_segments (SetState_store segmentID targetState (segments m2)) m2, Ok tt)
        end
      else (m, Ok tt)
  end.

(** A [SegmentOperator] mutates the clone it is given and reports whether it
    changed it. *)
Definition SegmentOperator := SegmentInfo → SegmentInfo * bool.

(** [updated = updated || operator(cloned)]: the right operand is evaluated
    only while [updated] is still false. *)
Definition applySegmentOperators (operators : list SegmentOperator) (cloned : SegmentInfo)
    : SegmentInfo * bool :=
  fold_left (fun '(c, updated) operator => if updated : bool then (c, true) else operator c)
    operators (cloned, false).

Definition UpdateSegment (segmentID : UniqueID) (operators : list SegmentOperator) (m : Meta)
    : Meta * result unit :=
  match GetSegment (segments m) segmentID with
  | None => (m, Err (ErrSegmentNotFound segmentID))
  | Some info =>
      let '(cloned, updated) := applySegmentOperators operators (Clone info) in
      if negb updated then (m, Ok tt)
      else
        match catalog_call (CatalogAlterSegments [pb cloned] [])
                (catalog_AlterSegments [pb cloned] []) m with
        | (m1, Some err) => (m1, Err err)
        | (m1, None) => (set_segments (SetSegment segmentID cloned (segments m1)) m1, Ok tt)
        end
  end.

Definition UnsetIsImporting (segmentID : UniqueID) (m : Meta) : Meta * result unit :=
  match GetSegment (segments m) segmentID with
  | None => (m, Err (ErrSegmentMissing segmentID))
  | Some curSegInfo =>
      let clonedSegment := with_pb (set_IsImporting false) (Clone curSegInfo) in
      let install (m' : Meta) :=
        (set_segments (SetIsImporting_store segmentID false (segments m')) m', Ok tt) in
      if isSegmentHealthy (Some clonedSegment) then
        match catalog_call (CatalogAlterSegments [pb clonedSegment] [])
                (catalog_AlterSegments [pb clonedSegment] []) m with
        | (m1, Some err) => (m1, Err err)
        | (m1, None) => install m1
        end
      else install m
  end.

(** *** The operator pipeline *)

(** A binlog increment holds a pointer to a segment record.  It is either
    the record the pack currently holds under the same id, so that later
    operators of the same transaction are seen through it, or a record the
    pack has since replaced. *)
Inductive increment :=
| IncrAlias
| IncrDetached (segment : datapb_SegmentInfo).

Record updateSegmentPack := {
  p_meta : Meta;
  p_segments : gmap Z SegmentInfo;
  p_increments : gmap Z increment;
  p_metricMutation : segMetricMutation;
}.

Definition set_p_segments (v : gmap Z SegmentInfo) (p : updateSegmentPack) : updateSegmentPack :=
  {| p_meta := p_meta p; p_segments := v; p_increments := p_increments p;
     p_metricMutation := p_metricMutation p |}.
Definition set_p_increments (v : gmap Z increment) (p : updateSegmentPack) : updateSegmentPack :=
  {| p_meta := p_meta p; p_segments := p_segments p; p_increments := v;
     p_metricMutation := p_metricMutation p |}.
Definition set_p_metricMutation (v : segMetricMutation) (p : updateSegmentPack) : updateSegmentPack :=
  {| p_meta := p_meta p; p_segments := p_segments p; p_increments := p_increments p;
     p_metricMutation := v |}.

(** [updateSegmentPack.Get]: the pack's own record if it has one, else a
    clone of the healthy record of the segment map, remembered in the pack. *)
Definition Get (segmentID : UniqueID) (p : updateSegmentPack)
    : updateSegmentPack * option SegmentInfo :=
  match p_segments p !! segmentID with
  | Some segment => (p, Some segment)
  | None =>
      let segment := GetSegment (segments (p_meta p)) segmentID in
      match segment with
      | Some s =>
          if isSegmentHealthy segment
          then (set_p_segments (<[segmentID := Clone s]> (p_segments p)) p, Some (Clone s))
          else (p, None)
      | None => (p, None)
      end
  end.

(** Writing through the pointer [Get] returned. *)
Definition put (segmentID : UniqueID) (segment : SegmentInfo) (p : updateSegmentPack)
    : updateSegmentPack :=
  set_p_segments (<[segmentID := segment]> (p_segments p)) p.

(** An operator reports whether the transaction may proceed; [None] is a
    run-time panic inside the operator. *)
Definition UpdateOperator := updateSegmentPack → option (updateSegmentPack * bool).

Definition CreateL0Operator (collectionID partitionID segmentID : UniqueID) (channel : string)
    : UpdateOperator := fun modPack =>
  match GetSegment (segments (p_meta modPack)) segmentID with
  | None =>
      let fresh :=
        {| pb := {| ID := segmentID; CollectionID := collectionID; PartitionID := partitionID;
                    InsertChannel := channel; NumOfRows := 0; State := Flushed;
                    MaxRowNum := 0; LastExpireTime := 0; StartPosition := None;
                    DmlPosition := None; Binlogs := []; Statslogs := []; Deltalogs := [];
                    CreatedByCompaction := false; CompactionFrom := []; DroppedAt := 0;
                    IsImporting := false; IsFake := false; Compacted := false;
                    Level := L0; StorageVersion := 0 |};
           currRows := 0; isCompacting := false |} in
      (* an increment that pointed to the replaced record keeps pointing to it *)
      let incs :=
        match p_increments modPack !! segmentID, p_segments modPack !! segmentID with
        | Some IncrAlias, Some old => <[segmentID := IncrDetached (pb old)]> (p_increments modPack)
        | _, _ => p_increments modPack
        end in
      Some (set_p_metricMutation (addNewSeg Flushed L0 0 (p_metricMutation modPack))
              (set_p_increments incs (put segmentID fresh modPack)), true)
  | Some _ => Some (modPack, true)
  end.

Definition UpdateStorageVersionOperator (segmentID : UniqueID) (version : Z) : UpdateOperator :=
  fun modPack =>
  match Get segmentID modPack with
  | (_, None) => Some (modPack, false)
  | (modPack, Some segment) =>
      Some (put segmentID (with_pb (set_StorageVersion version) segment) modPack, true)
  end.

(** [now] is the reading of [time.Now().UnixNano()] taken by the operator. *)
Definition UpdateStatusOperator (segmentID : UniqueID) (status : SegmentState) (now : Z)
    : UpdateOperator := fun modPack =>
  match Get segmentID modPack with
  | (_, None) => Some (modPack, false)
  | (modPack, Some segment) =>
      let '(segment, mm) :=
        updateSegStateAndPrepareMetrics segment status (p_metricMutation modPack) in
      let segment :=
        if bool_decide (status = Dropped) then with_pb (set_DroppedAt now) segment else segment in
      Some (put segmentID segment (set_p_metricMutation mm modPack), true)
  end.

Definition UpdateCompactedOperator (segmentID : UniqueID) : UpdateOperator := fun modPack =>
  match Get segmentID modPack with
  | (_, None) => Some (modPack, false)
  | (modPack, Some segment) =>
      Some (put segmentID (with_pb (set_Compacted true) segment) modPack, true)
  end.

(** [getFieldBinlogs] followed by the in-place append of [mergeFieldBinlogs]:
    the first field binlog with the id receives the new logs. *)
Fixpoint appendToField (id : Z) (newLogs : list Binlog) (binlogs : list FieldBinlog)
    : option (list FieldBinlog) :=
  match binlogs with
  | [] => None
  | binlog :: rest =>
      if bool_decide (id = FieldID binlog)
      then Some ({| FieldID := FieldID binlog; fb_Binlogs := fb_Binlogs binlog ++ newLogs |} :: rest)
      else cons binlog <$> appendToField id newLogs rest
  end.

Definition mergeFieldBinlogs (currentBinlogs newBinlogs : list FieldBinlog) : list FieldBinlog :=
  fold_left (fun current newBinlog =>
               match appendToField (FieldID newBinlog) (fb_Binlogs newBinlog) current with
               | None => current ++ [newBinlog]
               | Some merged => merged
               end)
    newBinlogs currentBinlogs.

Definition UpdateBinlogsOperator (segmentID : UniqueID) (binlogs statslogs deltalogs : list FieldBinlog)
    : UpdateOperator := fun modPack =>
  match Get segmentID modPack with
  | (_, None) => Some (modPack, false)
  | (modPack, Some segment) =>
      let segment :=
        with_pb (fun s => set_logs (mergeFieldBinlogs (Binlogs s) binlogs)
                            (mergeFieldBinlogs (Statslogs s) statslogs)
                            (mergeFieldBinlogs (Deltalogs s) deltalogs) s) segment in
      Some (set_p_increments (<[segmentID := IncrAlias]> (p_increments modPack))
              (put segmentID segment modPack), true)
  end.

(** [len(pos.GetStartPosition().GetMsgID()) == 0] *)
Definition emptyMsgID (pos : option MsgPosition) : bool :=
  match pos with
  | Some p => match MsgID p with Some (_ :: _) => false | _ => true end
  | None => true
  end.

Definition UpdateStartPosition (startPositions : list SegmentStartPosition) : UpdateOperator :=
  fun modPack =>
  Some (fold_left (fun modPack pos =>
                     if emptyMsgID (ssp_StartPosition pos) then modPack
                     else match Get (ssp_SegmentID pos) modPack with
                          | (_, None) => modPack
                          | (modPack, Some s) =>
                              put (ssp_SegmentID pos)
                                (with_pb (set_StartPosition (ssp_StartPosition pos)) s) modPack
                          end)
          startPositions modPack, true).

(** The checkpoint loop of [UpdateCheckPointOperator].  [cp.Position.Timestamp]
    is read only when the segment has a checkpoint; it dereferences the
    checkpoint's position, which panics when that is nil. *)
Fixpoint applyCheckPoints (segmentID : UniqueID) (checkpoints : list CheckPoint)
    (segment : SegmentInfo) : option SegmentInfo :=
  match checkpoints with
  | [] => Some segment
  | cp :: rest =>
      let accept :=
        with_pb (fun s => set_DmlPosition (cp_Position cp) (set_NumOfRows (cp_NumOfRows cp) s))
          segment in
      if bool_decide (cp_SegmentID cp ≠ segmentID) then applyCheckPoints segmentID rest segment
      else
        match DmlPosition (pb segment) with
        | None => applyCheckPoints segmentID rest accept
        | Some dml =>
            match cp_Position cp with
            | None => None
            | Some pos =>
                if Timestamp_ pos <=? Timestamp_ dml
                then applyCheckPoints segmentID rest segment
                else applyCheckPoints segmentID rest accept
            end
        end
  end.

(** The cross-check against the binlog row count that ends the operator. *)
Definition healRowCount (segment : SegmentInfo) : SegmentInfo :=
  let count := CalcRowCountFromBinLog (pb segment) in
  if bool_decide (count ≠ currRows segment) && bool_decide (0 < count)
  then with_pb (set_NumOfRows count) segment
  else segment.

Definition UpdateCheckPointOperator (segmentID : UniqueID) (importing : bool)
    (checkpoints : list CheckPoint) : UpdateOperator := fun modPack =>
  match Get segmentID modPack with
  | (_, None) => Some (modPack, false)
  | (modPack, Some segment) =>
      let updated :=
        if importing then Some (with_pb (set_NumOfRows (currRows segment)) segment)
        else applyCheckPoints segmentID checkpoints segment in
      match updated with
      | None => None
      | Some segment => Some (put segmentID (healRowCount segment) modPack, true)
      end
  end.

(** The loop over the operators of [UpdateSegmentsInfo]. *)
Inductive pipeline :=
| Proceed (updatePack : updateSegmentPack)
| Skipped
| Panicked.

Fixpoint runOperators (operators : list UpdateOperator) (updatePack : updateSegmentPack)
    : pipeline :=
  match operators with
  | [] => Proceed updatePack
  | operator :: rest =>
      match operator updatePack with
      | None => Panicked
      | Some (_, false) => Skipped
      | Some (updatePack, true) => runOperators rest updatePack
      end
  end.

Definition newPack (m : Meta) : updateSegmentPack :=
  {| p_meta := m; p_segments := ∅; p_increments := ∅;
     p_metricMutation := new_segMetricMutation |}.

(** [lo.MapToSlice] and [lo.Values] range over a Go map, whose order is
    unspecified; the order of [map_to_list] stands for it. *)
Definition packSegments (p : updateSegmentPack) : list datapb_SegmentInfo :=
  (fun kv => pb kv.2) <$> map_to_list (p_segments p).

Definition packIncrements (p : updateSegmentPack) : list datapb_SegmentInfo :=
  omap (fun kv => match kv.2 with
                  | IncrDetached segment => Some segment
                  | IncrAlias => pb <$> p_segments p !! kv.1
                  end)
    (map_to_list (p_increments p)).

Definition installSegments (updated : gmap Z SegmentInfo) (s : gmap Z SegmentInfo)
    : gmap Z SegmentInfo :=
  map_fold (fun id segment acc => SetSegment id segment acc) s updated.

Definition UpdateSegmentsInfo (operators : list UpdateOperator) (m : Meta) : Meta * result unit :=
  match runOperators operators (newPack m) with
  | Panicked => (m, Panic)
  | Skipped => (m, Ok tt)
  | Proceed updatePack =>
      let segs := packSegments updatePack in
      let increments := packIncrements updatePack in
      match catalog_call (CatalogAlterSegments segs increments)
              (catalog_AlterSegments segs increments) m with
      | (m1, Some err) => (m1, Err err)
      | (m1, None) =>
          let m2 := set_metrics (commit (p_metricMutation updatePack) (metrics m1)) m1 in
          (set_segments (installSegments (p_segments updatePack) (segments m2)) m2, Ok tt)
      end
  end.

(** *** The compaction completer *)

(** A loop over a slice whose body may return early with an error. *)
Fixpoint forEach {X A : Type} (body : X → A → Meta → Meta * result A) (xs : list X)
    (acc : A) (m : Meta) : Meta * result A :=
  match xs with
  | [] => (m, Ok acc)
  | x :: rest =>
      match body x acc m with
      | (m1, Ok acc1) => forEach body rest acc1 m1
      | (m1, Err e) => (m1, Err e)
      | (m1, Panic) => (m1, Panic)
      end
  end.

Definition fromKey (seg : SegmentInfo) (l : Binlog) : DeltaLogPath :=
  BuildDeltaLogPath RootPath (CollectionID (pb seg)) (PartitionID (pb seg))
    (ID (pb seg)) (LogID l).

Definition toKey (seg : SegmentInfo) (toSegment : UniqueID) (l : Binlog) : DeltaLogPath :=
  BuildDeltaLogPath RootPath (CollectionID (pb seg)) (PartitionID (pb seg))
    toSegment (LogID l).

(** The body of the innermost loop of [copyNewDeltalogs]. *)
Definition copyDeltalog (logIDsInPlan : gset Z) (toSegment : UniqueID) (seg : SegmentInfo)
    (l : Binlog) (newBinlogs : list Binlog) (m : Meta) : Meta * result (list Binlog) :=
  if bool_decide (LogID l ∈ logIDsInPlan) then (m, Ok newBinlogs)
  else
    let fromKey := fromKey seg l in
    let toKey := toKey seg toSegment l in
    match chunk_call (ChunkRead fromKey) (chunk_Read fromKey) m with
    | (m1, inl err) => (m1, Err err)
    | (m1, inr blob) =>
        match chunk_call (ChunkWrite toKey blob) (chunk_Write toKey blob) m1 with
        | (m2, Some err) => (m2, Err err)
        | (m2, None) => (m2, Ok (newBinlogs ++ [l]))
        end
    end.

Definition copyNewDeltalogs (latestCompactFromInfos : list SegmentInfo) (logIDsInPlan : gset Z)
    (toSegment : UniqueID) (m : Meta) : Meta * result (list Binlog) :=
  forEach (fun seg =>
             forEach (fun fieldLog =>
                        forEach (copyDeltalog logIDsInPlan toSegment seg) (fb_Binlogs fieldLog))
               (Deltalogs (pb seg)))
    latestCompactFromInfos [] m.

(** The first loop of [CompleteCompactionMutation]: every source is looked
    up, cloned, stamped and marked Dropped.  [now i] is the clock reading of
    the i-th iteration. *)
Fixpoint dropSources (now : nat → Z) (i : nat) (segmentBinlogs : list CompactionSegmentBinlogs)
    (s : gmap Z SegmentInfo) (compactFromSegIDs : list UniqueID)
    (latestCompactFromSegments : list SegmentInfo) (metricMutation : segMetricMutation)
    : error + (list UniqueID * list SegmentInfo * segMetricMutation) :=
  match segmentBinlogs with
  | [] => inr (compactFromSegIDs, latestCompactFromSegments, metricMutation)
  | sb :: rest =>
      match GetSegment s (csb_SegmentID sb) with
      | None => inl (ErrSegmentNotFound (csb_SegmentID sb))
      | Some segment =>
          let cloned := with_pb (set_Compacted true) (with_pb (set_DroppedAt (now i)) (Clone segment)) in
          let '(cloned', metricMutation') :=
            updateSegStateAndPrepareMetrics cloned Dropped metricMutation in
          dropSources now (S i) rest s (compactFromSegIDs ++ [ID (pb cloned)])
            (latestCompactFromSegments ++ [cloned']) metricMutation'
      end
  end.

Definition logIDsFromPlan (plan : CompactionPlan) : gset Z :=
  list_to_set
    (flat_map (fun segBinlogs =>
                 flat_map (fun fieldBinlog => LogID <$> fb_Binlogs fieldBinlog)
                   (csb_Deltalogs segBinlogs))
       (SegmentBinlogs plan)).

Definition getMinPosition (positions : list (option MsgPosition)) : option MsgPosition :=
  fold_left (fun minPos pos =>
               match minPos, pos with
               | None, _ => pos
               | Some mp, Some p => if Timestamp_ p <? Timestamp_ mp then pos else minPos
               | Some _, None => minPos
               end)
    positions None.

(** The delta logs of the result after the carry-over has been attached. *)
Definition attachDeltalogs (compactToSegment : CompactionSegment) (newDeltalogs : list Binlog)
    : list FieldBinlog :=
  match newDeltalogs with
  | [] => cs_Deltalogs compactToSegment
  | _ :: _ => cs_Deltalogs compactToSegment ++ [{| FieldID := 0; fb_Binlogs := newDeltalogs |}]
  end.

Definition compactToRecord (plan : CompactionPlan) (compactToSegment : CompactionSegment)
    (deltalogs : list FieldBinlog) (compactFromSegIDs : list UniqueID)
    (first : SegmentInfo) (latestCompactFromSegments : list SegmentInfo) : datapb_SegmentInfo :=
  {| ID := cs_SegmentID compactToSegment;
     CollectionID := CollectionID (pb first);
     PartitionID := PartitionID (pb first);
     InsertChannel := Channel plan;
     NumOfRows := cs_NumOfRows compactToSegment;
     State := Flushed;
     MaxRowNum := MaxRowNum (pb first);
     LastExpireTime := StartTime plan;
     StartPosition := getMinPosition ((fun info => StartPosition (pb info)) <$> latestCompactFromSegments);
     DmlPosition := getMinPosition ((fun info => DmlPosition (pb info)) <$> latestCompactFromSegments);
     Binlogs := InsertLogs compactToSegment;
     Statslogs := Field2StatslogPaths compactToSegment;
     Deltalogs := deltalogs;
     CreatedByCompaction := true;
     CompactionFrom := compactFromSegIDs;
     DroppedAt := 0;
     IsImporting := false;
     IsFake := false;
     Compacted := false;
     Level := L1;
     StorageVersion := 0 |}.

Definition CompleteCompactionMutation (plan : CompactionPlan) (planResult : CompactionPlanResult)
    (now : nat → Z) (m : Meta) : Meta * result (list SegmentInfo * segMetricMutation)%type :=
  match dropSources now 0 (SegmentBinlogs plan) (segments m) [] [] new_segMetricMutation with
  | inl err => (m, Err err)
  | inr (compactFromSegIDs, latestCompactFromSegments, metricMutation) =>
      (* result.GetSegments()[0] *)
      match Segments planResult with
      | [] => (m, Panic)
      | compactToSegment :: _ =>
          match copyNewDeltalogs latestCompactFromSegments (logIDsFromPlan plan)
                  (cs_SegmentID compactToSegment) m with
          | (m1, Err err) => (m1, Err err)
          | (m1, Panic) => (m1, Panic)
          | (m1, Ok newDeltalogs) =>
              let deltalogs := attachDeltalogs compactToSegment newDeltalogs in
              (* latestCompactFromSegments[0] *)
              match latestCompactFromSegments with
              | [] => (m1, Panic)
              | first :: _ =>
                  let compactToSegmentInfo :=
                    NewSegmentInfo (compactToRecord plan compactToSegment deltalogs
                                      compactFromSegIDs first latestCompactFromSegments) in
                  let '(compactToSegmentInfo, metricMutation) :=
                    if 0 <? NumOfRows (pb compactToSegmentInfo) then
                      (compactToSegmentInfo,
                       addNewSeg (State (pb compactToSegmentInfo)) (Level (pb compactToSegmentInfo))
                         (NumOfRows (pb compactToSegmentInfo)) metricMutation)
                    else (with_pb (set_State Dropped) compactToSegmentInfo, metricMutation) in
                  let segs := (pb <$> latestCompactFromSegments) ++ [pb compactToSegmentInfo] in
                  match catalog_call (CatalogAlterSegments segs [pb compactToSegmentInfo])
                          (catalog_AlterSegments segs [pb compactToSegmentInfo]) m1 with
                  | (m2, Some err) => (m2, Err err)
                  | (m2, None) =>
                      let installed :=
                        fold_left (fun acc info => SetSegment (ID (pb info)) info acc)
                          latestCompactFromSegments (segments m2) in
                      (set_segments
                         (SetSegment (ID (pb compactToSegmentInfo)) compactToSegmentInfo installed) m2,
                       Ok ([compactToSegmentInfo], metricMutation))
                  end
              end
          end
      end
  end.

(** *** Channel checkpoints *)

Definition UpdateChannelCheckpoint (vChannel : string) (pos : option MsgPosition) (m : Meta)
    : Meta * result unit :=
  match pos with
  | None => (m, Err (ErrChannelCPNil vChannel))
  | Some p =>
      match MsgID p with
      | None => (m, Err (ErrChannelCPNil vChannel))
      | Some _ =>
          let advance :=
            match channelCPs m !! vChannel with
            | None => true
            | Some oldPosition => Timestamp_ oldPosition <? Timestamp_ p
            end in
          if advance then
            match catalog_call (CatalogSaveChannelCheckpoint vChannel p)
                    (catalog_SaveChannelCheckpoint vChannel p) m with
            | (m1, Some err) => (m1, Err err)
            | (m1, None) =>
                let m2 := set_channelCPs (<[vChannel := p]> (channelCPs m1)) m1 in
                let reg := metrics m2 in
                (set_metrics
                   {| DataCoordNumSegments := DataCoordNumSegments reg;
                      DataCoordNumStoredRowsCounter := DataCoordNumStoredRowsCounter reg;
                      DataCoordCheckpointUnixSeconds :=
                        <[vChannel := ParseTS_Unix (Timestamp_ p)]> (DataCoordCheckpointUnixSeconds reg) |}
                   m2, Ok tt)
            end
          else (m, Ok tt)
      end
  end.

Definition GetChannelCheckpoint (vChannel : string) (m : Meta) : option MsgPosition :=
  channelCPs m !! vChannel.

(** *** Notions used to state the properties *)

(** What an operation leaves of the in-memory state: the segment map and
    the metric registry. *)
Definition memory_unchanged (m m' : Meta) : Prop :=
  segments m' = segments m ∧ metrics m' = metrics m.

(** The position would advance the checkpoint of the channel: there is none
    yet, or its timestamp is strictly smaller. *)
Definition newer (vChannel : string) (p : MsgPosition) (m : Meta) : Prop :=
  match channelCPs m !! vChannel with
  | None => True
  | Some oldPosition => Timestamp_ oldPosition < Timestamp_ p
  end.

#[global] Instance newer_dec vChannel p m : Decision (newer vChannel p m).
Proof. unfold newer. destruct (channelCPs m !! vChannel); apply _. Defined.

(** Order on what [GetChannelCheckpoint] returns: a checkpoint, once there,
    stays and its timestamp does not decrease. *)
Definition cp_le (a b : option MsgPosition) : Prop :=
  match a, b with
  | None, _ => True
  | Some p, Some q => Timestamp_ p <= Timestamp_ q
  | Some _, None => False
  end.

(** A sequence of checkpoint updates, whatever each returns. *)
Definition UpdateChannelCheckpoints (calls : list (string * option MsgPosition)) (m : Meta) : Meta :=
  fold_left (fun m call => (UpdateChannelCheckpoint call.1 call.2 m).1) calls m.

(** Every operator of the list, run in turn on the pack its predecessors
    left, returns true; the last argument is the pack after the last one. *)
Fixpoint all_return_true (operators : list UpdateOperator)
    (updatePack updatePack' : updateSegmentPack) : Prop :=
  match operators with
  | [] => updatePack' = updatePack
  | operator :: rest =>
      ∃ next, operator updatePack = Some (next, true) ∧ all_return_true rest next updatePack'
  end.

(** The checkpoint rule in the words of the specification: a checkpoint is
    stale when the segment has a checkpoint whose timestamp is at least the
    reported one. *)
Definition isStaleCheckPoint (segment : SegmentInfo) (cp : CheckPoint) : bool :=
  match DmlPosition (pb segment), cp_Position cp with
  | Some dml, Some pos => bool_decide (Timestamp_ pos <= Timestamp_ dml)
  | _, _ => false
  end.

Definition checkpoint_rule (segmentID : UniqueID) (segment : SegmentInfo) (cp : CheckPoint)
    : SegmentInfo :=
  if bool_decide (cp_SegmentID cp = segmentID) then
    if isStaleCheckPoint segment cp then segment
    else with_pb (fun s => set_DmlPosition (cp_Position cp) (set_NumOfRows (cp_NumOfRows cp) s))
           segment
  else segment.

(** The operator reads the timestamp of a checkpoint's position only when
    the checkpoint is for the segment and the segment, at that point of the
    loop, has a checkpoint of its own; there the position must not be nil. *)
Fixpoint positions_readable (segmentID : UniqueID) (checkpoints : list CheckPoint)
    (segment : SegmentInfo) : Prop :=
  match checkpoints with
  | [] => True
  | cp :: rest =>
      (cp_SegmentID cp = segmentID → DmlPosition (pb segment) ≠ None → cp_Position cp ≠ None)
      ∧ positions_readable segmentID rest (checkpoint_rule segmentID segment cp)
  end.

(** The final cross-check in the words of the specification. *)
Definition rowcount_rule (segment : SegmentInfo) : SegmentInfo :=
  let count := CalcRowCountFromBinLog (pb segment) in
  if bool_decide (0 < count ∧ count ≠ currRows segment)
  then with_pb (set_NumOfRows count) segment
  else segment.

(** The sources of a plan as the segment map holds them, when all are
    present. *)
Fixpoint planSources (segmentBinlogs : list CompactionSegmentBinlogs) (s : gmap Z SegmentInfo)
    : option (list SegmentInfo) :=
  match segmentBinlogs with
  | [] => Some []
  | sb :: rest =>
      match s !! csb_SegmentID sb, planSources rest s with
      | Some segment, Some srcs => Some (segment :: srcs)
      | _, _ => None
      end
  end.

(** A source after the completer has stamped it and marked it Dropped. *)
Definition markDropped (droppedAt : Z) (segment : SegmentInfo) : SegmentInfo :=
  with_pb (set_State Dropped)
    (with_pb (set_Compacted true) (with_pb (set_DroppedAt droppedAt) segment)).

Fixpoint markAllDropped (now : nat → Z) (i : nat) (srcs : list SegmentInfo) : list SegmentInfo :=
  match srcs with
  | [] => []
  | segment :: rest => markDropped (now i) segment :: markAllDropped now (S i) rest
  end.

(** The metric mutation that moves the sources to Dropped. *)
Definition dropMutation (srcs : list SegmentInfo) (metricMutation : segMetricMutation)
    : segMetricMutation :=
  fold_left (fun mm segment =>
               segMetricMutation_append (State (pb segment)) Dropped (Level (pb segment))
                 (NumOfRows (pb segment)) mm)
    srcs metricMutation.

(** Every delta log of every source, with its source, in the order of the
    sources; the late ones are those whose log id is not in the plan. *)
Definition allDeltalogs (srcs : list SegmentInfo) : list (SegmentInfo * Binlog) :=
  flat_map (fun seg => (fun l => (seg, l)) <$> flat_map fb_Binlogs (Deltalogs (pb seg))) srcs.

Definition lateDeltalogs (logIDsInPlan : gset Z) (srcs : list SegmentInfo)
    : list (SegmentInfo * Binlog) :=
  filter (fun sl => LogID sl.2 ∉ logIDsInPlan) (allDeltalogs srcs).

(** The copy of one delta log: the blob is read under the source's key and
    written under the target's key. *)
Definition copyEvents (toSegment : UniqueID) (c : SegmentInfo * Binlog * list byte) : list Event :=
  [ChunkRead (fromKey c.1.1 c.1.2); ChunkWrite (toKey c.1.1 toSegment c.1.2) c.2].

(** A call to the blob store about a delta log that is not in the plan. *)
Definition lateChunkEvent (logIDsInPlan : gset Z) (e : Event) : Prop :=
  match e with
  | ChunkRead key | ChunkWrite key _ => path_logID key ∉ logIDsInPlan
  | _ => False
  end.

(** [r] is a position of least timestamp among those present in the list,
    and nil only when none is present. *)
Definition is_min_position (positions : list (option MsgPosition)) (r : option MsgPosition)
    : Prop :=
  match r with
  | None => ∀ p, Some p ∉ positions
  | Some p => Some p ∈ positions ∧ ∀ q, Some q ∈ positions → Timestamp_ p <= Timestamp_ q
  end.

(** The record of the compaction target as the completer builds it from the
    plan, the reported segment, the late delta logs and the sources. *)
Definition compactToInfo (plan : CompactionPlan) (compactToSegment : CompactionSegment)
    (late : list Binlog) (srcs latest : list SegmentInfo) (first : SegmentInfo) : SegmentInfo :=
  let info :=
    NewSegmentInfo
      (compactToRecord plan compactToSegment (attachDeltalogs compactToSegment late)
         ((fun segment => ID (pb segment)) <$> srcs) first latest) in
  if 0 <? cs_NumOfRows compactToSegment then info else with_pb (set_State Dropped) info.

Definition compactToMutation (compactToSegment : CompactionSegment) (srcs : list SegmentInfo)
    : segMetricMutation :=
  if 0 <? cs_NumOfRows compactToSegment
  then addNewSeg Flushed L1 (cs_NumOfRows compactToSegment) (dropMutation srcs new_segMetricMutation)
  else dropMutation srcs new_segMetricMutation.

End Engine.

(** ** Reference collaborators *)

(** An in-memory catalog in the manner of the memory KV of the test suite;
    with [kv_failing] set every write fails, like the mocked KV of the
    failure tests. *)
Record MemCatalog := {
  kv_segments : gmap Z datapb_SegmentInfo;
  kv_checkpoints : gmap string MsgPosition;
  kv_failing : bool;
}.

Definition mem_write (f : MemCatalog → MemCatalog) (k : MemCatalog) : MemCatalog * option error :=
  if kv_failing k then (k, Some (ErrExternal "mocked fail")) else (f k, None).

#[global] Instance MemCatalog_catalog : DataCoordCatalog MemCatalog := {|
  catalog_AddSegment segment :=
    mem_write (fun k => {| kv_segments := <[ID segment := segment]> (kv_segments k);
                           kv_checkpoints := kv_checkpoints k; kv_failing := kv_failing k |});
  catalog_AlterSegments segs _ :=
    mem_write (fun k => {| kv_segments :=
                             fold_left (fun acc segment => <[ID segment := segment]> acc) segs
                               (kv_segments k);
                           kv_checkpoints := kv_checkpoints k; kv_failing := kv_failing k |});
  catalog_DropSegment segment :=
    mem_write (fun k => {| kv_segments := delete (ID segment) (kv_segments k);
                           kv_checkpoints := kv_checkpoints k; kv_failing := kv_failing k |});
  catalog_SaveChannelCheckpoint vChannel pos :=
    mem_write (fun k => {| kv_segments := kv_segments k;
                           kv_checkpoints := <[vChannel := pos]> (kv_checkpoints k);
                           kv_failing := kv_failing k |});
|}.

#[global] Instance DeltaLogPath_eq_dec : EqDecision DeltaLogPath.
Proof. solve_decision. Defined.

(** A blob store that answers every read with the blob written last under
    the key, or with the empty blob, like the mocked chunk manager of the
    compaction test. *)
Record MemChunkManager := {
  cm_blobs : list (DeltaLogPath * list byte);
}.

Fixpoint cm_find (key : DeltaLogPath) (blobs : list (DeltaLogPath * list byte)) : list byte :=
  match blobs with
  | [] => []
  | (k, blob) :: rest => if bool_decide (k = key) then blob else cm_find key rest
  end.

#[global] Instance MemChunkManager_chunks : ChunkManager MemChunkManager := {|
  RootPath := "mockroot";
  chunk_Read key b := (b, inr (cm_find key (cm_blobs b)));
  chunk_Write key blob b := ({| cm_blobs := (key, blob) :: cm_blobs b |}, None);
|}.

(** A blob store whose reads all fail. *)
Record BrokenChunkManager := { broken : unit }.

#[global] Instance BrokenChunkManager_chunks : ChunkManager BrokenChunkManager := {|
  RootPath := "mockroot";
  chunk_Read key b := (b, inl (ErrExternal "read failed"));
  chunk_Write key blob b := (b, Some (ErrExternal "write failed"));
|}.

Definition emptyMetrics : Metrics :=
  {| DataCoordNumSegments := ∅; DataCoordNumStoredRowsCounter := 0;
     DataCoordCheckpointUnixSeconds := ∅ |}.

(** [newMemoryMeta]: an empty engine over the in-memory collaborators. *)
Definition newMemoryMeta (failing : bool) (s : gmap Z SegmentInfo) : meta MemCatalog MemChunkManager :=
  {| catalog := {| kv_segments := ∅; kv_checkpoints := ∅; kv_failing := failing |};
     chunkManager := {| cm_blobs := [] |};
     segments := s; channelCPs := ∅; metrics := emptyMetrics; trace := [] |}.

(** A segment record with the given id, state and row count and defaults
    elsewhere. *)
Definition mkSegment (id : UniqueID) (state : SegmentState) (rows : Z) (deltalogs : list FieldBinlog)
    : SegmentInfo :=
  NewSegmentInfo
    {| ID := id; CollectionID := 100; PartitionID := 10; InsertChannel := "ch";
       NumOfRows := rows; State := state; MaxRowNum := 0; LastExpireTime := 0;
       StartPosition := None; DmlPosition := None; Binlogs := []; Statslogs := [];
       Deltalogs := deltalogs; CreatedByCompaction := false; CompactionFrom := [];
       DroppedAt := 0; IsImporting := false; IsFake := false; Compacted := false;
       Level := L1; StorageVersion := 0 |}.

(** [getFieldBinlogIDs] of the test suite: one field binlog holding the
    given log ids. *)
Definition getFieldBinlogIDs (fieldID : Z) (logIDs : list Z) : FieldBinlog :=
  {| FieldID := fieldID;
     fb_Binlogs := (fun id => {| EntriesNum := 0; TimestampFrom := 0; TimestampTo := 0;
                                 LogPath := ""; LogSize := 0; LogID := id |}) <$> logIDs |}.

(** ** Inputs of the scenarios *)

(** The compaction scenario of the test suite: two flushed sources with two
    delta logs each, of which the plan captured the first. *)
Definition seg1 : SegmentInfo :=
  mkSegment 1 Flushed 2 [getFieldBinlogIDs 0 [30000]; getFieldBinlogIDs 0 [30001]].
Definition seg2 : SegmentInfo :=
  mkSegment 2 Flushed 2 [getFieldBinlogIDs 0 [31000]; getFieldBinlogIDs 0 [31001]].

Definition compactionMeta (failing : bool) : meta MemCatalog MemChunkManager :=
  newMemoryMeta failing (<[1 := seg1]> (<[2 := seg2]> ∅)).

Definition planSegment (id : UniqueID) (deltalogs : list FieldBinlog) : CompactionSegmentBinlogs :=
  {| csb_SegmentID := id; csb_FieldBinlogs := []; csb_Field2StatslogPaths := [];
     csb_Deltalogs := deltalogs; csb_InsertChannel := "ch"; csb_Level := L1;
     csb_CollectionID := 100; csb_PartitionID := 10 |}.

Definition compactionPlan : CompactionPlan :=
  {| PlanID := 1;
     SegmentBinlogs := [planSegment 1 [getFieldBinlogIDs 0 [30000]];
                        planSegment 2 [getFieldBinlogIDs 0 [31000]]];
     StartTime := 42; TimeoutInSeconds := 0; Type_ := MixCompaction; Timetravel := 0;
     Channel := "ch"; CollectionTtl := 0; TotalRows := 0 |}.

Definition compactionResult (rows : Z) : CompactionPlanResult :=
  {| r_PlanID := 1; r_State := 0;
     Segments := [{| cs_PlanID := 1; cs_SegmentID := 3; cs_NumOfRows := rows;
                     InsertLogs := [getFieldBinlogIDs 0 [50000]];
                     Field2StatslogPaths := [getFieldBinlogIDs 0 [50001]];
                     cs_Deltalogs := []; cs_Channel := "ch" |}];
     r_Channel := "ch"; r_Type := MixCompaction |}.

(** The same scenario over a blob store whose reads fail. *)
Definition brokenMeta : meta MemCatalog BrokenChunkManager :=
  {| catalog := {| kv_segments := ∅; kv_checkpoints := ∅; kv_failing := false |};
     chunkManager := {| broken := tt |};
     segments := <[1 := seg1]> (<[2 := seg2]> ∅); channelCPs := ∅;
     metrics := emptyMetrics; trace := [] |}.

(** The clock of the scenarios. *)
Definition clock (i : nat) : Z := 1000 + Z.of_nat i.

(** A row counter for the scenarios: the entries of the logs of the first
    field. *)
Definition countEntries (info : datapb_SegmentInfo) : Z :=
  match Binlogs info with
  | [] => 0
  | fb :: _ => foldr (fun l acc => EntriesNum l + acc) 0 (fb_Binlogs fb)
  end.

(** The physical part of a hybrid timestamp, in seconds. *)
Definition physicalSeconds (ts : Timestamp) : Z := Z.shiftr ts 18 / 1000.

Definition position (ts : Timestamp) : MsgPosition :=
  {| ChannelName := "ch"; MsgID := Some [x00; x00; x00; x00; x00; x00; x00; x00];
     Timestamp_ := ts |}.

Definition positionWithoutMsgID (ts : Timestamp) : MsgPosition :=
  {| ChannelName := "ch"; MsgID := None; Timestamp_ := ts |}.

(** A dropped segment that still carries the importing flag, in memory and
    in the catalog. *)
Definition droppedImporting : SegmentInfo :=
  with_pb (set_IsImporting true) (mkSegment 7 Dropped 0 []).

Definition importingMeta : meta MemCatalog MemChunkManager :=
  {| catalog := {| kv_segments := <[7 := pb droppedImporting]> ∅; kv_checkpoints := ∅;
                   kv_failing := false |};
     chunkManager := {| cm_blobs := [] |};
     segments := <[7 := droppedImporting]> ∅; channelCPs := ∅;
     metrics := emptyMetrics; trace := [] |}.

(** A growing segment with a checkpoint at timestamp 50. *)
Definition growing : SegmentInfo :=
  with_pb (set_DmlPosition (Some (position 50))) (mkSegment 1 Growing 0 []).

Definition flushMeta (failing : bool) : meta MemCatalog MemChunkManager :=
  newMemoryMeta failing (<[1 := growing]> ∅).

Definition checkpoint (id : UniqueID) (ts : Timestamp) (rows : Z) : CheckPoint :=
  {| cp_SegmentID := id; cp_Position := Some (position ts); cp_NumOfRows := rows |}.

(** The compaction scenario run to its end, and what it returns. *)
Definition compactionRun (rows : Z) (failing : bool)
    : meta MemCatalog MemChunkManager * result (list SegmentInfo * segMetricMutation) :=
  CompleteCompactionMutation compactionPlan (compactionResult rows) clock (compactionMeta failing).

Definition returned {A} (d : A) (r : result A) : A :=
  match r with Ok v => v | _ => d end.

Definition compactionReturned (rows : Z) : list SegmentInfo * segMetricMutation :=
  returned ([], new_segMetricMutation) (compactionRun rows false).2.

(** ** Queries and the remaining operations of the engine *)

(** [getFieldBinlogs] (util.go): the first field binlog with the id. *)
Fixpoint getFieldBinlogs (id : UniqueID) (binlogs : list FieldBinlog) : option FieldBinlog :=
  match binlogs with
  | [] => None
  | binlog :: rest =>
      if bool_decide (id = FieldID binlog) then Some binlog else getFieldBinlogs id rest
  end.

(** The sum that [UpdateCompactionSegmentSizeMetrics] observes. *)
Definition compactionTotalSize (segs : list CompactionSegment) : Z :=
  fold_left (fun totalSize seg => add64 totalSize (getCompactedSegmentSize (Some seg))) segs 0.

(** The integer that [calculateL0SegmentSize] converts to a float. *)
Definition calculateL0SegmentSize (fields : list FieldBinlog) : Z :=
  fold_left (fun size field =>
               fold_left (fun size binlog => add64 size (LogSize binlog)) (fb_Binlogs field) size)
    fields 0.

Definition set_LastExpireTime (v : Timestamp) (s : datapb_SegmentInfo) : datapb_SegmentInfo :=
  {| ID := ID s; CollectionID := CollectionID s; PartitionID := PartitionID s;
     InsertChannel := InsertChannel s; NumOfRows := NumOfRows s; State := State s;
     MaxRowNum := MaxRowNum s; LastExpireTime := v;
     StartPosition := StartPosition s; DmlPosition := DmlPosition s;
     Binlogs := Binlogs s; Statslogs := Statslogs s; Deltalogs := Deltalogs s;
     CreatedByCompaction := CreatedByCompaction s;
     CompactionFrom := CompactionFrom s; DroppedAt := DroppedAt s;
     IsImporting := IsImporting s; IsFake := IsFake s; Compacted := Compacted s;
     Level := Level s; StorageVersion := StorageVersion s |}.

(** Modelled from the spec: [SegmentsInfo.GetSegments] of segment_info.go
    returns "a snapshot slice" of the records of the store.  A Go map is
    ranged over in an unspecified order, for which the order of
    [map_to_list] stands. *)
Definition GetSegments (s : SegmentsInfo) : list SegmentInfo := (map_to_list s).*2.

Definition SegmentInfoSelector := SegmentInfo → bool.

(** The label of a compaction group; the type is declared with the
    compaction trigger, outside the sources, and is used here by its three
    fields. *)
Record CompactionGroupLabel := {
  label_CollectionID : UniqueID;
  label_PartitionID : UniqueID;
  label_Channel : string;
}.

Definition MaxUint64 : Z := 2 ^ 64 - 1.

(** The generated getter, which reads zero on a nil position. *)
Definition GetTimestamp (pos : option MsgPosition) : Timestamp :=
  match pos with
  | Some p => Timestamp_ p
  | None => 0
  end.

(** The segments of one partition and channel, as [GetSegmentsChanPart]
    returns them; the type is declared with the compaction trigger. *)
Record chanPartSegments := {
  cps_collectionID : UniqueID;
  cps_partitionID : UniqueID;
  cps_channelName : string;
  cps_segments : list SegmentInfo;
}.

(** [fmt.Sprintf("%d-%s", partitionID, channel)] *)
Definition dimKey (partitionID : UniqueID) (channel : string) : string :=
  pretty partitionID +:+ "-" +:+ channel.

Section Queries.
Context {K B : Type}.

Abbreviation Meta := (meta K B).

Definition SelectSegments (selector : SegmentInfoSelector) (m : Meta) : list SegmentInfo :=
  filter (fun info => selector info) (GetSegments (segments m)).

Definition GetSegmentsByChannel (channel : string) (m : Meta) : list SegmentInfo :=
  SelectSegments (fun segment =>
                    isSegmentHealthy (Some segment)
                    && bool_decide (InsertChannel (pb segment) = channel)) m.






Definition GetNumRowsOfCollection (collectionID : UniqueID) (m : Meta) : Z :=
  fold_left (fun ret segment =>
               if isSegmentHealthy (Some segment)
                  && bool_decide (CollectionID (pb segment) = collectionID)
               then add64 ret (NumOfRows (pb segment)) else ret)
    (GetSegments (segments m)) 0.

Definition GetNumRowsOfPartition (collectionID partitionID : UniqueID) (m : Meta) : Z :=
  fold_left (fun ret segment =>
               if isSegmentHealthy (Some segment)
                  && bool_decide (CollectionID (pb segment) = collectionID)
                  && bool_decide (PartitionID (pb segment) = partitionID)
               then add64 ret (NumOfRows (pb segment)) else ret)
    (GetSegments (segments m)) 0.

Definition GetUnFlushedSegments (m : Meta) : list SegmentInfo :=
  SelectSegments (fun segment =>
                    bool_decide (State (pb segment) = Growing)
                    || bool_decide (State (pb segment) = Sealed)) m.

Definition GetFlushingSegments (m : Meta) : list SegmentInfo :=
  SelectSegments (fun segment => bool_decide (State (pb segment) = Flushing)) m.

(** [HasSegments] returns [(true, nil)] or [false] with the error that names
    the first id that is missing. *)
Fixpoint HasSegments (segIDs : list UniqueID) (m : Meta) : bool * option error :=
  match segIDs with
  | [] => (true, None)
  | segID :: rest =>
      match segments m !! segID with
      | None => (false, Some (ErrSegmentNotExist segID))
      | Some _ => HasSegments rest m
      end
  end.

Definition GetCompactionTo (segmentID : UniqueID) (m : Meta) : option SegmentInfo :=
  List.find (fun segment => bool_decide (segmentID ∈ CompactionFrom (pb segment)))
    (GetSegments (segments m)).

Definition GetEarliestStartPositionOfGrowingSegments (label : CompactionGroupLabel) (m : Meta)
    : option MsgPosition :=
  let segments :=
    SelectSegments (fun segment =>
                      bool_decide (State (pb segment) = Growing)
                      && bool_decide (CollectionID (pb segment) = label_CollectionID label)
                      && bool_decide (PartitionID (pb segment) = label_PartitionID label)
                      && bool_decide (InsertChannel (pb segment) = label_Channel label)) m in
  fold_left (fun earliest seg =>
               match earliest with
               | None => StartPosition (pb seg)
               | Some e =>
                   if Timestamp_ e >? GetTimestamp (StartPosition (pb seg))
                   then StartPosition (pb seg)
                   else earliest
               end)
    segments (Some {| ChannelName := ""; MsgID := None; Timestamp_ := MaxUint64 |}).

(** [GetSegmentsChanPart]: the entries are kept under the formatted
    partition-channel key and returned in the order of the map. *)
Definition GetSegmentsChanPart (selector : SegmentInfoSelector) (m : Meta)
    : list chanPartSegments :=
  let mDimEntry :=
    fold_left (fun (mDimEntry : gmap string chanPartSegments) segmentInfo =>
                 if negb (selector segmentInfo) then mDimEntry
                 else
                   let cloned := Clone segmentInfo in
                   let dim := dimKey (PartitionID (pb cloned)) (InsertChannel (pb cloned)) in
                   let entry :=
                     match mDimEntry !! dim with
                     | Some entry => entry
                     | None =>
                         {| cps_collectionID := CollectionID (pb cloned);
                            cps_partitionID := PartitionID (pb cloned);
                            cps_channelName := InsertChannel (pb cloned);
                            cps_segments := [] |}
                     end in
                   <[dim := {| cps_collectionID := cps_collectionID entry;
                               cps_partitionID := cps_partitionID entry;
                               cps_channelName := cps_channelName entry;
                               cps_segments := cps_segments entry ++ [cloned] |}]> mDimEntry)
      (GetSegments (segments m)) ∅ in
  (map_to_list mDimEntry).*2.

(** [SetLastExpire] clones what the lookup returns without a nil check;
    [None] is the nil dereference on an id that is not in the map. *)
Definition SetLastExpire (segmentID : UniqueID) (lastExpire : Timestamp) (m : Meta)
    : option Meta :=
  match GetSegment (segments m) segmentID with
  | None => None
  | Some segment =>
      let clonedSegment := with_pb (set_LastExpireTime lastExpire) (Clone segment) in
      Some (set_segments (SetSegment segmentID clonedSegment (segments m)) m)
  end.

End Queries.

(** ** Dropping a channel *)

(** The methods of [metastore.DataCoordCatalog] that the channel operations
    call.  These calls are not entered in the trace, which follows the
    segment writes and the blob store; what they do shows in the state of
    the catalog. *)
Class DataCoordChannelCatalog (K : Type) := {
  catalog_SaveDroppedSegmentsInBatch : list datapb_SegmentInfo → K → K * option error;
  catalog_MarkChannelDeleted : string → K → K * option error;
  catalog_DropChannelCheckpoint : string → K → K * option error;
}.

Section ChannelDrop.
Context {K B : Type} `{!DataCoordChannelCatalog K}.

Abbreviation Meta := (meta K B).

Definition channel_call (f : K → K * option error) (m : Meta) : Meta * option error :=
  let '(k, r) := f (catalog m) in
  ({| catalog := k; chunkManager := chunkManager m; segments := segments m;
      channelCPs := channelCPs m; metrics := metrics m; trace := trace m |}, r).

(** [mergeDropSegment]; the two loops over the insert logs and the stats
    logs are [mergeFieldBinlogs] written out in the source, the delta logs
    are appended as they come. *)
Definition mergeDropSegment (seg2Drop : SegmentInfo) (m : Meta)
    : option SegmentInfo * segMetricMutation :=
  let metricMutation := new_segMetricMutation in
  match GetSegment (segments m) (ID (pb seg2Drop)) with
  | None => (None, metricMutation)
  | Some segment =>
      (* healthy check makes sure the idempotence *)
      if negb (isSegmentHealthy (Some segment)) then (None, metricMutation)
      else
        let '(clonedSegment, metricMutation) :=
          updateSegStateAndPrepareMetrics (Clone segment) Dropped metricMutation in
        let currBinlogs :=
          mergeFieldBinlogs (Binlogs (pb clonedSegment)) (Binlogs (pb seg2Drop)) in
        let currStatsLogs :=
          mergeFieldBinlogs (Statslogs (pb clonedSegment)) (Statslogs (pb seg2Drop)) in
        let deltalogs := Deltalogs (pb clonedSegment) ++ Deltalogs (pb seg2Drop) in
        let info := set_logs currBinlogs currStatsLogs deltalogs (pb clonedSegment) in
        let info :=
          match StartPosition (pb seg2Drop) with
          | Some _ => set_StartPosition (StartPosition (pb seg2Drop)) info
          | None => info
          end in
        let info :=
          match DmlPosition (pb seg2Drop) with
          | Some _ => set_DmlPosition (DmlPosition (pb seg2Drop)) info
          | None => info
          end in
        (Some {| pb := set_NumOfRows (currRows seg2Drop) info;
                 currRows := currRows seg2Drop;
                 isCompacting := isCompacting clonedSegment |},
         metricMutation)
  end.

(** The first loop of [UpdateDropChannelSegmentInfo]: each turn assigns both
    results of [mergeDropSegment], so the mutation of the turn replaces the
    one held so far. *)
Definition mergeDropSegments (segs : list SegmentInfo) (m : Meta)
    (modSegments : gmap Z SegmentInfo) (metricMutation : segMetricMutation)
    : gmap Z SegmentInfo * segMetricMutation :=
  fold_left (fun '(modSegments, _) seg2Drop =>
               let '(segment, metricMutation) := mergeDropSegment seg2Drop m in
               match segment with
               | Some segment => (<[ID (pb seg2Drop) := segment]> modSegments, metricMutation)
               | None => (modSegments, metricMutation)
               end)
    segs (modSegments, metricMutation).

(** The second loop: the segments of the channel that the first loop left
    out are set to Dropped. *)
Definition dropChannelSegments (channel : string) (stored : list SegmentInfo)
    (modSegments : gmap Z SegmentInfo) (metricMutation : segMetricMutation)
    : gmap Z SegmentInfo * segMetricMutation :=
  fold_left (fun '(modSegments, metricMutation) seg =>
               if bool_decide (InsertChannel (pb seg) ≠ channel)
               then (modSegments, metricMutation)
               else
                 match modSegments !! ID (pb seg) with
                 | Some _ => (modSegments, metricMutation)
                 | None =>
                     let '(clonedSeg, metricMutation) :=
                       updateSegStateAndPrepareMetrics (Clone seg) Dropped metricMutation in
                     (<[ID (pb seg) := clonedSeg]> modSegments, metricMutation)
                 end)
    stored (modSegments, metricMutation).

Definition batchSaveDropSegments (channel : string) (modSegments : gmap Z SegmentInfo) (m : Meta)
    : Meta * option error :=
  let segs := (fun kv => pb kv.2) <$> map_to_list modSegments in
  match channel_call (catalog_SaveDroppedSegmentsInBatch segs) m with
  | (m1, Some err) => (m1, Some err)
  | (m1, None) =>
      match channel_call (catalog_MarkChannelDeleted channel) m1 with
      | (m2, Some err) => (m2, Some err)
      | (m2, None) =>
          (* update memory info *)
          (set_segments (installSegments modSegments (segments m2)) m2, None)
      end
  end.

Definition UpdateDropChannelSegmentInfo (channel : string) (segs : list SegmentInfo) (m : Meta)
    : Meta * result unit :=
  let '(modSegments, metricMutation) :=
    mergeDropSegments segs m ∅ new_segMetricMutation in
  let '(modSegments, metricMutation) :=
    dropChannelSegments channel (map_to_list (segments m)).*2 modSegments metricMutation in
  match batchSaveDropSegments channel modSegments m with
  | (m1, Some err) => (m1, Err err)
  | (m1, None) => (set_metrics (commit metricMutation (metrics m1)) m1, Ok tt)
  end.

Definition DropChannelCheckpoint (vChannel : string) (m : Meta) : Meta * result unit :=
  match channel_call (catalog_DropChannelCheckpoint vChannel) m with
  | (m1, Some err) => (m1, Err err)
  | (m1, None) => (set_channelCPs (delete vChannel (channelCPs m1)) m1, Ok tt)
  end.

End ChannelDrop.

(** ** The collection cache *)

Record KeyDataPair := {
  kd_Key : string;
  kd_Data : list byte;
}.

Section Collections.

(** [schemapb.CollectionSchema] is declared outside the sources; the cache
    only stores and copies it. *)
Variable CollectionSchema : Type.

Record collectionInfo := {
  coll_ID : UniqueID;
  coll_Schema : CollectionSchema;
  coll_Partitions : list Z;
  coll_StartPositions : list KeyDataPair;
  coll_Properties : gmap string string;
  coll_CreatedAt : Timestamp;
}.

(** The [collections] map of the engine with the gauge
    [DataCoordNumCollections] that [AddCollection] sets. *)
Record collectionCache := {
  collections : gmap Z collectionInfo;
  DataCoordNumCollections : Z;
}.

Definition AddCollection (collection : collectionInfo) (c : collectionCache) : collectionCache :=
  let collections := <[coll_ID collection := collection]> (collections c) in
  {| collections := collections;
     DataCoordNumCollections := Z.of_nat (size collections) |}.

Definition GetCollection (collectionID : UniqueID) (c : collectionCache) : option collectionInfo :=
  collections c !! collectionID.

(** The composite literal of the clone names five of the six fields;
    [CreatedAt] is left at its zero value. *)
Definition GetClonedCollectionInfo (collectionID : UniqueID) (c : collectionCache)
    : option collectionInfo :=
  match collections c !! collectionID with
  | None => None
  | Some coll =>
      Some {| coll_ID := coll_ID coll;
              coll_Schema := coll_Schema coll;
              coll_Partitions := coll_Partitions coll;
              coll_StartPositions := coll_StartPositions coll;
              coll_Properties := coll_Properties coll;
              coll_CreatedAt := 0 |}
  end.

(** A sequence of [AddCollection] calls. *)
Definition AddCollections (added : list collectionInfo) (c : collectionCache) : collectionCache :=
  fold_left (fun c collection => AddCollection collection c) added c.

End Collections.

Arguments coll_ID {CollectionSchema} c.
Arguments coll_Schema {CollectionSchema} c.
Arguments coll_Partitions {CollectionSchema} c.
Arguments coll_StartPositions {CollectionSchema} c.
Arguments coll_Properties {CollectionSchema} c.
Arguments coll_CreatedAt {CollectionSchema} c.
Arguments collections {CollectionSchema} c.
Arguments DataCoordNumCollections {CollectionSchema} c.
Arguments AddCollection {CollectionSchema} collection c.
Arguments GetCollection {CollectionSchema} collectionID c.
Arguments GetClonedCollectionInfo {CollectionSchema} collectionID c.
Arguments AddCollections {CollectionSchema} added c.

(** ** Indexed segments (util.go) *)

Section IndexFilter.

(** The handler's schema lookup and the index state of a segment on a field
    are outside the sources.  [GetCollection] answers with the fields of the
    collection's schema or with an error; [indexFinished] says whether
    [GetSegmentIndexStateOnField] reports the state Finished. *)
Variable DataType : Type.
Variable IsVectorType : DataType → bool.
Variable handler_GetCollection : UniqueID → error + list (UniqueID * DataType).
Variable indexFinished : UniqueID → UniqueID → UniqueID → bool.

(** The second loop of [FilterInIndexedSegments]: the ids of the vector
    fields of every collection whose schema could be read. *)
Definition vecFieldIDsOf (collectionSegments : gmap Z (list Z)) : gmap Z (list Z) :=
  map_fold (fun collection _ (vecFieldIDs : gmap Z (list Z)) =>
              match handler_GetCollection collection with
              | inl _ => vecFieldIDs
              | inr fields =>
                  fold_left (fun (vecFieldIDs : gmap Z (list Z)) field =>
                               if IsVectorType field.2
                               then <[collection :=
                                        default [] (vecFieldIDs !! collection) ++ [field.1]]>
                                      vecFieldIDs
                               else vecFieldIDs)
                    fields vecFieldIDs
              end)
    ∅ collectionSegments.

Definition FilterInIndexedSegments (segs : list SegmentInfo) : list SegmentInfo :=
  match segs with
  | [] => []
  | _ :: _ =>
      let collectionSegments :=
        fold_left (fun (collectionSegments : gmap Z (list Z)) segment =>
                     let collectionID := CollectionID (pb segment) in
                     <[collectionID :=
                         default [] (collectionSegments !! collectionID) ++ [ID (pb segment)]]>
                       collectionSegments)
          segs ∅ in
      let vecFieldIDs := vecFieldIDsOf collectionSegments in
      fold_left (fun indexedSegments segment =>
                   if negb (isFlushState (State (pb segment)))
                      && bool_decide (State (pb segment) ≠ Dropped)
                   then indexedSegments
                   else
                     let hasUnindexedVecField :=
                       fold_left (fun hasUnindexedVecField fieldID =>
                                    if negb (indexFinished (CollectionID (pb segment))
                                               (ID (pb segment)) fieldID)
                                    then true else hasUnindexedVecField)
                         (default [] (vecFieldIDs !! CollectionID (pb segment))) false in
                     if negb hasUnindexedVecField then indexedSegments ++ [segment]
                     else indexedSegments)
        segs []
  end.

(** The vector fields of a collection as the filter sees them: those of the
    schema, or none when the schema could not be read. *)
Definition vecFieldsOf (collection : UniqueID) : list UniqueID :=
  match handler_GetCollection collection with
  | inl _ => []
  | inr fields => omap (fun field => if IsVectorType field.2 then Some field.1 else None) fields
  end.

(** A segment that is flushing, flushed or dropped and has a finished index
    on every vector field the filter sees for its collection. *)
Definition isIndexedSegment (segment : SegmentInfo) : bool :=
  (isFlushState (State (pb segment)) || bool_decide (State (pb segment) = Dropped))
  && forallb (indexFinished (CollectionID (pb segment)) (ID (pb segment)))
       (vecFieldsOf (CollectionID (pb segment))).

End IndexFilter.

(** ** Notions used to state the further properties *)

(** The segment map is keyed by the ids of its records. *)
Definition keyed_by_id (s : gmap Z SegmentInfo) : Prop :=
  ∀ id segment, s !! id = Some segment → ID (pb segment) = id.

(** The pack of a transaction on [m]: it refers to [m] and its own records
    are keyed by id. *)
Definition pack_of {K B : Type} (m : meta K B) (p : updateSegmentPack (K:=K) (B:=B)) : Prop :=
  p_meta p = m ∧ keyed_by_id (p_segments p).

(** One turn of the loop of [mergeFieldBinlogs]. *)
Definition mergeFieldBinlog (current : list FieldBinlog) (newBinlog : FieldBinlog)
    : list FieldBinlog :=
  match appendToField (FieldID newBinlog) (fb_Binlogs newBinlog) current with
  | None => current ++ [newBinlog]
  | Some merged => merged
  end.

(** A string without a dash, as the decimal digits of a number are. *)
Fixpoint dashless (s : string) : Prop :=
  match s with
  | EmptyString => True
  | String a rest => String a EmptyString ≠ "-" ∧ dashless rest
  end.

(** The selected segments of a list that go under a partition-channel key. *)
Definition selectedOn (selector : SegmentInfoSelector) (key : string) (l : list SegmentInfo)
    : list SegmentInfo :=
  filter (fun segment =>
            selector segment = true ∧
            dimKey (PartitionID (pb segment)) (InsertChannel (pb segment)) = key) l.

(** One turn of the loop of [GetSegmentsChanPart]. *)
Definition addToDimEntry (selector : SegmentInfoSelector)
    (mDimEntry : gmap string chanPartSegments) (segmentInfo : SegmentInfo)
    : gmap string chanPartSegments :=
  if negb (selector segmentInfo) then mDimEntry
  else
    let cloned := Clone segmentInfo in
    let dim := dimKey (PartitionID (pb cloned)) (InsertChannel (pb cloned)) in
    let entry :=
      match mDimEntry !! dim with
      | Some entry => entry
      | None =>
          {| cps_collectionID := CollectionID (pb cloned);
             cps_partitionID := PartitionID (pb cloned);
             cps_channelName := InsertChannel (pb cloned);
             cps_segments := [] |}
      end in
    <[dim := {| cps_collectionID := cps_collectionID entry;
                cps_partitionID := cps_partitionID entry;
                cps_channelName := cps_channelName entry;
                cps_segments := cps_segments entry ++ [cloned] |}]> mDimEntry.

(** Every log of the field binlogs with the given field id, in order. *)
Definition fieldLogs (id : Z) (binlogs : list FieldBinlog) : list Binlog :=
  flat_map fb_Binlogs (filter (fun binlog => FieldID binlog = id) binlogs).

(** What [UpdateDropChannelSegmentInfo] prepares before it calls the
    catalog: the records to save and the metric mutation to commit. *)
Definition dropChannelPlan {K B : Type} (channel : string) (segs : list SegmentInfo)
    (m : meta K B) : gmap Z SegmentInfo * segMetricMutation :=
  let '(modSegments, metricMutation) := mergeDropSegments segs m ∅ new_segMetricMutation in
  dropChannelSegments channel (map_to_list (segments m)).*2 modSegments metricMutation.


(** The reading of the (state, level) gauge; a label that was never set
    reads as zero. *)
Definition gaugeValue (reg : Metrics) (state level : string) : Z :=
  default 0 (DataCoordNumSegments reg !! (state, level)).

Section Operators.
Context {K B : Type} `{!DataCoordCatalog K} `{!ChunkManager B}.
Variable CalcRowCountFromBinLog : datapb_SegmentInfo → Z.

(** The operators that meta.go provides for [UpdateSegmentsInfo]. *)
Inductive provided_operator : UpdateOperator (K:=K) (B:=B) → Prop :=
| provided_CreateL0 collectionID partitionID segmentID channel :
    provided_operator (CreateL0Operator collectionID partitionID segmentID channel)
| provided_StorageVersion segmentID version :
    provided_operator (UpdateStorageVersionOperator segmentID version)
| provided_Status segmentID status now :
    provided_operator (UpdateStatusOperator segmentID status now)
| provided_Compacted segmentID :
    provided_operator (UpdateCompactedOperator segmentID)
| provided_Binlogs segmentID binlogs statslogs deltalogs :
    provided_operator (UpdateBinlogsOperator segmentID binlogs statslogs deltalogs)
| provided_StartPosition startPositions :
    provided_operator (UpdateStartPosition startPositions)
| provided_CheckPoint segmentID importing checkpoints :
    provided_operator
      (UpdateCheckPointOperator CalcRowCountFromBinLog segmentID importing checkpoints).

End Operators.

(** ** A reference catalog for the channel operations *)

(** The in-memory catalog with the removal flags of the channels; with
    [kv_mark_failing] set, marking a channel fails. *)
Record MemChannelCatalog := {
  kv_base : MemCatalog;
  kv_removed : gset string;
  kv_mark_failing : bool;
}.

Definition base_write (f : MemCatalog → MemCatalog * option error) (k : MemChannelCatalog)
    : MemChannelCatalog * option error :=
  let '(base, r) := f (kv_base k) in
  ({| kv_base := base; kv_removed := kv_removed k; kv_mark_failing := kv_mark_failing k |}, r).

#[global] Instance MemChannelCatalog_catalog : DataCoordCatalog MemChannelCatalog := {|
  catalog_AddSegment segment := base_write (catalog_AddSegment segment);
  catalog_AlterSegments segs incs := base_write (catalog_AlterSegments segs incs);
  catalog_DropSegment segment := base_write (catalog_DropSegment segment);
  catalog_SaveChannelCheckpoint vChannel pos :=
    base_write (catalog_SaveChannelCheckpoint vChannel pos);
|}.

#[global] Instance MemChannelCatalog_channels : DataCoordChannelCatalog MemChannelCatalog := {|
  catalog_SaveDroppedSegmentsInBatch segs := base_write (catalog_AlterSegments segs []);
  catalog_MarkChannelDeleted channel k :=
    if kv_mark_failing k then (k, Some (ErrExternal "mocked fail"))
    else ({| kv_base := kv_base k; kv_removed := {[channel]} ∪ kv_removed k;
             kv_mark_failing := kv_mark_failing k |}, None);
  catalog_DropChannelCheckpoint vChannel :=
    base_write (mem_write (fun k => {| kv_segments := kv_segments k;
                                       kv_checkpoints := delete vChannel (kv_checkpoints k);
                                       kv_failing := kv_failing k |}));
|}.

(** An engine over the channel catalog. *)
Definition newChannelMeta (failing markFailing : bool) (s : gmap Z SegmentInfo)
    : meta MemChannelCatalog MemChunkManager :=
  {| catalog := {| kv_base := {| kv_segments := ∅; kv_checkpoints := ∅; kv_failing := failing |};
                   kv_removed := ∅; kv_mark_failing := markFailing |};
     chunkManager := {| cm_blobs := [] |};
     segments := s; channelCPs := ∅; metrics := emptyMetrics; trace := [] |}.

(** ** Inputs of the further scenarios *)

(** A segment record on the given channel. *)
Definition mkSegmentOn (id : UniqueID) (channel : string) (state : SegmentState) (rows : Z)
    : SegmentInfo :=
  NewSegmentInfo
    {| ID := id; CollectionID := 100; PartitionID := 10; InsertChannel := channel;
       NumOfRows := rows; State := state; MaxRowNum := 0; LastExpireTime := 0;
       StartPosition := None; DmlPosition := None;
       Binlogs := [getFieldBinlogIDs 1 [11]]; Statslogs := []; Deltalogs := [];
       CreatedByCompaction := false; CompactionFrom := [];
       DroppedAt := 0; IsImporting := false; IsFake := false; Compacted := false;
       Level := L1; StorageVersion := 0 |}.

(** Two healthy segments on the channel "ch" and one on another channel. *)
Definition channelSegments : gmap Z SegmentInfo :=
  <[1 := mkSegmentOn 1 "ch" Growing 5]>
    (<[2 := mkSegmentOn 2 "ch" Flushed 8]> (<[3 := mkSegmentOn 3 "other" Flushed 9]> ∅)).

Definition channelMeta : meta MemChannelCatalog MemChunkManager :=
  newChannelMeta false false channelSegments.

(** What a data node has buffered for a segment when its channel is
    dropped: the id, the new logs, the checkpoint and the current rows. *)
Definition buffered (id : UniqueID) (rows : Z) (binlogs : list FieldBinlog)
    (checkpoint : option MsgPosition) : SegmentInfo :=
  {| pb := {| ID := id; CollectionID := 100; PartitionID := 10; InsertChannel := "ch";
              NumOfRows := 0; State := Growing; MaxRowNum := 0; LastExpireTime := 0;
              StartPosition := None; DmlPosition := checkpoint;
              Binlogs := binlogs; Statslogs := []; Deltalogs := [getFieldBinlogIDs 0 [77]];
              CreatedByCompaction := false; CompactionFrom := [];
              DroppedAt := 0; IsImporting := false; IsFake := false; Compacted := false;
              Level := L1; StorageVersion := 0 |};
     currRows := rows; isCompacting := false |}.

Definition dropBuffer : list SegmentInfo :=
  [buffered 1 7 [getFieldBinlogIDs 1 [12]; getFieldBinlogIDs 2 [21]] (Some (position 90));
   buffered 2 8 [] None].

(** Growing segments with start positions, and a flushed one without. *)
Definition growingAt (id : UniqueID) (ts : Timestamp) : SegmentInfo :=
  with_pb (set_StartPosition (Some (position ts))) (mkSegment id Growing 0 []).

Definition growingMeta : meta MemCatalog MemChunkManager :=
  newMemoryMeta false
    (<[1 := growingAt 1 70]> (<[2 := growingAt 2 30]> (<[3 := mkSegment 3 Flushed 4 []]> ∅))).

Definition groupLabel : CompactionGroupLabel :=
  {| label_CollectionID := 100; label_PartitionID := 10; label_Channel := "ch" |}.

(** Segment operators for [UpdateSegment]: one that sets the row count and
    reports the change, one that marks the clone compacted. *)
Definition setRows (rows : Z) : SegmentOperator :=
  fun cloned => (with_pb (set_NumOfRows rows) cloned, true).

Definition markCompacted : SegmentOperator :=
  fun cloned => (with_pb (set_Compacted true) cloned, true).

(** * Properties *)

(** ** 64-bit arithmetic *)

Lemma wrap64_range z : int64_range (wrap64 z).
Proof.
  unfold int64_range, wrap64.
  pose proof (Z.mod_pos_bound (z + 2 ^ 63) (2 ^ 64) ltac:(lia)). lia.
Qed.

Lemma wrap64_id z : int64_range z → wrap64 z = z.
Proof.
  unfold int64_range, wrap64. intros Hz.
  rewrite Z.mod_small by lia. lia.
Qed.

Lemma wrap64_add_l a b : wrap64 (wrap64 a + b) = wrap64 (a + b).
Proof.
  unfold wrap64. f_equal.
  replace ((a + 2 ^ 63) mod 2 ^ 64 - 2 ^ 63 + b + 2 ^ 63)
    with ((a + 2 ^ 63) mod 2 ^ 64 + b) by lia.
  rewrite Zplus_mod_idemp_l. f_equal. lia.
Qed.

(** ** Labels *)

Lemma SegmentState_String_inj a b :
  SegmentState_String a = SegmentState_String b → a = b.
Proof. destruct a, b; simpl; intros H; first [reflexivity | discriminate H]. Qed.

Lemma SegmentLevel_String_inj a b :
  SegmentLevel_String a = SegmentLevel_String b → a = b.
Proof. destruct a, b; simpl; intros H; first [reflexivity | discriminate H]. Qed.

(** ** The metric-mutation buffer *)

Lemma submap_insert lv sub (sc : gmap string (gmap string Z)) :
  submap lv (<[lv := sub]> sc) = sub.
Proof. unfold submap. by rewrite lookup_insert_eq. Qed.

Lemma submap_insert_ne lv lv' sub (sc : gmap string (gmap string Z)) :
  lv ≠ lv' → submap lv' (<[lv := sub]> sc) = submap lv' sc.
Proof. intros Hne. unfold submap. by rewrite lookup_insert_ne. Qed.

Lemma bump_lookup k d (m : gmap string Z) :
  default 0 (bump k d m !! k) = add64 (default 0 (m !! k)) d.
Proof. unfold bump. by rewrite lookup_insert_eq. Qed.

Lemma bump_lookup_ne k k' d (m : gmap string Z) :
  k ≠ k' → bump k d m !! k' = m !! k'.
Proof. intros Hne. unfold bump. by rewrite lookup_insert_ne. Qed.

Lemma isFlushState_true state :
  isFlushState state = true ↔ state = Flushing ∨ state = Flushed.
Proof. destruct state; cbv; intuition congruence. Qed.

Lemma append_stateChange oldState newState level rowDelta s :
  stateChange (segMetricMutation_append oldState newState level rowDelta s) =
  if bool_decide (oldState ≠ newState) then
    <[SegmentLevel_String level :=
        bump (SegmentState_String newState) 1
          (bump (SegmentState_String oldState) (-1)
             (submap (SegmentLevel_String level) (stateChange s)))]> (stateChange s)
  else stateChange s.
Proof.
  unfold segMetricMutation_append.
  destruct (isFlushState newState && negb (isFlushState oldState)); [done|].
  by destruct (bool_decide (newState = Dropped) && bool_decide (oldState ≠ newState)).
Qed.

(** C7: what [segMetricMutation.append] does to the per-(level,state)
    counters and to the two row counters.  When the state changes, the
    (level, oldState) counter goes down by one, the (level, newState) counter
    goes up by one and no other counter moves; when it does not change, no
    counter moves.  A new flush (newState Flushing or Flushed, oldState
    neither) adds rowDelta to the row-count delta and to the cumulative
    row-count delta; a new drop (newState Dropped, oldState not Dropped)
    subtracts rowDelta from the row-count delta only; in every other case both
    row counters are unchanged. *)
Theorem append_counters oldState newState level rowDelta s :
  let s' := segMetricMutation_append oldState newState level rowDelta s in
  (oldState ≠ newState →
     stateCount s' level oldState = sub64 (stateCount s level oldState) 1 ∧
     stateCount s' level newState = add64 (stateCount s level newState) 1 ∧
     ∀ lv st, (lv, st) ≠ (level, oldState) → (lv, st) ≠ (level, newState) →
              stateCount s' lv st = stateCount s lv st) ∧
  (oldState = newState → stateChange s' = stateChange s) ∧
  ((newState = Flushing ∨ newState = Flushed) ∧ oldState ≠ Flushing ∧ oldState ≠ Flushed →
     rowCountChange s' = add64 (rowCountChange s) rowDelta ∧
     rowCountAccChange s' = add64 (rowCountAccChange s) rowDelta) ∧
  (newState = Dropped ∧ oldState ≠ Dropped →
     rowCountChange s' = sub64 (rowCountChange s) rowDelta ∧
     rowCountAccChange s' = rowCountAccChange s) ∧
  (¬ ((newState = Flushing ∨ newState = Flushed) ∧ oldState ≠ Flushing ∧ oldState ≠ Flushed) →
   ¬ (newState = Dropped ∧ oldState ≠ Dropped) →
     rowCountChange s' = rowCountChange s ∧
     rowCountAccChange s' = rowCountAccChange s).
Proof.
  intros s'.
  assert (Hflush : ∀ st, isFlushState st = false ↔ st ≠ Flushing ∧ st ≠ Flushed).
  { intros st. destruct st; cbv; intuition congruence. }
  split; [|split; [|split; [|split]]].
  - intros Hne. unfold stateCount, s'. rewrite append_stateChange.
    rewrite bool_decide_eq_true_2 by done.
    split; [|split].
    + rewrite submap_insert.
      rewrite bump_lookup_ne
        by (intros Heq; apply SegmentState_String_inj in Heq; congruence).
      by rewrite bump_lookup.
    + rewrite submap_insert, bump_lookup. f_equal.
      rewrite bump_lookup_ne; [done|].
      intros Heq; apply SegmentState_String_inj in Heq; congruence.
    + intros lv st Hold Hnew.
      destruct (decide (lv = level)) as [->|Hlv].
      * rewrite submap_insert.
        rewrite !bump_lookup_ne; [done| |];
          intros Heq; apply SegmentState_String_inj in Heq; congruence.
      * rewrite submap_insert_ne; [done|].
        intros Heq; apply SegmentLevel_String_inj in Heq; congruence.
  - intros Heq. unfold s'. rewrite append_stateChange.
    by rewrite bool_decide_eq_false_2 by (intros Hne; congruence).
  - intros (Hnew & Ho1 & Ho2). unfold s', segMetricMutation_append.
    assert (isFlushState newState = true) as -> by (by apply isFlushState_true).
    assert (isFlushState oldState = false) as -> by (by apply Hflush).
    done.
  - intros (-> & Hold). unfold s', segMetricMutation_append. simpl.
    rewrite (bool_decide_eq_true_2 (oldState ≠ Dropped)) by done. done.
  - intros Hnf Hnd. unfold s', segMetricMutation_append.
    destruct (isFlushState newState && negb (isFlushState oldState)) eqn:Hf.
    { exfalso. apply Hnf. apply andb_prop in Hf as [Hn Ho].
      apply isFlushState_true in Hn. apply negb_true_iff, Hflush in Ho. done. }
    destruct (bool_decide (newState = Dropped) && bool_decide (oldState ≠ newState)) eqn:Hdrop;
      [|done].
    exfalso. apply Hnd. apply andb_prop in Hdrop as [Hn Ho].
    apply bool_decide_eq_true_1 in Hn. apply bool_decide_eq_true_1 in Ho.
    split; congruence.
Qed.

(** ** Compacted-segment size *)

Lemma addLogSizes_range acc logs : int64_range acc → int64_range (addLogSizes acc logs).
Proof.
  unfold addLogSizes. revert acc.
  induction logs as [|fb logs IH]; intros acc Hacc; simpl; [done|].
  apply IH. clear IH. revert acc Hacc.
  induction (fb_Binlogs fb) as [|l ls IHl]; intros acc Hacc; simpl; [done|].
  apply IHl, wrap64_range.
Qed.

Lemma addLogSizes_total acc logs :
  wrap64 (addLogSizes acc logs) = wrap64 (acc + totalLogSize logs).
Proof.
  unfold addLogSizes, totalLogSize. revert acc.
  induction logs as [|fb logs IH]; intros acc; simpl.
  { f_equal. lia. }
  rewrite IH. clear IH.
  set (rest := foldr _ 0 logs). clearbody rest. revert acc.
  induction (fb_Binlogs fb) as [|l ls IHl]; intros acc; simpl.
  { f_equal. }
  rewrite IHl. unfold add64. rewrite wrap64_add_l. f_equal. lia.
Qed.

Lemma addLogSizes_exact acc logs :
  int64_range acc → addLogSizes acc logs = wrap64 (acc + totalLogSize logs).
Proof.
  intros Hacc. rewrite <- addLogSizes_total.
  symmetry. by apply wrap64_id, addLogSizes_range.
Qed.

(** C9: for a non-nil compaction segment, [getCompactedSegmentSize] is the
    (64-bit) sum of the insert-log sizes plus twice the sum of the delta-log
    sizes: the loop meant for the statistics logs ranges over the delta logs
    a second time, and the statistics logs have no influence on the result. *)
Theorem getCompactedSegmentSize_counts_deltas_twice (s : CompactionSegment) :
  getCompactedSegmentSize (Some s) =
    wrap64 (totalLogSize (InsertLogs s) + 2 * totalLogSize (cs_Deltalogs s))
  ∧ ∀ statslogs,
      getCompactedSegmentSize
        (Some {| cs_PlanID := cs_PlanID s; cs_SegmentID := cs_SegmentID s;
                 cs_NumOfRows := cs_NumOfRows s; InsertLogs := InsertLogs s;
                 Field2StatslogPaths := statslogs; cs_Deltalogs := cs_Deltalogs s;
                 cs_Channel := cs_Channel s |})
      = getCompactedSegmentSize (Some s).
Proof.
  split; [|done].
  unfold getCompactedSegmentSize.
  assert (H0 : int64_range 0) by (unfold int64_range; lia).
  rewrite (addLogSizes_exact 0) by done.
  rewrite (addLogSizes_exact (wrap64 _)) by apply wrap64_range.
  rewrite (addLogSizes_exact (wrap64 _)) by apply wrap64_range.
  rewrite wrap64_add_l, <- Z.add_assoc, wrap64_add_l. f_equal. lia.
Qed.

(** ** External calls *)

Section EngineFacts.
Context {K B : Type} `{!DataCoordCatalog K} `{!ChunkManager B}.

Implicit Types m : meta K B.

Lemma catalog_call_inv e f m m1 r :
  catalog_call e f m = (m1, r) →
  f (catalog m) = (catalog m1, r) ∧ chunkManager m1 = chunkManager m ∧
  segments m1 = segments m ∧ channelCPs m1 = channelCPs m ∧
  metrics m1 = metrics m ∧ trace m1 = trace m ++ [e].
Proof.
  unfold catalog_call. destruct (f (catalog m)) as [k r'].
  intros [= <- <-]. simpl. done.
Qed.

Lemma chunk_call_inv {A} e (f : B → B * A) m m1 r :
  chunk_call e f m = (m1, r) →
  f (chunkManager m) = (chunkManager m1, r) ∧ catalog m1 = catalog m ∧
  segments m1 = segments m ∧ channelCPs m1 = channelCPs m ∧
  metrics m1 = metrics m ∧ trace m1 = trace m ++ [e].
Proof.
  unfold chunk_call. destruct (f (chunkManager m)) as [b r'].
  intros [= <- <-]. simpl. done.
Qed.

Lemma isSegmentHealthy_false s :
  isSegmentHealthy (Some s) = false ↔
  State (pb s) = Dropped ∨ State (pb s) = SegmentStateNone ∨ State (pb s) = NotExist.
Proof. unfold isSegmentHealthy. destruct (State (pb s)); cbv; intuition congruence. Qed.

(** ** Idempotent drops *)

Lemma DropSegment_missing segmentID m :
  segments m !! segmentID = None → DropSegment segmentID m = (m, Ok tt).
Proof. intros Hm. unfold DropSegment, GetSegment. by rewrite Hm. Qed.

Lemma SetState_missing segmentID targetState m :
  segments m !! segmentID = None →
  SetState segmentID targetState m =
    (m, if bool_decide (targetState = Dropped) then Ok tt
        else Err (ErrSegmentNotExist segmentID)).
Proof.
  intros Hm. unfold SetState, GetSegment. rewrite Hm.
  by destruct (bool_decide (targetState = Dropped)).
Qed.

Lemma DropSegment_ok_removes segmentID m m1 :
  DropSegment segmentID m = (m1, Ok tt) → segments m1 !! segmentID = None.
Proof.
  unfold DropSegment, GetSegment.
  destruct (segments m !! segmentID) as [segment|] eqn:Hs.
  - destruct (catalog_call _ _ m) as [m' [err|]] eqn:Hc; intros [= <-].
    simpl. unfold DropSegment_store. apply lookup_delete_eq.
  - by intros [= <-].
Qed.

Lemma SetState_Dropped_ok_unhealthy segmentID m m1 :
  SetState segmentID Dropped m = (m1, Ok tt) →
  match segments m1 !! segmentID with
  | Some s => isSegmentHealthy (Some s) = false
  | None => True
  end.
Proof.
  unfold SetState, GetSegment.
  destruct (segments m !! segmentID) as [cur|] eqn:Hs.
  - unfold Clone. destruct (isSegmentHealthy (Some cur)) eqn:Hh.
    + simpl. destruct (catalog_call _ _ m) as [m' [err|]] eqn:Hc; intros [= <-].
      apply catalog_call_inv in Hc as (_ & _ & Hseg & _).
      simpl. unfold SetState_store. rewrite Hseg, Hs.
      by rewrite lookup_insert_eq.
    + intros [= <-]. by rewrite Hs.
  - simpl. intros [= <-]. by rewrite Hs.
Qed.

Lemma SetState_unhealthy segmentID targetState m s :
  segments m !! segmentID = Some s → isSegmentHealthy (Some s) = false →
  SetState segmentID targetState m = (m, Ok tt).
Proof.
  intros Hs Hh. unfold SetState, GetSegment, Clone. by rewrite Hs, Hh.
Qed.

(** C5 (as amended): [DropSegment] of an id that is not in the segment map
    returns success and changes nothing; so does [SetState] to Dropped, while
    [SetState] to any other target on a missing id returns an error and
    changes nothing.  Hence once [DropSegment x], or [SetState x Dropped],
    has returned success, invoking it again returns success without any
    further change (no catalog call is made).  The first invocation itself
    is not promised to succeed: it returns the catalog's error when its
    write fails. *)
Theorem drop_is_idempotent segmentID m :
  (segments m !! segmentID = None → DropSegment segmentID m = (m, Ok tt)) ∧
  (segments m !! segmentID = None → SetState segmentID Dropped m = (m, Ok tt)) ∧
  (∀ targetState, segments m !! segmentID = None → targetState ≠ Dropped →
     SetState segmentID targetState m = (m, Err (ErrSegmentNotExist segmentID))) ∧
  (∀ m1, DropSegment segmentID m = (m1, Ok tt) → DropSegment segmentID m1 = (m1, Ok tt)) ∧
  (∀ m1, SetState segmentID Dropped m = (m1, Ok tt) →
         SetState segmentID Dropped m1 = (m1, Ok tt)).
Proof.
  split; [apply DropSegment_missing|].
  split; [intros Hm; by rewrite SetState_missing|].
  split.
  { intros targetState Hm Hne. rewrite SetState_missing by done.
    by rewrite bool_decide_eq_false_2. }
  split.
  - intros m1 Hfirst. apply DropSegment_missing. by eapply DropSegment_ok_removes.
  - intros m1 Hfirst. apply SetState_Dropped_ok_unhealthy in Hfirst.
    destruct (segments m1 !! segmentID) as [s|] eqn:Hs.
    + by eapply SetState_unhealthy.
    + by rewrite SetState_missing.
Qed.

(** ** UnsetIsImporting *)

(** C10: for a segment that is in the segment map but not healthy (state
    Dropped, None or NotExist), [UnsetIsImporting] makes no catalog call (the
    trace and the catalog are as before), clears the in-memory flag and
    returns success. *)
Theorem UnsetIsImporting_unhealthy_skips_catalog segmentID m s :
  segments m !! segmentID = Some s →
  State (pb s) = Dropped ∨ State (pb s) = SegmentStateNone ∨ State (pb s) = NotExist →
  ∃ m', UnsetIsImporting segmentID m = (m', Ok tt) ∧
        trace m' = trace m ∧ catalog m' = catalog m ∧
        segments m' = <[segmentID := with_pb (set_IsImporting false) s]> (segments m) ∧
        IsImporting ∘ pb <$> segments m' !! segmentID = Some false.
Proof.
  intros Hs Hstate.
  assert (Hh : isSegmentHealthy (Some (with_pb (set_IsImporting false) (Clone s))) = false).
  { apply isSegmentHealthy_false. done. }
  unfold UnsetIsImporting, GetSegment. rewrite Hs, Hh.
  eexists. split; [done|]. simpl.
  unfold SetIsImporting_store. rewrite Hs.
  repeat split. by rewrite lookup_insert_eq.
Qed.

End EngineFacts.

(** Case analysis on the answer of the catalog call an operation makes on
    [m]: [r] is the answer and the hypotheses say what the call left. *)
Ltac catalog_cases m r Hf Hseg Hcp Hmet Htr :=
  let m1 := fresh "m1" in
  let Hc := fresh "Hc" in
  destruct (catalog_call _ _ m) as [m1 r] eqn:Hc;
  apply catalog_call_inv in Hc as (Hf & _ & Hseg & Hcp & Hmet & Htr).

(** ** Channel checkpoints *)

Section CheckpointFacts.
Context {K B : Type} `{!DataCoordCatalog K} `{!ChunkManager B}.
Variable ParseTS_Unix : Timestamp → Z.

Implicit Types m : meta K B.

Lemma UpdateChannelCheckpoint_nil_msgid vChannel p m :
  MsgID p = None →
  UpdateChannelCheckpoint ParseTS_Unix vChannel (Some p) m = (m, Err (ErrChannelCPNil vChannel)).
Proof. intros Hid. unfold UpdateChannelCheckpoint. by rewrite Hid. Qed.

Lemma UpdateChannelCheckpoint_stale vChannel p m :
  MsgID p ≠ None → ¬ newer vChannel p m →
  UpdateChannelCheckpoint ParseTS_Unix vChannel (Some p) m = (m, Ok tt).
Proof.
  intros Hid Hstale. unfold UpdateChannelCheckpoint, newer in *.
  destruct (MsgID p); [|done].
  destruct (channelCPs m !! vChannel) as [old|]; [|done].
  destruct (Z.ltb_spec (Timestamp_ old) (Timestamp_ p)); [done|done].
Qed.

Lemma UpdateChannelCheckpoint_newer vChannel p m :
  MsgID p ≠ None → newer vChannel p m →
  ∃ m' r, UpdateChannelCheckpoint ParseTS_Unix vChannel (Some p) m = (m', r) ∧
    trace m' = trace m ++ [CatalogSaveChannelCheckpoint vChannel p] ∧
    match catalog_SaveChannelCheckpoint vChannel p (catalog m) with
    | (k, None) =>
        r = Ok tt ∧ catalog m' = k ∧ channelCPs m' = <[vChannel := p]> (channelCPs m)
    | (k, Some err) =>
        r = Err err ∧ catalog m' = k ∧ channelCPs m' = channelCPs m
    end.
Proof.
  intros Hid Hnew. unfold UpdateChannelCheckpoint, newer in *.
  destruct (MsgID p); [|done].
  assert (match channelCPs m !! vChannel with
          | Some oldPosition => Timestamp_ oldPosition <? Timestamp_ p
          | None => true
          end = true) as ->.
  { destruct (channelCPs m !! vChannel); [|done]. by apply Z.ltb_lt. }
  catalog_cases m r1 Hf Hseg Hcp Hmet Htr.
  rewrite Hf. destruct r1 as [err|]; eexists _, _; (split; [done|]); simpl.
  - done.
  - by rewrite Hcp.
Qed.

Lemma UpdateChannelCheckpoint_monotone vChannel pos c m :
  cp_le (GetChannelCheckpoint c m)
        (GetChannelCheckpoint c (UpdateChannelCheckpoint ParseTS_Unix vChannel pos m).1).
Proof.
  assert (Hrefl : ∀ o, cp_le o o) by (intros [q|]; simpl; lia).
  unfold GetChannelCheckpoint.
  destruct pos as [p|]; [|apply Hrefl].
  destruct (MsgID p) eqn:Hid.
  2:{ rewrite UpdateChannelCheckpoint_nil_msgid by done. apply Hrefl. }
  destruct (decide (newer vChannel p m)) as [Hnew|Hstale].
  2:{ rewrite UpdateChannelCheckpoint_stale by (done || congruence). apply Hrefl. }
  destruct (UpdateChannelCheckpoint_newer vChannel p m) as (m' & r & -> & _ & Hcat);
    [congruence|done|]. simpl.
  destruct (catalog_SaveChannelCheckpoint vChannel p (catalog m)) as [k [err|]].
  - destruct Hcat as (_ & _ & ->). apply Hrefl.
  - destruct Hcat as (_ & _ & ->).
    destruct (decide (vChannel = c)) as [->|Hne].
    + rewrite lookup_insert_eq. unfold newer in Hnew.
      destruct (channelCPs m !! c); simpl; [lia|done].
    + rewrite lookup_insert_ne by done. apply Hrefl.
Qed.

(** C4 (as amended): a position whose message id is nil is refused with an
    error and nothing changes.  For a position with a message id, the save to
    the catalog is issued exactly when the channel has no checkpoint or the
    position's timestamp is strictly greater than the current one; the
    position is installed when that save succeeds, and when it fails its
    error is returned and the checkpoint map is as before.  A stale position
    returns success with no call and no change at all.  Over any sequence of
    updates the timestamp read by [GetChannelCheckpoint] never decreases. *)
Theorem UpdateChannelCheckpoint_advances vChannel p m :
  (MsgID p = None →
     UpdateChannelCheckpoint ParseTS_Unix vChannel (Some p) m = (m, Err (ErrChannelCPNil vChannel))) ∧
  (MsgID p ≠ None → newer vChannel p m →
     ∃ m' r, UpdateChannelCheckpoint ParseTS_Unix vChannel (Some p) m = (m', r) ∧
       trace m' = trace m ++ [CatalogSaveChannelCheckpoint vChannel p] ∧
       match catalog_SaveChannelCheckpoint vChannel p (catalog m) with
       | (k, None) =>
           r = Ok tt ∧ catalog m' = k ∧ channelCPs m' = <[vChannel := p]> (channelCPs m)
       | (k, Some err) =>
           r = Err err ∧ catalog m' = k ∧ channelCPs m' = channelCPs m
       end) ∧
  (MsgID p ≠ None → ¬ newer vChannel p m →
     UpdateChannelCheckpoint ParseTS_Unix vChannel (Some p) m = (m, Ok tt)) ∧
  (∀ calls c,
     cp_le (GetChannelCheckpoint c m)
           (GetChannelCheckpoint c (UpdateChannelCheckpoints ParseTS_Unix calls m))).
Proof.
  split; [apply UpdateChannelCheckpoint_nil_msgid|].
  split; [apply UpdateChannelCheckpoint_newer|].
  split; [apply UpdateChannelCheckpoint_stale|].
  intros calls c. unfold UpdateChannelCheckpoints.
  assert (Htrans : ∀ a b d, cp_le a b → cp_le b d → cp_le a d).
  { intros [a|] [b|] [d|]; simpl; (lia || done). }
  assert (Hrefl : ∀ o, cp_le o o) by (intros [q|]; simpl; lia).
  revert m. induction calls as [|[ch pos] calls IH]; intros m; simpl; [apply Hrefl|].
  eapply Htrans; [|apply IH]. apply UpdateChannelCheckpoint_monotone.
Qed.

End CheckpointFacts.

(** ** The operator pipeline *)

Section PipelineFacts.
Context {K B : Type} `{!DataCoordCatalog K} `{!ChunkManager B}.

Implicit Types m : meta K B.
Implicit Types updatePack : updateSegmentPack (K:=K) (B:=B).

Lemma installSegments_lookup (updated s : gmap Z SegmentInfo) id :
  installSegments updated s !! id =
    match updated !! id with Some segment => Some segment | None => s !! id end.
Proof.
  unfold installSegments.
  apply (map_fold_weak_ind
           (fun r (u : gmap Z SegmentInfo) =>
              r !! id = match u !! id with Some segment => Some segment | None => s !! id end)).
  - by rewrite lookup_empty.
  - intros i x u r Hi IH. unfold SetSegment.
    destruct (decide (i = id)) as [->|Hne].
    + by rewrite !lookup_insert_eq.
    + by rewrite !lookup_insert_ne.
Qed.

Lemma runOperators_app (pre post : list UpdateOperator) updatePack :
  runOperators (pre ++ post) updatePack =
    match runOperators pre updatePack with
    | Proceed updatePack' => runOperators post updatePack'
    | Skipped => Skipped
    | Panicked => Panicked
    end.
Proof.
  revert updatePack. induction pre as [|op pre IH]; intros updatePack; simpl; [done|].
  destruct (op updatePack) as [[p [|]]|]; [apply IH|done|done].
Qed.

(** An operator that returns false ends the loop, whatever follows it. *)
Lemma runOperators_skip (pre : list UpdateOperator) (op : UpdateOperator) post
    updatePack updatePack1 updatePack2 :
  runOperators pre updatePack = Proceed updatePack1 →
  op updatePack1 = Some (updatePack2, false) →
  runOperators (pre ++ op :: post) updatePack = Skipped.
Proof.
  intros Hpre Hop. rewrite runOperators_app, Hpre. simpl. by rewrite Hop.
Qed.

(** [runOperators] proceeds exactly when every operator, run in turn on the
    pack its predecessors left, returns true. *)
Lemma runOperators_proceed (operators : list UpdateOperator) updatePack updatePack' :
  runOperators operators updatePack = Proceed updatePack' ↔
  all_return_true operators updatePack updatePack'.
Proof.
  revert updatePack. induction operators as [|op ops IH]; intros updatePack; simpl.
  - split; [by intros [= ->]|by intros ->].
  - destruct (op updatePack) as [[p [|]]|] eqn:Hop.
    + rewrite IH. split.
      * intros Hrest. exists p. done.
      * intros (p' & [= <-] & Hrest). done.
    + split; [done|]. intros (p' & [=] & _).
    + split; [done|]. intros (p' & [=] & _).
Qed.

Lemma UpdateSegmentsInfo_proceed (operators : list UpdateOperator) m updatePack :
  runOperators operators (newPack m) = Proceed updatePack →
  ∃ m' r, UpdateSegmentsInfo operators m = (m', r) ∧
    trace m' = trace m ++
      [CatalogAlterSegments (packSegments updatePack) (packIncrements updatePack)] ∧
    match catalog_AlterSegments (packSegments updatePack) (packIncrements updatePack)
            (catalog m) with
    | (k, None) =>
        r = Ok tt ∧ catalog m' = k ∧
        (∀ id, segments m' !! id =
               match p_segments updatePack !! id with
               | Some segment => Some segment
               | None => segments m !! id
               end) ∧
        metrics m' = commit (p_metricMutation updatePack) (metrics m)
    | (k, Some err) =>
        r = Err err ∧ catalog m' = k ∧ memory_unchanged m m'
    end.
Proof.
  intros Hrun. unfold UpdateSegmentsInfo. rewrite Hrun.
  catalog_cases m r1 Hf Hseg Hcp Hmet Htr.
  rewrite Hf. destruct r1 as [err|]; eexists _, _; (split; [done|]); simpl.
  - done.
  - split; [done|]. split; [done|]. split; [done|]. split; [|by rewrite Hmet].
    intros id. by rewrite installSegments_lookup, Hseg.
Qed.

(** C6: when an operator of the sequence returns false, [UpdateSegmentsInfo]
    returns nil at once and the whole state is as before: no catalog call, no
    metric commit, no installation, and the operators after it play no part.
    When every operator returns true, the segments of the pack are written in
    one [AlterSegments] call, the only external call made; if it succeeds
    every segment of the pack is installed (the other segments are as
    before) and the metric mutation is committed, and if it fails its error
    is returned and the segment map and the metrics are as before. *)
Theorem UpdateSegmentsInfo_all_or_nothing (operators : list UpdateOperator) m :
  (∀ pre op post updatePack1 updatePack2,
     operators = pre ++ op :: post →
     all_return_true pre (newPack m) updatePack1 →
     op updatePack1 = Some (updatePack2, false) →
     UpdateSegmentsInfo operators m = (m, Ok tt) ∧
     UpdateSegmentsInfo (pre ++ [op]) m = (m, Ok tt)) ∧
  (∀ updatePack,
     all_return_true operators (newPack m) updatePack →
     ∃ m' r, UpdateSegmentsInfo operators m = (m', r) ∧
       trace m' = trace m ++
         [CatalogAlterSegments (packSegments updatePack) (packIncrements updatePack)] ∧
       (∀ segment, segment ∈ packSegments updatePack ↔
                   ∃ id s, p_segments updatePack !! id = Some s ∧ segment = pb s) ∧
       match catalog_AlterSegments (packSegments updatePack) (packIncrements updatePack)
               (catalog m) with
       | (k, None) =>
           r = Ok tt ∧ catalog m' = k ∧
           (∀ id, segments m' !! id =
                  match p_segments updatePack !! id with
                  | Some segment => Some segment
                  | None => segments m !! id
                  end) ∧
           metrics m' = commit (p_metricMutation updatePack) (metrics m)
       | (k, Some err) =>
           r = Err err ∧ catalog m' = k ∧ memory_unchanged m m'
       end).
Proof.
  split.
  - intros pre op post p1 p2 -> Hpre Hop.
    apply runOperators_proceed in Hpre.
    pose proof (runOperators_skip pre op post _ _ _ Hpre Hop) as Hskip.
    pose proof (runOperators_skip pre op [] _ _ _ Hpre Hop) as Hskip'.
    unfold UpdateSegmentsInfo. by rewrite Hskip, Hskip'.
  - intros updatePack Hall. apply runOperators_proceed in Hall.
    destruct (UpdateSegmentsInfo_proceed _ _ _ Hall) as (m' & r & Hrun & Htr & Hcat).
    exists m', r. split; [done|]. split; [done|]. split; [|done].
    intros segment. unfold packSegments. rewrite list_elem_of_fmap. split.
    + intros ([id s] & -> & Hin). apply elem_of_map_to_list in Hin. eauto.
    + intros (id & s & Hs & ->). exists (id, s). split; [done|].
      by apply elem_of_map_to_list.
Qed.

End PipelineFacts.

(** ** The checkpoint operator *)

Section CheckPointOperatorFacts.
Context {K B : Type} `{!DataCoordCatalog K} `{!ChunkManager B}.
Variable CalcRowCountFromBinLog : datapb_SegmentInfo → Z.

Implicit Types modPack : updateSegmentPack (K:=K) (B:=B).

Lemma Get_in_pack segmentID modPack segment :
  p_segments modPack !! segmentID = Some segment →
  Get segmentID modPack = (modPack, Some segment).
Proof. intros Hp. unfold Get. by rewrite Hp. Qed.

Lemma Get_healthy segmentID modPack segment :
  p_segments modPack !! segmentID = None →
  segments (p_meta modPack) !! segmentID = Some segment →
  isSegmentHealthy (Some segment) = true →
  Get segmentID modPack =
    (set_p_segments (<[segmentID := segment]> (p_segments modPack)) modPack, Some segment).
Proof. intros Hp Hm Hh. unfold Get, GetSegment, Clone. by rewrite Hp, Hm, Hh. Qed.

(** One turn of the loop: the rule when the position can be read, a panic
    otherwise. *)
Lemma applyCheckPoints_cons segmentID cp rest segment :
  applyCheckPoints segmentID (cp :: rest) segment =
    if decide (cp_SegmentID cp = segmentID → DmlPosition (pb segment) ≠ None →
               cp_Position cp ≠ None)
    then applyCheckPoints segmentID rest (checkpoint_rule segmentID segment cp)
    else None.
Proof.
  simpl. unfold checkpoint_rule, isStaleCheckPoint.
  destruct (decide (cp_SegmentID cp = segmentID)) as [Heq|Hne].
  - rewrite (bool_decide_eq_false_2 (cp_SegmentID cp ≠ segmentID)) by (intros Hne; done).
    rewrite (bool_decide_eq_true_2 (cp_SegmentID cp = segmentID)) by done.
    destruct (DmlPosition (pb segment)) as [dml|].
    + destruct (cp_Position cp) as [pos|].
      * rewrite decide_True by done.
        destruct (Z.leb_spec (Timestamp_ pos) (Timestamp_ dml)).
        -- by rewrite bool_decide_eq_true_2 by done.
        -- by rewrite bool_decide_eq_false_2 by lia.
      * rewrite decide_False; [done|]. intros Hc. by apply Hc.
    + by rewrite decide_True by done.
  - rewrite (bool_decide_eq_true_2 (cp_SegmentID cp ≠ segmentID)) by done.
    rewrite (bool_decide_eq_false_2 (cp_SegmentID cp = segmentID)) by done.
    by rewrite decide_True by done.
Qed.

Lemma applyCheckPoints_rule segmentID checkpoints segment :
  positions_readable segmentID checkpoints segment →
  applyCheckPoints segmentID checkpoints segment =
    Some (fold_left (checkpoint_rule segmentID) checkpoints segment).
Proof.
  revert segment.
  induction checkpoints as [|cp cps IH]; intros segment; [done|].
  intros [Hcp Hrest]. rewrite applyCheckPoints_cons, decide_True by done.
  by apply IH.
Qed.

(** A nil position where the operator reads it makes the loop panic. *)
Lemma applyCheckPoints_panics segmentID checkpoints segment :
  ¬ positions_readable segmentID checkpoints segment →
  applyCheckPoints segmentID checkpoints segment = None.
Proof.
  revert segment.
  induction checkpoints as [|cp cps IH]; intros segment Hnot; [by destruct Hnot|].
  rewrite applyCheckPoints_cons. case_decide; [|done].
  apply IH. intros Hrest. apply Hnot. by split.
Qed.

(** Checkpoints that all carry a position are readable. *)
Lemma positions_readable_all segmentID checkpoints segment :
  Forall (fun cp => cp_SegmentID cp = segmentID → cp_Position cp ≠ None) checkpoints →
  positions_readable segmentID checkpoints segment.
Proof.
  intros Hall. revert segment.
  induction Hall as [|cp cps Hcp _ IH]; intros segment; simpl; [done|].
  split; [auto|apply IH].
Qed.

Lemma healRowCount_rule segment :
  healRowCount CalcRowCountFromBinLog segment = rowcount_rule CalcRowCountFromBinLog segment.
Proof.
  unfold healRowCount, rowcount_rule.
  set (count := CalcRowCountFromBinLog (pb segment)).
  destruct (decide (count = currRows segment)) as [Heq|Hne].
  - rewrite (bool_decide_eq_false_2 (count ≠ _)) by (intros Hc; done). simpl.
    by rewrite bool_decide_eq_false_2 by (intros [_ Hc]; done).
  - rewrite (bool_decide_eq_true_2 (count ≠ _)) by done. simpl.
    destruct (decide (0 < count)).
    + by rewrite !bool_decide_eq_true_2.
    + rewrite bool_decide_eq_false_2 by done.
      by rewrite bool_decide_eq_false_2 by (intros [Hc _]; done).
Qed.

(** The checkpoint operator applied to a segment it finds, that is a
    healthy segment of the segment map that the transaction has not touched
    yet, or the record the transaction already holds, with checkpoints whose
    position is there wherever the operator reads it.  When importing, the
    row count becomes the in-memory current rows and the checkpoints play no
    part.  Otherwise the checkpoints are taken in order, each by the rule:
    one for another segment is ignored, one whose position's timestamp is at
    most that of the segment's current checkpoint is rejected, any other sets
    the row count and the checkpoint.  At the end the row count computed from
    the binlogs replaces the row count when it is positive and differs from
    the current rows.  The operator returns true. *)
Theorem UpdateCheckPointOperator_rule segmentID importing checkpoints modPack segment :
  p_segments modPack !! segmentID = Some segment
  ∨ (p_segments modPack !! segmentID = None ∧
     segments (p_meta modPack) !! segmentID = Some segment ∧
     isSegmentHealthy (Some segment) = true) →
  (importing = false → positions_readable segmentID checkpoints segment) →
  UpdateCheckPointOperator CalcRowCountFromBinLog segmentID importing checkpoints modPack =
    Some (put segmentID
            (rowcount_rule CalcRowCountFromBinLog
               (if importing then with_pb (set_NumOfRows (currRows segment)) segment
                else fold_left (checkpoint_rule segmentID) checkpoints segment))
            modPack, true).
Proof.
  intros Hfound Hpos. unfold UpdateCheckPointOperator.
  assert (Hput : ∀ s, put segmentID s
            (set_p_segments (<[segmentID := segment]> (p_segments modPack)) modPack)
            = put segmentID s modPack).
  { intros s. unfold put, set_p_segments. simpl. by rewrite insert_insert_eq. }
  destruct Hfound as [Hin|(Hnone & Hmeta & Hh)].
  - rewrite (Get_in_pack _ _ _ Hin).
    destruct importing; [by rewrite healRowCount_rule|].
    rewrite applyCheckPoints_rule by auto. by rewrite healRowCount_rule.
  - rewrite (Get_healthy _ _ _ Hnone Hmeta Hh).
    destruct importing; [by rewrite healRowCount_rule, Hput|].
    rewrite applyCheckPoints_rule by auto. by rewrite healRowCount_rule, Hput.
Qed.

Lemma positions_readable_app segmentID front back segment :
  positions_readable segmentID (front ++ back) segment ↔
  positions_readable segmentID front segment ∧
  positions_readable segmentID back (fold_left (checkpoint_rule segmentID) front segment).
Proof.
  revert segment. induction front as [|cp front IH]; intros segment; simpl.
  - split; [by intros ?|by intros [_ ?]].
  - rewrite IH. tauto.
Qed.

(** The operator does not return on every application.  After checkpoints
    that it could read, a checkpoint for the segment that carries no
    position, met when the segment has a checkpoint of its own, makes the
    operator read the timestamp of a nil position: it panics, whatever
    checkpoints follow. *)
Lemma UpdateCheckPointOperator_nil_position segmentID front cp rest modPack segment :
  p_segments modPack !! segmentID = Some segment
  ∨ (p_segments modPack !! segmentID = None ∧
     segments (p_meta modPack) !! segmentID = Some segment ∧
     isSegmentHealthy (Some segment) = true) →
  positions_readable segmentID front segment →
  cp_SegmentID cp = segmentID →
  cp_Position cp = None →
  DmlPosition (pb (fold_left (checkpoint_rule segmentID) front segment)) ≠ None →
  UpdateCheckPointOperator CalcRowCountFromBinLog segmentID false (front ++ cp :: rest) modPack
  = None.
Proof.
  intros Hfound Hfront Hid Hnil Hdml.
  assert (Hnot : ¬ positions_readable segmentID (front ++ cp :: rest) segment).
  { rewrite positions_readable_app. intros [_ [Hcp _]]. by apply Hcp. }
  unfold UpdateCheckPointOperator.
  destruct Hfound as [Hin|(Hnone & Hmeta & Hh)].
  - rewrite (Get_in_pack _ _ _ Hin). by rewrite applyCheckPoints_panics.
  - rewrite (Get_healthy _ _ _ Hnone Hmeta Hh). by rewrite applyCheckPoints_panics.
Qed.

(** The transaction that starts with such an operator ends in the panic: no
    operator behind it runs and the catalog is not called. *)
Lemma UpdateSegmentsInfo_nil_position (segmentID : UniqueID) front cp rest
    (operators : list UpdateOperator) (m : meta K B) segment :
  segments m !! segmentID = Some segment →
  isSegmentHealthy (Some segment) = true →
  positions_readable segmentID front segment →
  cp_SegmentID cp = segmentID →
  cp_Position cp = None →
  DmlPosition (pb (fold_left (checkpoint_rule segmentID) front segment)) ≠ None →
  UpdateSegmentsInfo
    (UpdateCheckPointOperator CalcRowCountFromBinLog segmentID false (front ++ cp :: rest)
     :: operators) m
  = (m, Panic).
Proof.
  intros Hs Hh Hfront Hid Hnil Hdml.
  unfold UpdateSegmentsInfo. cbn [runOperators].
  rewrite (UpdateCheckPointOperator_nil_position segmentID front cp rest (newPack m) segment);
    [done| |done..].
  right. split; [apply lookup_empty|]. by split.
Qed.

End CheckPointOperatorFacts.

(** ** The compaction completer *)

Section CompactionFacts.
Context {K B : Type} `{!DataCoordCatalog K} `{!ChunkManager B}.

Implicit Types m : meta K B.

(** *** The sources *)

Lemma markDropped_fields t segment :
  let d := markDropped t segment in
  ID (pb d) = ID (pb segment) ∧ CollectionID (pb d) = CollectionID (pb segment) ∧
  PartitionID (pb d) = PartitionID (pb segment) ∧ MaxRowNum (pb d) = MaxRowNum (pb segment) ∧
  Deltalogs (pb d) = Deltalogs (pb segment) ∧
  StartPosition (pb d) = StartPosition (pb segment) ∧
  DmlPosition (pb d) = DmlPosition (pb segment) ∧ State (pb d) = Dropped ∧
  Compacted (pb d) = true ∧ DroppedAt (pb d) = t.
Proof. done. Qed.

Lemma dropSources_present now i sbs (s : gmap Z SegmentInfo) ids latest mm srcs :
  planSources sbs s = Some srcs →
  dropSources now i sbs s ids latest mm =
    inr (ids ++ ((fun segment => ID (pb segment)) <$> srcs),
         latest ++ markAllDropped now i srcs,
         dropMutation srcs mm).
Proof.
  revert i ids latest mm srcs.
  induction sbs as [|sb sbs IH]; intros i ids latest mm srcs; simpl.
  - intros [= <-]. simpl. by rewrite !app_nil_r.
  - unfold GetSegment. destruct (s !! csb_SegmentID sb) as [segment|]; [|done].
    destruct (planSources sbs s) as [rest|] eqn:Hrest; [|done].
    intros [= <-]. unfold updateSegStateAndPrepareMetrics, Clone.
    rewrite (IH _ _ _ _ rest) by done. simpl.
    by rewrite <- !app_assoc.
Qed.

Lemma dropSources_missing now i sbs (s : gmap Z SegmentInfo) ids latest mm :
  planSources sbs s = None →
  ∃ err, dropSources now i sbs s ids latest mm = inl err.
Proof.
  revert i ids latest mm.
  induction sbs as [|sb sbs IH]; intros i ids latest mm; simpl; [done|].
  unfold GetSegment. destruct (s !! csb_SegmentID sb) as [segment|]; [|eauto].
  destruct (planSources sbs s) as [rest|] eqn:Hrest; [done|].
  intros _. unfold updateSegStateAndPrepareMetrics. apply IH. done.
Qed.

(** *** Loops *)

Lemma forEach_app {X A} (body : X → A → meta K B → meta K B * result A) xs ys acc m :
  forEach body (xs ++ ys) acc m =
    match forEach body xs acc m with
    | (m1, Ok acc1) => forEach body ys acc1 m1
    | (m1, Err e) => (m1, Err e)
    | (m1, Panic) => (m1, Panic)
    end.
Proof.
  revert acc m. induction xs as [|x xs IH]; intros acc m; simpl; [done|].
  destruct (body x acc m) as [m1 [acc1|e|]]; [apply IH|done|done].
Qed.

Lemma forEach_ext {X A} (body body' : X → A → meta K B → meta K B * result A) xs acc m :
  (∀ x acc m, body x acc m = body' x acc m) →
  forEach body xs acc m = forEach body' xs acc m.
Proof.
  intros Hext. revert acc m. induction xs as [|x xs IH]; intros acc m; simpl; [done|].
  rewrite Hext. destruct (body' x acc m) as [m1 [acc1|e|]]; [apply IH|done|done].
Qed.

Lemma forEach_fmap {X Y A} (f : Y → X) (body : X → A → meta K B → meta K B * result A) ys acc m :
  forEach body (f <$> ys) acc m = forEach (fun y => body (f y)) ys acc m.
Proof.
  revert acc m. induction ys as [|y ys IH]; intros acc m; simpl; [done|].
  destruct (body (f y) acc m) as [m1 [acc1|e|]]; [apply IH|done|done].
Qed.

Lemma forEach_flat_map {X Y A} (h : X → list Y)
    (body : Y → A → meta K B → meta K B * result A) xs acc m :
  forEach (fun x => forEach body (h x)) xs acc m = forEach body (flat_map h xs) acc m.
Proof.
  revert acc m. induction xs as [|x xs IH]; intros acc m; simpl; [done|].
  rewrite forEach_app.
  destruct (forEach body (h x) acc m) as [m1 [acc1|e|]]; [apply IH|done|done].
Qed.

(** The three nested loops of [copyNewDeltalogs] visit the delta logs of
    the sources in the order of [allDeltalogs]. *)
Lemma copyNewDeltalogs_flat latest logIDsInPlan toSegment m :
  copyNewDeltalogs latest logIDsInPlan toSegment m =
    forEach (fun sl => copyDeltalog logIDsInPlan toSegment sl.1 sl.2) (allDeltalogs latest) [] m.
Proof.
  unfold copyNewDeltalogs, allDeltalogs.
  rewrite <- (forEach_flat_map
                (fun seg => (fun l => (seg, l)) <$> flat_map fb_Binlogs (Deltalogs (pb seg)))).
  apply forEach_ext. intros seg acc m'.
  rewrite forEach_fmap. simpl. apply forEach_flat_map.
Qed.

Lemma copy_flat logIDsInPlan toSegment pairs acc m m' r :
  forEach (fun sl => copyDeltalog logIDsInPlan toSegment sl.1 sl.2) pairs acc m = (m', r) →
  catalog m' = catalog m ∧ segments m' = segments m ∧ channelCPs m' = channelCPs m ∧
  metrics m' = metrics m ∧
  ∃ new, trace m' = trace m ++ new ∧ Forall (lateChunkEvent logIDsInPlan) new ∧
    match r with
    | Ok out =>
        ∃ copies : list (SegmentInfo * Binlog * list byte),
          copies.*1 = filter (fun sl => LogID sl.2 ∉ logIDsInPlan) pairs ∧
          new = flat_map (copyEvents toSegment) copies ∧
          out = acc ++ (filter (fun sl => LogID sl.2 ∉ logIDsInPlan) pairs).*2
    | Err _ => True
    | Panic => False
    end.
Proof.
  revert acc m. induction pairs as [|[seg l] pairs IH]; intros acc m; simpl.
  - intros [= <- <-]. repeat split. exists []. rewrite !app_nil_r.
    split; [done|]. split; [done|]. exists []. done.
  - unfold copyDeltalog at 1.
    destruct (decide (LogID l ∈ logIDsInPlan)) as [Hin|Hnotin].
    + rewrite bool_decide_eq_true_2 by done.
      rewrite filter_cons_False by (simpl; intros Hc; done).
      apply IH.
    + rewrite bool_decide_eq_false_2 by done.
      rewrite filter_cons_True by done.
      destruct (chunk_call (ChunkRead _) _ m) as [m1 rd] eqn:Hrd.
      apply chunk_call_inv in Hrd as (_ & Hc1 & Hs1 & Hp1 & Hm1 & Ht1).
      destruct rd as [err|blob].
      { intros [= <- <-]. repeat split; try done.
        eexists. split; [done|]. split; [|done].
        constructor; [done|constructor]. }
      destruct (chunk_call (ChunkWrite _ _) _ m1) as [m2 wr] eqn:Hwr.
      apply chunk_call_inv in Hwr as (_ & Hc2 & Hs2 & Hp2 & Hm2 & Ht2).
      destruct wr as [err|].
      { intros [= <- <-]. repeat split; try congruence.
        eexists. split; [rewrite Ht2, Ht1, <- app_assoc; done|]. split; [|done].
        constructor; [done|]. constructor; [done|constructor]. }
      intros Hrest. apply IH in Hrest as (Hc & Hs & Hp & Hm & new & Ht & Hlate & Hr).
      repeat split; try congruence.
      exists ([ChunkRead (fromKey seg l); ChunkWrite (toKey seg toSegment l) blob] ++ new).
      split; [rewrite Ht, Ht2, Ht1, <- !app_assoc; done|].
      split. { constructor; [done|]. constructor; [done|done]. }
      destruct r as [out|e|]; [|done|done].
      destruct Hr as (copies & Hfst & Hnew & Hout).
      exists ((seg, l, blob) :: copies).
      split; [by rewrite fmap_cons, Hfst|].
      split; [simpl; by rewrite <- Hnew|].
      by rewrite Hout, fmap_cons, <- app_assoc.
Qed.

(** *** Minimum position *)

Lemma getMinPosition_is_min positions :
  is_min_position positions (getMinPosition positions).
Proof.
  unfold getMinPosition.
  assert (Hgen : ∀ seen start,
    is_min_position seen start →
    is_min_position (seen ++ positions)
      (fold_left (fun minPos pos =>
                    match minPos, pos with
                    | None, _ => pos
                    | Some mp, Some p => if Timestamp_ p <? Timestamp_ mp then pos else minPos
                    | Some _, None => minPos
                    end) positions start)).
  { induction positions as [|pos positions IH]; intros seen start Hmin; simpl.
    - by rewrite app_nil_r.
    - replace (seen ++ pos :: positions) with ((seen ++ [pos]) ++ positions)
        by (by rewrite <- app_assoc).
      apply IH. clear IH. unfold is_min_position in *.
      destruct start as [mp|].
      + destruct Hmin as [Hin Hle]. destruct pos as [p|].
        * destruct (Z.ltb_spec (Timestamp_ p) (Timestamp_ mp)).
          -- split; [set_solver|]. intros q Hq.
             apply elem_of_app in Hq as [Hq|Hq].
             ++ specialize (Hle q Hq). lia.
             ++ apply list_elem_of_singleton in Hq as [= ->]. lia.
          -- split; [set_solver|]. intros q Hq.
             apply elem_of_app in Hq as [Hq|Hq]; [by apply Hle|].
             apply list_elem_of_singleton in Hq as [= ->]. lia.
        * split; [set_solver|]. intros q Hq.
          apply elem_of_app in Hq as [Hq|Hq]; [by apply Hle|].
          by apply list_elem_of_singleton in Hq.
      + destruct pos as [p|].
        * split; [set_solver|]. intros q Hq.
          apply elem_of_app in Hq as [Hq|Hq]; [by apply Hmin in Hq|].
          apply list_elem_of_singleton in Hq as [= ->]. lia.
        * intros p Hp. apply elem_of_app in Hp as [Hp|Hp]; [by apply Hmin in Hp|].
          by apply list_elem_of_singleton in Hp. }
  apply (Hgen [] None). intros p Hp. by apply elem_of_nil in Hp.
Qed.

End CompactionFacts.

(** *** The course of a completion *)

Section CompleterFacts.
Context {K B : Type} `{!DataCoordCatalog K} `{!ChunkManager B}.

Implicit Types m : meta K B.

Lemma markAllDropped_positions (f : datapb_SegmentInfo → option MsgPosition) now i srcs :
  (∀ t s, f (pb (markDropped t s)) = f (pb s)) →
  (fun info => f (pb info)) <$> markAllDropped now i srcs = (fun info => f (pb info)) <$> srcs.
Proof.
  intros Hf. revert i. induction srcs as [|s srcs IH]; intros i; simpl; [done|].
  f_equal; [apply Hf|apply IH].
Qed.

Lemma markAllDropped_head now i srcs :
  head (markAllDropped now i srcs) = markDropped (now i) <$> head srcs.
Proof. by destruct srcs. Qed.



(** [CompleteCompactionMutation] with the first loop replaced by what it
    computes when every source is present. *)
Lemma CompleteCompactionMutation_unfold plan planResult now m srcs :
  planSources (SegmentBinlogs plan) (segments m) = Some srcs →
  CompleteCompactionMutation plan planResult now m =
    let latest := markAllDropped now 0 srcs in
    match Segments planResult with
    | [] => (m, Panic)
    | compactTo :: _ =>
        match forEach (fun sl => copyDeltalog (logIDsFromPlan plan) (cs_SegmentID compactTo)
                                   sl.1 sl.2)
                (allDeltalogs latest) [] m with
        | (m1, Ok newDeltalogs) =>
            match head latest with
            | None => (m1, Panic)
            | Some first =>
                let target := compactToInfo plan compactTo newDeltalogs srcs latest first in
                let segs := (pb <$> latest) ++ [pb target] in
                match catalog_call (CatalogAlterSegments segs [pb target])
                        (catalog_AlterSegments segs [pb target]) m1 with
                | (m2, Some err) => (m2, Err err)
                | (m2, None) =>
                    (set_segments
                       (<[ID (pb target) := target]>
                          (fold_left (fun acc info => SetSegment (ID (pb info)) info acc)
                             latest (segments m2))) m2,
                     Ok ([target], compactToMutation compactTo srcs))
                end
            end
        | (m1, Err err) => (m1, Err err)
        | (m1, Panic) => (m1, Panic)
        end
    end.
Proof.
  intros Hsrc. unfold CompleteCompactionMutation.
  rewrite (dropSources_present _ _ _ _ _ _ _ srcs Hsrc).
  rewrite !app_nil_l. cbv zeta.
  destruct (Segments planResult) as [|compactTo others]; [done|].
  rewrite copyNewDeltalogs_flat.
  destruct (forEach _ _ _ m) as [m1 [newDeltalogs|err|]]; [|done|done].
  destruct (markAllDropped now 0 srcs) as [|first rest]; [done|].
  unfold head, compactToInfo, compactToMutation, SetSegment.
  change (NumOfRows (pb (NewSegmentInfo (compactToRecord plan compactTo
            (attachDeltalogs compactTo newDeltalogs)
            ((fun segment => ID (pb segment)) <$> srcs) first (first :: rest)))))
    with (cs_NumOfRows compactTo).
  by destruct (0 <? cs_NumOfRows compactTo).
Qed.

(** The course of [CompleteCompactionMutation] when every source of the plan
    is present: the metrics and the checkpoints are never touched; either
    the call ends before the catalog write, having made only blob-store
    calls for late delta logs, and the segment map is as before; or the late
    delta logs are all copied, the sources and the target are written in one
    [AlterSegments] call, and the segment map changes only if it succeeds. *)
Lemma CompleteCompactionMutation_outcome plan planResult now m m' r srcs :
  planSources (SegmentBinlogs plan) (segments m) = Some srcs →
  CompleteCompactionMutation plan planResult now m = (m', r) →
  let latest := markAllDropped now 0 srcs in
  let lates := lateDeltalogs (logIDsFromPlan plan) latest in
  metrics m' = metrics m ∧ channelCPs m' = channelCPs m ∧
  ∃ new, trace m' = trace m ++ new ∧
    ((segments m' = segments m ∧ catalog m' = catalog m ∧ (∀ v, r ≠ Ok v) ∧
      Forall (lateChunkEvent (logIDsFromPlan plan)) new)
     ∨
     (∃ compactTo first (copies : list (SegmentInfo * Binlog * list byte)),
        head (Segments planResult) = Some compactTo ∧ head latest = Some first ∧
        copies.*1 = lates ∧
        Forall (lateChunkEvent (logIDsFromPlan plan))
          (flat_map (copyEvents (cs_SegmentID compactTo)) copies) ∧
        let target := compactToInfo plan compactTo lates.*2 srcs latest first in
        let segs := (pb <$> latest) ++ [pb target] in
        new = flat_map (copyEvents (cs_SegmentID compactTo)) copies
              ++ [CatalogAlterSegments segs [pb target]] ∧
        match catalog_AlterSegments segs [pb target] (catalog m) with
        | (k, None) =>
            r = Ok ([target], compactToMutation compactTo srcs) ∧ catalog m' = k ∧
            segments m' =
              <[ID (pb target) := target]>
                (fold_left (fun acc info => SetSegment (ID (pb info)) info acc) latest
                   (segments m))
        | (k, Some err) => r = Err err ∧ catalog m' = k ∧ segments m' = segments m
        end)).
Proof.
  intros Hsrc Hrun latest lates.
  rewrite (CompleteCompactionMutation_unfold _ _ _ _ _ Hsrc) in Hrun.
  cbv zeta in Hrun. fold latest in Hrun.
  destruct (Segments planResult) as [|compactTo others] eqn:Hres.
  { injection Hrun as <- <-. split; [done|]. split; [done|].
    exists []. rewrite app_nil_r. split; [done|]. left. done. }
  destruct (forEach _ _ _ m) as [m1 rc] eqn:Hcopy.
  apply copy_flat in Hcopy as (Hc1 & Hs1 & Hp1 & Hm1 & new & Ht1 & Hlate & Hrc).
  destruct rc as [newDeltalogs|err|]; [|injection Hrun as <- <-|done].
  2:{ split; [done|]. split; [done|]. exists new. split; [done|]. left. done. }
  destruct Hrc as (copies & Hfst & Hnew & Hout).
  rewrite app_nil_l in Hout. fold (lateDeltalogs (logIDsFromPlan plan) latest) in Hfst, Hout.
  fold lates in Hfst, Hout. subst newDeltalogs.
  destruct (head latest) as [first|] eqn:Hfirst.
  2:{ injection Hrun as <- <-. split; [done|]. split; [done|].
      exists new. split; [done|]. left. done. }
  set (target := compactToInfo plan compactTo lates.*2 srcs latest first) in *.
  set (segs := (pb <$> latest) ++ [pb target]) in *.
  destruct (catalog_call _ _ m1) as [m2 rw] eqn:Hw.
  apply catalog_call_inv in Hw as (Hf & _ & Hs2 & Hp2 & Hm2 & Ht2).
  rewrite Hc1 in Hf.
  assert (metrics m' = metrics m ∧ channelCPs m' = channelCPs m ∧
          trace m' = trace m ++ new ++ [CatalogAlterSegments segs [pb target]])
    as (Hmet & Hcp & Htr).
  { destruct rw; injection Hrun as <- <-; simpl;
      (split; [congruence|split; [congruence|]]); rewrite Ht2, Ht1, <- app_assoc; done. }
  split; [done|]. split; [done|].
  eexists. split; [exact Htr|].
  right. exists compactTo, first, copies.
  split; [done|]. split; [done|]. split; [done|]. split; [by rewrite <- Hnew|].
  cbv zeta. fold target. fold segs. split; [by rewrite Hnew|].
  rewrite Hf.
  destruct rw; injection Hrun as <- <-; simpl; [by rewrite Hs2, Hs1|].
  split; [done|]. split; [done|]. by rewrite Hs2, Hs1.
Qed.



End CompleterFacts.

(** *** Late delta logs and the target *)

Section CompleterClaims.
Context {K B : Type} `{!DataCoordCatalog K} `{!ChunkManager B}.

Implicit Types m : meta K B.

Lemma compactToInfo_fields plan compactTo late srcs latest first :
  let target := compactToInfo plan compactTo late srcs latest first in
  ID (pb target) = cs_SegmentID compactTo ∧
  NumOfRows (pb target) = cs_NumOfRows compactTo ∧
  Level (pb target) = L1 ∧
  InsertChannel (pb target) = Channel plan ∧
  CollectionID (pb target) = CollectionID (pb first) ∧
  PartitionID (pb target) = PartitionID (pb first) ∧
  CompactionFrom (pb target) = (fun s => ID (pb s)) <$> srcs ∧
  CreatedByCompaction (pb target) = true ∧
  LastExpireTime (pb target) = StartTime plan ∧
  MaxRowNum (pb target) = MaxRowNum (pb first) ∧
  StartPosition (pb target) = getMinPosition ((fun info => StartPosition (pb info)) <$> latest) ∧
  DmlPosition (pb target) = getMinPosition ((fun info => DmlPosition (pb info)) <$> latest) ∧
  Deltalogs (pb target) = attachDeltalogs compactTo late ∧
  State (pb target) = (if 0 <? cs_NumOfRows compactTo then Flushed else Dropped).
Proof.
  unfold compactToInfo. by destruct (0 <? cs_NumOfRows compactTo).
Qed.


(** C2: after a successful [CompleteCompactionMutation] the target is the
    one record returned and it is installed under its id.  Its level is L1,
    its channel the plan's, its collection, partition and maximum row number
    those of the first source, its compactionFrom the ids of the sources in
    plan order, it is created by compaction and expires at the plan's start
    time; its start position and its checkpoint are positions of least
    timestamp among those of the sources.  With a positive row count its
    state is Flushed and the metric mutation counts it as a new segment on
    top of the drops of the sources; with a row count of zero its state is
    Dropped and the metric mutation holds the drops of the sources only. *)
Theorem CompleteCompactionMutation_target plan planResult now m m' infos mm :
  CompleteCompactionMutation plan planResult now m = (m', Ok (infos, mm)) →
  ∃ srcs first compactTo target,
    planSources (SegmentBinlogs plan) (segments m) = Some srcs ∧
    head srcs = Some first ∧ head (Segments planResult) = Some compactTo ∧
    infos = [target] ∧ segments m' !! ID (pb target) = Some target ∧
    Level (pb target) = L1 ∧
    InsertChannel (pb target) = Channel plan ∧
    CollectionID (pb target) = CollectionID (pb first) ∧
    PartitionID (pb target) = PartitionID (pb first) ∧
    CompactionFrom (pb target) = (fun s => ID (pb s)) <$> srcs ∧
    CreatedByCompaction (pb target) = true ∧
    LastExpireTime (pb target) = StartTime plan ∧
    MaxRowNum (pb target) = MaxRowNum (pb first) ∧
    is_min_position ((fun s => StartPosition (pb s)) <$> srcs) (StartPosition (pb target)) ∧
    is_min_position ((fun s => DmlPosition (pb s)) <$> srcs) (DmlPosition (pb target)) ∧
    (0 < cs_NumOfRows compactTo →
       State (pb target) = Flushed ∧
       mm = addNewSeg Flushed L1 (cs_NumOfRows compactTo)
              (dropMutation srcs new_segMetricMutation)) ∧
    (cs_NumOfRows compactTo = 0 →
       State (pb target) = Dropped ∧ mm = dropMutation srcs new_segMetricMutation).
Proof.
  intros Hrun.
  destruct (planSources (SegmentBinlogs plan) (segments m)) as [srcs|] eqn:Hsrc.
  2:{ exfalso. unfold CompleteCompactionMutation in Hrun.
      destruct (dropSources_missing now 0 _ _ [] [] new_segMetricMutation Hsrc) as [err Herr].
      by rewrite Herr in Hrun. }
  destruct (CompleteCompactionMutation_outcome _ _ _ _ _ _ _ Hsrc Hrun)
    as (_ & _ & new & Htr & [(_ & _ & Hno & _)|Hwrite]).
  { by destruct (Hno (infos, mm)). }
  destruct Hwrite as (compactTo & first & copies & Hres & Hfirst & Hfst & Hlate & Hw).
  cbv zeta in Hw. destruct Hw as [_ Hcat].
  rewrite markAllDropped_head in Hfirst.
  destruct (head srcs) as [src0|] eqn:Hhead; [|done].
  injection Hfirst as <-.
  set (latest := markAllDropped now 0 srcs) in *.
  set (lates := lateDeltalogs (logIDsFromPlan plan) latest) in *.
  set (target := compactToInfo plan compactTo lates.*2 srcs latest
                   (markDropped (now 0%nat) src0)) in *.
  exists srcs, src0, compactTo, target.
  destruct (compactToInfo_fields plan compactTo lates.*2 srcs latest
              (markDropped (now 0%nat) src0))
    as (HID & Hrows & Hlevel & Hchan & Hcoll & Hpart & Hfrom & Hcreated & Hexp & Hmax
        & Hstart & Hdml & _ & Hstate).
  fold target in HID, Hrows, Hlevel, Hchan, Hcoll, Hpart, Hfrom, Hcreated, Hexp, Hmax,
    Hstart, Hdml, Hstate.
  destruct (catalog_AlterSegments _ _ (catalog m)) as [k [err|]];
    [by destruct Hcat as ([=] & _)|].
  destruct Hcat as ([= -> ->] & _ & Hseg).
  split; [done|]. split; [done|]. split; [done|]. split; [done|].
  split; [rewrite Hseg; apply lookup_insert_eq|].
  split; [done|]. split; [done|]. split; [done|]. split; [done|]. split; [done|].
  split; [done|]. split; [done|]. split; [done|].
  split.
  { rewrite Hstart. unfold latest.
    rewrite (markAllDropped_positions StartPosition) by done.
    apply getMinPosition_is_min. }
  split.
  { rewrite Hdml. unfold latest.
    rewrite (markAllDropped_positions DmlPosition) by done.
    apply getMinPosition_is_min. }
  unfold compactToMutation. rewrite Hstate. split.
  - intros Hpos. apply Z.ltb_lt in Hpos. by rewrite Hpos.
  - intros Hzero. by rewrite Hzero.
Qed.

End CompleterClaims.

(** ** Catalog failures *)

Section AtomicityFacts.
Context {K B : Type} `{!DataCoordCatalog K} `{!ChunkManager B}.

Implicit Types m : meta K B.


Lemma SetState_atomic segmentID targetState m cur :
  segments m !! segmentID = Some cur → isSegmentHealthy (Some cur) = true →
  ∃ m' r, SetState segmentID targetState m = (m', r) ∧
    match catalog_AlterSegments [set_State targetState (pb cur)] [] (catalog m) with
    | (k, Some err) => r = Err err ∧ catalog m' = k ∧ memory_unchanged m m'
    | (k, None) =>
        r = Ok tt ∧ catalog m' = k ∧
        segments m' = <[segmentID := with_pb (set_State targetState) cur]> (segments m) ∧
        metrics m' =
          commit (segMetricMutation_append (State (pb cur)) targetState (Level (pb cur))
                    (NumOfRows (pb cur)) new_segMetricMutation) (metrics m)
    end.
Proof.
  intros Hcur Hh. unfold SetState, GetSegment, Clone. rewrite Hcur, Hh.
  unfold updateSegStateAndPrepareMetrics.
  catalog_cases m r1 Hf Hseg Hcp Hmet Htr.
  simpl in Hf. rewrite Hf. destruct r1 as [err|]; eexists _, _; (split; [done|]); simpl.
  - done.
  - unfold SetState_store. by rewrite Hseg, Hcur, Hmet.
Qed.




End AtomicityFacts.

(** ** The properties on the scenarios *)

(** The late-delta scenario: the two delta logs the plan did not capture are
    copied, in order, before the one catalog write, and they are the delta
    logs of the target. *)
Example compaction_with_late_delta :
  let m' := (compactionRun 2 false).1 in
  (LogID <$> (lateDeltalogs (logIDsFromPlan compactionPlan) [seg1; seg2]).*2) = [30001; 31001] ∧
  (match trace m' with
   | [ChunkRead k1; ChunkWrite k1' _; ChunkRead k2; ChunkWrite k2' _; CatalogAlterSegments segs _] =>
       (path_segmentID k1, path_logID k1, path_segmentID k1', path_logID k1') = (1, 30001, 3, 30001) ∧
       (path_segmentID k2, path_logID k2, path_segmentID k2', path_logID k2') = (2, 31001, 3, 31001) ∧
       ID <$> segs = [1; 2; 3]
   | _ => False
   end) ∧
  (State ∘ pb <$> segments m' !! 1) = Some Dropped ∧
  (State ∘ pb <$> segments m' !! 2) = Some Dropped ∧
  (DroppedAt ∘ pb <$> segments m' !! 1) = Some 1000 ∧
  (State ∘ pb <$> segments m' !! 3) = Some Flushed ∧
  (rowCountChange (compactionReturned 2).2, rowCountAccChange (compactionReturned 2).2) = (-2, 2).
Proof. vm_compute. repeat split; reflexivity. Qed.

(** A failing blob store ends the completion at the first late delta log:
    the error is returned, no catalog write is made and the segment map is as
    before. *)
Example blob_failure_aborts :
  let out := CompleteCompactionMutation compactionPlan (compactionResult 2) clock brokenMeta in
  out.2 = Err (ErrExternal "read failed") ∧
  trace out.1 = [ChunkRead (BuildDeltaLogPath "mockroot" 100 10 1 30001)] ∧
  segments out.1 = segments brokenMeta ∧ catalog out.1 = catalog brokenMeta.
Proof. vm_compute. repeat split; reflexivity. Qed.


Lemma CompleteCompactionMutation_target_witness :
  compactionRun 2 false =
    ((compactionRun 2 false).1, Ok ((compactionReturned 2).1, (compactionReturned 2).2)) ∧
  ∃ srcs first compactTo target,
    planSources (SegmentBinlogs compactionPlan) (segments (compactionMeta false)) = Some srcs ∧
    head srcs = Some first ∧ head (Segments (compactionResult 2)) = Some compactTo ∧
    (compactionReturned 2).1 = [target] ∧
    segments (compactionRun 2 false).1 !! ID (pb target) = Some target ∧
    Level (pb target) = L1 ∧
    InsertChannel (pb target) = Channel compactionPlan ∧
    CollectionID (pb target) = CollectionID (pb first) ∧
    PartitionID (pb target) = PartitionID (pb first) ∧
    CompactionFrom (pb target) = (fun s => ID (pb s)) <$> srcs ∧
    CreatedByCompaction (pb target) = true ∧
    LastExpireTime (pb target) = StartTime compactionPlan ∧
    MaxRowNum (pb target) = MaxRowNum (pb first) ∧
    is_min_position ((fun s => StartPosition (pb s)) <$> srcs) (StartPosition (pb target)) ∧
    is_min_position ((fun s => DmlPosition (pb s)) <$> srcs) (DmlPosition (pb target)) ∧
    (0 < cs_NumOfRows compactTo →
       State (pb target) = Flushed ∧
       (compactionReturned 2).2 =
         addNewSeg Flushed L1 (cs_NumOfRows compactTo) (dropMutation srcs new_segMetricMutation)) ∧
    (cs_NumOfRows compactTo = 0 →
       State (pb target) = Dropped ∧
       (compactionReturned 2).2 = dropMutation srcs new_segMetricMutation).
Proof.
  assert (Hrun : compactionRun 2 false =
            ((compactionRun 2 false).1, Ok ((compactionReturned 2).1, (compactionReturned 2).2)))
    by (vm_compute; reflexivity).
  split; [exact Hrun|].
  exact (CompleteCompactionMutation_target compactionPlan (compactionResult 2) clock
           (compactionMeta false) _ _ _ Hrun).
Defined.

(** The zero-row scenario: the target is installed as Dropped, created by
    compaction, and the metric mutation holds the two drops only: two rows
    leave the live count per source and no row is added to either count. *)
Example zero_row_compaction_target :
  let m' := (compactionRun 0 false).1 in
  (State ∘ pb <$> segments m' !! 3) = Some Dropped ∧
  (CreatedByCompaction ∘ pb <$> segments m' !! 3) = Some true ∧
  (compactionReturned 0).2 = dropMutation [seg1; seg2] new_segMetricMutation ∧
  stateCount (compactionReturned 0).2 L1 Flushed = -2 ∧
  stateCount (compactionReturned 0).2 L1 Dropped = 2 ∧
  rowCountChange (compactionReturned 0).2 = -4 ∧
  rowCountAccChange (compactionReturned 0).2 = 0 ∧
  metrics m' = emptyMetrics.
Proof. vm_compute. repeat split; reflexivity. Qed.

Lemma UpdateCheckPointOperator_witness :
  (p_segments (newPack (flushMeta false)) !! 1 = Some growing
   ∨ (p_segments (newPack (flushMeta false)) !! 1 = None ∧
      segments (p_meta (newPack (flushMeta false))) !! 1 = Some growing ∧
      isSegmentHealthy (Some growing) = true)) ∧
  (false = false →
   positions_readable 1 [checkpoint 1 40 5; checkpoint 2 90 6; checkpoint 1 60 10] growing) ∧
  UpdateCheckPointOperator countEntries 1 false
    [checkpoint 1 40 5; checkpoint 2 90 6; checkpoint 1 60 10] (newPack (flushMeta false)) =
    Some (put 1
            (rowcount_rule countEntries
               (fold_left (checkpoint_rule 1)
                  [checkpoint 1 40 5; checkpoint 2 90 6; checkpoint 1 60 10] growing))
            (newPack (flushMeta false)), true).
Proof.
  assert (Hfound : p_segments (newPack (flushMeta false)) !! 1 = Some growing
                   ∨ (p_segments (newPack (flushMeta false)) !! 1 = None ∧
                      segments (p_meta (newPack (flushMeta false))) !! 1 = Some growing ∧
                      isSegmentHealthy (Some growing) = true)).
  { right. split; [reflexivity|]. split; reflexivity. }
  assert (Hpos : false = false →
                 positions_readable 1
                   [checkpoint 1 40 5; checkpoint 2 90 6; checkpoint 1 60 10] growing).
  { intros _. apply positions_readable_all. repeat constructor; intros _; discriminate. }
  split; [exact Hfound|]. split; [exact Hpos|].
  exact (UpdateCheckPointOperator_rule countEntries 1 false _ _ growing Hfound Hpos).
Defined.

(** C8: the checkpoint operator does not follow the rule on every
    application to an existing healthy segment.  The growing segment of the
    scenario is healthy and has its checkpoint at timestamp 50.  Given the
    checkpoint of the flush test for it, ten rows and no position, the
    operator neither rejects the checkpoint nor applies it: it reads the
    timestamp of the nil position and panics, and the transaction ends in
    that panic with the state as it was and no catalog call.  The same
    happens on a segment that has no checkpoint yet when a checkpoint with a
    position comes first.  The nil position is read without harm in the
    other places: the same checkpoint is applied to the segment without
    checkpoint, it is ignored when importing, and a checkpoint with a
    position at or before 50 is rejected on the growing segment. *)
Theorem UpdateCheckPointOperator_panics_on_nil_position :
  let cp := {| cp_SegmentID := 1; cp_Position := None; cp_NumOfRows := 10 |} in
  let fresh := mkSegment 1 Growing 0 [] in
  let freshMeta := newMemoryMeta false (<[1 := fresh]> ∅) in
  let outcome (out : meta MemCatalog MemChunkManager * result unit) :=
    (out.2, NumOfRows ∘ pb <$> segments out.1 !! 1,
     (DmlPosition (pb (default fresh (segments out.1 !! 1)))), length (trace out.1)) in
  segments (flushMeta false) !! 1 = Some growing ∧
  isSegmentHealthy (Some growing) = true ∧
  DmlPosition (pb growing) = Some (position 50) ∧
  UpdateCheckPointOperator countEntries 1 false [cp] (newPack (flushMeta false)) = None ∧
  UpdateSegmentsInfo [UpdateCheckPointOperator countEntries 1 false [cp]] (flushMeta false)
  = (flushMeta false, Panic) ∧
  UpdateSegmentsInfo [UpdateCheckPointOperator countEntries 1 false [checkpoint 1 60 7; cp]]
    freshMeta
  = (freshMeta, Panic) ∧
  outcome (UpdateSegmentsInfo [UpdateCheckPointOperator countEntries 1 false [cp]] freshMeta)
  = (Ok tt, Some 10, None, 1%nat) ∧
  outcome (UpdateSegmentsInfo [UpdateCheckPointOperator countEntries 1 true [cp]]
            (flushMeta false))
  = (Ok tt, Some 0, Some (position 50), 1%nat) ∧
  outcome (UpdateSegmentsInfo
            [UpdateCheckPointOperator countEntries 1 false [checkpoint 1 50 10]]
            (flushMeta false))
  = (Ok tt, Some 0, Some (position 50), 1%nat).
Proof. vm_compute. repeat split; reflexivity. Qed.

(** On the growing segment whose checkpoint is at 50: the checkpoint at 40
    is rejected, the one of segment 2 is ignored, the one at 60 sets ten rows
    and the checkpoint. *)
Example checkpoint_rule_on_growing :
  let s := fold_left (checkpoint_rule 1)
             [checkpoint 1 40 5; checkpoint 2 90 6; checkpoint 1 60 10] growing in
  NumOfRows (pb s) = 10 ∧ DmlPosition (pb s) = Some (position 60) ∧
  checkpoint_rule 1 growing (checkpoint 1 50 5) = growing.
Proof. vm_compute. repeat split; reflexivity. Qed.

Lemma UnsetIsImporting_unhealthy_witness :
  segments importingMeta !! 7 = Some droppedImporting ∧
  (State (pb droppedImporting) = Dropped ∨ State (pb droppedImporting) = SegmentStateNone
   ∨ State (pb droppedImporting) = NotExist) ∧
  ∃ m', UnsetIsImporting 7 importingMeta = (m', Ok tt) ∧
        trace m' = trace importingMeta ∧ catalog m' = catalog importingMeta ∧
        segments m' =
          <[7 := with_pb (set_IsImporting false) droppedImporting]> (segments importingMeta) ∧
        IsImporting ∘ pb <$> segments m' !! 7 = Some false.
Proof.
  assert (Hs : segments importingMeta !! 7 = Some droppedImporting) by reflexivity.
  assert (Hstate : State (pb droppedImporting) = Dropped
                   ∨ State (pb droppedImporting) = SegmentStateNone
                   ∨ State (pb droppedImporting) = NotExist) by (left; reflexivity).
  split; [exact Hs|]. split; [exact Hstate|].
  exact (UnsetIsImporting_unhealthy_skips_catalog 7 importingMeta droppedImporting Hs Hstate).
Defined.

(** After [UnsetIsImporting] on the dropped segment the flag is cleared in
    memory while the record in the catalog still carries it. *)
Example UnsetIsImporting_diverges :
  let m' := (UnsetIsImporting 7 importingMeta).1 in
  (IsImporting ∘ pb <$> segments m' !! 7) = Some false ∧
  (IsImporting <$> kv_segments (catalog m') !! 7) = Some true ∧
  trace m' = [].
Proof. vm_compute. repeat split; reflexivity. Qed.

(** C4, the claim as first stated fails: the channel has no checkpoint, yet
    a position whose message id is nil is neither persisted nor installed,
    the call returning an error; and with a position that carries a message
    id, nothing is installed when the save to the catalog fails. *)
Lemma UpdateChannelCheckpoint_not_always_installed :
  let m := compactionMeta false in
  let out := UpdateChannelCheckpoint physicalSeconds "ch" (Some (positionWithoutMsgID 1000)) m in
  let outFailing :=
    UpdateChannelCheckpoint physicalSeconds "ch" (Some (position 1000)) (compactionMeta true) in
  GetChannelCheckpoint "ch" m = None ∧
  out.2 = Err (ErrChannelCPNil "ch") ∧
  trace out.1 = [] ∧ kv_checkpoints (catalog out.1) !! "ch" = None ∧
  GetChannelCheckpoint "ch" out.1 = None ∧
  ¬ (GetChannelCheckpoint "ch" m = None →
     CatalogSaveChannelCheckpoint "ch" (positionWithoutMsgID 1000) ∈ trace out.1 ∧
     GetChannelCheckpoint "ch" out.1 = Some (positionWithoutMsgID 1000)) ∧
  outFailing.2 = Err (ErrExternal "mocked fail") ∧
  GetChannelCheckpoint "ch" outFailing.1 = None.
Proof.
  vm_compute. repeat split; try reflexivity.
  intros Himp. destruct (Himp eq_refl) as [_ Hinst]. discriminate Hinst.
Qed.

(** The stale-checkpoint scenario: after a checkpoint at 1000 an update at
    999 succeeds, makes no call and leaves the checkpoint at 1000. *)
Example stale_checkpoint :
  let m1 := (UpdateChannelCheckpoint physicalSeconds "ch" (Some (position 1000))
               (compactionMeta false)).1 in
  let out := UpdateChannelCheckpoint physicalSeconds "ch" (Some (position 999)) m1 in
  out = (m1, Ok tt) ∧
  trace m1 = [CatalogSaveChannelCheckpoint "ch" (position 1000)] ∧
  (Timestamp_ <$> GetChannelCheckpoint "ch" out.1) = Some 1000.
Proof. vm_compute. repeat split; reflexivity. Qed.

(** C5, the claim as first stated fails: on a segment that is present, the
    first [DropSegment], and the first [SetState] to Dropped, return the
    catalog's error when its write fails, and the segment stays. *)
Lemma first_drop_fails_with_catalog :
  let m := compactionMeta true in
  is_Some (segments m !! 1) ∧
  (DropSegment 1 m).2 = Err (ErrExternal "mocked fail") ∧
  (DropSegment 1 m).2 ≠ Ok tt ∧
  segments (DropSegment 1 m).1 !! 1 = Some seg1 ∧
  (SetState 1 Dropped m).2 = Err (ErrExternal "mocked fail") ∧
  (SetState 1 Dropped m).2 ≠ Ok tt ∧
  segments (SetState 1 Dropped m).1 !! 1 = Some seg1.
Proof.
  vm_compute. repeat split; try reflexivity; try discriminate. by eexists.
Qed.

(** With a working catalog both calls of a double drop succeed. *)
Example double_drop :
  let m := compactionMeta false in
  let m1 := (DropSegment 1 m).1 in
  let m2 := (SetState 2 Dropped m1).1 in
  (DropSegment 1 m).2 = Ok tt ∧ DropSegment 1 m1 = (m1, Ok tt) ∧
  (SetState 2 Dropped m1).2 = Ok tt ∧ SetState 2 Dropped m2 = (m2, Ok tt) ∧
  (SetState 9 Flushed m).2 = Err (ErrSegmentNotExist 9).
Proof. vm_compute. repeat split; reflexivity. Qed.

(** The rollback scenario: with a failing catalog the flush transaction
    returns the error and the segment and the metrics are as before. *)
Example catalog_failure_rollback :
  let ops := [UpdateStatusOperator 1 Flushing 5;
              UpdateCheckPointOperator countEntries 1 false [checkpoint 1 60 10]] in
  let out := UpdateSegmentsInfo ops (flushMeta true) in
  out.2 = Err (ErrExternal "mocked fail") ∧
  segments out.1 = segments (flushMeta true) ∧ metrics out.1 = metrics (flushMeta true) ∧
  (UpdateSegmentsInfo ops (flushMeta false)).2 = Ok tt ∧
  (State ∘ pb <$> segments (UpdateSegmentsInfo ops (flushMeta false)).1 !! 1) = Some Flushing ∧
  (NumOfRows ∘ pb <$> segments (UpdateSegmentsInfo ops (flushMeta false)).1 !! 1) = Some 10.
Proof. vm_compute. repeat split; reflexivity. Qed.

(** An operator on a missing segment returns false and the transaction is
    dropped, whatever follows. *)
Example skipped_transaction :
  UpdateSegmentsInfo [UpdateStatusOperator 1 Flushing 5; UpdateCompactedOperator 9;
                      fun _ => None] (flushMeta false)
  = (flushMeta false, Ok tt).
Proof. vm_compute. reflexivity. Qed.

(** Stats logs of 100 bytes do not enter the compacted size; the delta log
    of 7 bytes enters it twice. *)
Example compacted_size_ignores_statslogs :
  let log size := {| EntriesNum := 0; TimestampFrom := 0; TimestampTo := 0; LogPath := "";
                     LogSize := size; LogID := 0 |} in
  getCompactedSegmentSize
    (Some {| cs_PlanID := 0; cs_SegmentID := 3; cs_NumOfRows := 1;
             InsertLogs := [{| FieldID := 0; fb_Binlogs := [log 10; log 20] |}];
             Field2StatslogPaths := [{| FieldID := 0; fb_Binlogs := [log 100] |}];
             cs_Deltalogs := [{| FieldID := 0; fb_Binlogs := [log 7] |}];
             cs_Channel := "ch" |}) = 44
  ∧ getCompactedSegmentSize None = 0.
Proof. vm_compute. split; reflexivity. Qed.

(** A flush of ten rows at level L1, then the drop of the same segment. *)
Example append_flush_then_drop :
  let s1 := segMetricMutation_append Growing Flushed L1 10 new_segMetricMutation in
  let s2 := segMetricMutation_append Flushed Dropped L1 10 s1 in
  (stateCount s1 L1 Growing, stateCount s1 L1 Flushed, rowCountChange s1, rowCountAccChange s1)
    = (-1, 1, 10, 10) ∧
  (stateCount s2 L1 Flushed, stateCount s2 L1 Dropped, rowCountChange s2, rowCountAccChange s2)
    = (0, 1, 0, 10) ∧
  segMetricMutation_append Flushing Flushed L1 10 s1 =
    {| stateChange := stateChange (segMetricMutation_append Flushing Flushed L1 10 s1);
       rowCountChange := 10; rowCountAccChange := 10 |}.
Proof. vm_compute. repeat split; reflexivity. Qed.

(** The flush pipeline: a growing segment with one insert log is moved to
    Flushing, receives a second insert log and a delta log, a start position
    and a checkpoint of ten rows, all in one transaction. *)
Example flush_pipeline :
  let log id entries := {| EntriesNum := entries; TimestampFrom := 0; TimestampTo := 0;
                           LogPath := ""; LogSize := 0; LogID := id |} in
  let segment :=
    with_pb (set_logs [{| FieldID := 1; fb_Binlogs := [log 0 0] |}] [] [])
      (mkSegment 1 Growing 0 []) in
  let start := {| ChannelName := ""; MsgID := Some [x01; x02; x03]; Timestamp_ := 0 |} in
  let ops :=
    [UpdateStatusOperator 1 Flushing 5;
     UpdateBinlogsOperator 1 [{| FieldID := 1; fb_Binlogs := [log 1 10] |}] []
       [{| FieldID := 0; fb_Binlogs := [log 2 1] |}];
     UpdateStartPosition [{| ssp_StartPosition := Some start; ssp_SegmentID := 1 |}];
     UpdateCheckPointOperator countEntries 1 false
       [{| cp_SegmentID := 1; cp_Position := None; cp_NumOfRows := 10 |}]] in
  let out := UpdateSegmentsInfo ops (newMemoryMeta false (<[1 := segment]> ∅)) in
  out.2 = Ok tt ∧
  match segments out.1 !! 1 with
  | Some s =>
      State (pb s) = Flushing ∧ NumOfRows (pb s) = 10 ∧
      ((fun fb => (FieldID fb, LogID <$> fb_Binlogs fb)) <$> Binlogs (pb s)) = [(1, [0; 1])] ∧
      (StartPosition (pb s) ≫= MsgID) = Some [x01; x02; x03] ∧
      length (Deltalogs (pb s)) = 1%nat
  | None => False
  end ∧
  match trace out.1 with
  | [CatalogAlterSegments segs incs] => ID <$> segs = [1] ∧ NumOfRows <$> incs = [10]
  | _ => False
  end.
Proof. vm_compute. repeat split; reflexivity. Qed.

(** [UpdateSegment] stops evaluating its operators once one has reported a
    change. *)
Example UpdateSegment_short_circuit :
  applySegmentOperators
    [fun s => (s, false); fun s => (with_pb (set_Compacted true) s, true);
     fun s => (with_pb (set_StorageVersion 9) s, true)] seg1
  = (with_pb (set_Compacted true) seg1, true).
Proof. reflexivity. Qed.
(** ** Merging field binlogs *)

Lemma appendToField_ids id newLogs binlogs :
  match appendToField id newLogs binlogs with
  | Some merged => id ∈ FieldID <$> binlogs ∧ FieldID <$> merged = FieldID <$> binlogs
  | None => id ∉ FieldID <$> binlogs
  end.
Proof.
  induction binlogs as [|binlog rest IH]; simpl.
  - apply not_elem_of_nil.
  - case_bool_decide as Hid.
    + split; [subst id; apply list_elem_of_here|done].
    + destruct (appendToField id newLogs rest) as [merged|]; simpl.
      * destruct IH as [Hin Heq]. split; [by apply list_elem_of_further|].
        f_equal. exact Heq.
      * intros Hin. apply elem_of_cons in Hin as [?|?]; done.
Qed.

Lemma fieldLogs_cons id binlog rest :
  fieldLogs id (binlog :: rest) =
    (if bool_decide (FieldID binlog = id) then fb_Binlogs binlog else []) ++ fieldLogs id rest.
Proof.
  unfold fieldLogs. rewrite filter_cons.
  case_bool_decide; destruct (decide (FieldID binlog = id)); done.
Qed.

Lemma fieldLogs_app id l1 l2 : fieldLogs id (l1 ++ l2) = fieldLogs id l1 ++ fieldLogs id l2.
Proof. unfold fieldLogs. by rewrite filter_app, flat_map_app. Qed.

Lemma fieldLogs_absent id binlogs : id ∉ FieldID <$> binlogs → fieldLogs id binlogs = [].
Proof.
  induction binlogs as [|binlog rest IH]; [done|]. rewrite fmap_cons, not_elem_of_cons.
  intros [Hne Hrest]. rewrite fieldLogs_cons, bool_decide_eq_false_2 by done.
  by apply IH.
Qed.

Lemma appendToField_logs id newLogs binlogs merged id' :
  NoDup (FieldID <$> binlogs) →
  appendToField id newLogs binlogs = Some merged →
  fieldLogs id' merged =
    fieldLogs id' binlogs ++ (if bool_decide (id = id') then newLogs else []).
Proof.
  revert merged. induction binlogs as [|binlog rest IH]; intros merged; simpl; [done|].
  rewrite NoDup_cons. intros [Hfresh Hnd].
  destruct (bool_decide_reflect (id = FieldID binlog)) as [Hid|Hid].
  - intros [= <-]. rewrite !fieldLogs_cons. simpl. subst id.
    destruct (bool_decide_reflect (FieldID binlog = id')) as [Hid'|Hid'].
    + rewrite (fieldLogs_absent id' rest) by (by subst id'). by rewrite !app_nil_r.
    + by rewrite app_nil_r.
  - destruct (appendToField id newLogs rest) as [merged'|] eqn:Hrest; simpl; [|done].
    intros [= <-]. rewrite !fieldLogs_cons, (IH merged') by done. by rewrite app_assoc.
Qed.

Lemma mergeFieldBinlog_ids current newBinlog :
  FieldID <$> mergeFieldBinlog current newBinlog =
    (FieldID <$> current) ++
    (if bool_decide (FieldID newBinlog ∈ FieldID <$> current) then [] else [FieldID newBinlog]).
Proof.
  unfold mergeFieldBinlog.
  pose proof (appendToField_ids (FieldID newBinlog) (fb_Binlogs newBinlog) current) as H.
  destruct (appendToField _ _ current) as [merged|].
  - destruct H as [Hin Heq]. by rewrite bool_decide_eq_true_2, app_nil_r.
  - by rewrite bool_decide_eq_false_2, fmap_app.
Qed.

Lemma mergeFieldBinlog_NoDup current newBinlog :
  NoDup (FieldID <$> current) → NoDup (FieldID <$> mergeFieldBinlog current newBinlog).
Proof.
  intros Hnd. rewrite mergeFieldBinlog_ids. case_bool_decide as Hin.
  - by rewrite app_nil_r.
  - apply NoDup_app. split; [done|]. split; [|apply NoDup_singleton].
    intros x Hx Hx'. apply list_elem_of_singleton in Hx'. by subst x.
Qed.

Lemma mergeFieldBinlog_logs current newBinlog id :
  NoDup (FieldID <$> current) →
  fieldLogs id (mergeFieldBinlog current newBinlog) =
    fieldLogs id current ++ fieldLogs id [newBinlog].
Proof.
  intros Hnd. unfold mergeFieldBinlog.
  destruct (appendToField _ _ current) as [merged|] eqn:Happ.
  - rewrite (appendToField_logs _ _ _ _ id Hnd Happ), fieldLogs_cons.
    unfold fieldLogs at 3. simpl. by rewrite app_nil_r.
  - by rewrite fieldLogs_app.
Qed.

Lemma mergeFieldBinlogs_snoc current newBinlogs newBinlog :
  mergeFieldBinlogs current (newBinlogs ++ [newBinlog]) =
    mergeFieldBinlog (mergeFieldBinlogs current newBinlogs) newBinlog.
Proof. unfold mergeFieldBinlogs. by rewrite fold_left_app. Qed.

Lemma mergeFieldBinlogs_fields (currentBinlogs newBinlogs : list FieldBinlog) :
  NoDup (FieldID <$> currentBinlogs) →
  let merged := mergeFieldBinlogs currentBinlogs newBinlogs in
  NoDup (FieldID <$> merged) ∧
  (∃ added, FieldID <$> merged = (FieldID <$> currentBinlogs) ++ added ∧
            ∀ id, id ∈ added ↔ id ∈ FieldID <$> newBinlogs ∧ id ∉ FieldID <$> currentBinlogs) ∧
  (∀ id, fieldLogs id merged = fieldLogs id currentBinlogs ++ fieldLogs id newBinlogs) ∧
  length (flat_map fb_Binlogs merged) =
    (length (flat_map fb_Binlogs currentBinlogs) + length (flat_map fb_Binlogs newBinlogs))%nat.
Proof.
  intros Hnd. cbv zeta.
  induction newBinlogs as [|newBinlog newBinlogs IH] using rev_ind.
  - split; [done|]. split.
    + exists []. rewrite app_nil_r. split; [done|]. intros id. rewrite elem_of_nil.
      split; [done|]. rewrite fmap_nil, elem_of_nil. tauto.
    + split; [intros id; by rewrite app_nil_r|]. simpl. lia.
  - destruct IH as (IHnd & (added & IHids & IHadded) & IHlogs & IHlen).
    rewrite mergeFieldBinlogs_snoc.
    set (merged := mergeFieldBinlogs currentBinlogs newBinlogs) in *.
    split; [by apply mergeFieldBinlog_NoDup|]. split; [|split].
    + rewrite mergeFieldBinlog_ids, IHids, <- app_assoc. eexists. split; [done|].
      intros id. rewrite fmap_app, !elem_of_app, IHadded.
      change (FieldID <$> [newBinlog]) with [FieldID newBinlog].
      destruct (bool_decide_reflect
                  (FieldID newBinlog ∈ (FieldID <$> currentBinlogs) ++ added)) as [Hin|Hin].
      * rewrite elem_of_app, list_elem_of_singleton, elem_of_nil.
        split; [tauto|]. intros [[Hnew| ->] Hcur]; [tauto|].
        apply elem_of_app in Hin as [Hin|Hin]; [done|]. left. by apply IHadded.
      * rewrite elem_of_app, !list_elem_of_singleton. split.
        -- intros [?| ->]; [tauto|]. split; [by right|]. intros Hcur. apply Hin.
           apply elem_of_app. by left.
        -- intros [[?| ->] ?]; [tauto|by right].
    + intros id. rewrite mergeFieldBinlog_logs, IHlogs, fieldLogs_app, app_assoc by done. done.
    + unfold mergeFieldBinlog.
      destruct (appendToField _ _ merged) as [merged'|] eqn:Happ.
      * rewrite flat_map_app, length_app. simpl. rewrite app_nil_r.
        rewrite Nat.add_assoc, <- IHlen. clear -Happ.
        revert merged' Happ. induction merged as [|binlog rest IH]; intros merged'; simpl; [done|].
        case_bool_decide.
        -- intros [= <-]. simpl. rewrite !length_app. lia.
        -- destruct (appendToField _ _ rest) as [r|]; simpl; [|done].
           intros [= <-]. simpl. rewrite !length_app, (IH r) by done. lia.
      * rewrite !flat_map_app, !length_app. simpl. rewrite app_nil_r. lia.
Qed.

Lemma getFieldBinlogs_unique (id : Z) (binlogs : list FieldBinlog) :
  NoDup (FieldID <$> binlogs) →
  match getFieldBinlogs id binlogs with
  | Some binlog => FieldID binlog = id ∧ fieldLogs id binlogs = fb_Binlogs binlog
  | None => id ∉ FieldID <$> binlogs
  end.
Proof.
  induction binlogs as [|binlog rest IH]; simpl; [intros _; apply not_elem_of_nil|].
  rewrite NoDup_cons. intros [Hfresh Hnd].
  destruct (decide (id = FieldID binlog)) as [Heq|Hne].
  - rewrite bool_decide_eq_true_2 by done. split; [done|].
    rewrite fieldLogs_cons, bool_decide_eq_true_2 by done.
    rewrite fieldLogs_absent by (by rewrite Heq). apply app_nil_r.
  - rewrite bool_decide_eq_false_2 by done.
    specialize (IH Hnd). destruct (getFieldBinlogs id rest) as [found|].
    + destruct IH as [Hid Hl]. split; [done|].
      rewrite fieldLogs_cons, bool_decide_eq_false_2 by done. done.
    + rewrite not_elem_of_cons. done.
Qed.

(** X1: [mergeFieldBinlogs], on a current list whose field ids are distinct.
    The field ids of the result are distinct again; the fields of the current
    list keep their places and the ids that only the new list has follow
    them; and for every field id the logs of the result are the current logs
    of the field followed by the new logs of the field, in the order of the
    new list.  Nothing is lost and nothing is duplicated.  So
    [getFieldBinlogs] finds in the result, for an id of either list, the one
    field binlog of that id with these logs, and nil for any other id. *)
Theorem mergeFieldBinlogs_per_field (currentBinlogs newBinlogs : list FieldBinlog) :
  NoDup (FieldID <$> currentBinlogs) →
  let merged := mergeFieldBinlogs currentBinlogs newBinlogs in
  NoDup (FieldID <$> merged) ∧
  (∃ added, FieldID <$> merged = (FieldID <$> currentBinlogs) ++ added ∧
            ∀ id, id ∈ added ↔ id ∈ FieldID <$> newBinlogs ∧ id ∉ FieldID <$> currentBinlogs) ∧
  (∀ id, fieldLogs id merged = fieldLogs id currentBinlogs ++ fieldLogs id newBinlogs) ∧
  length (flat_map fb_Binlogs merged) =
    (length (flat_map fb_Binlogs currentBinlogs) + length (flat_map fb_Binlogs newBinlogs))%nat ∧
  (∀ id, match getFieldBinlogs id merged with
         | Some binlog =>
             FieldID binlog = id ∧
             fb_Binlogs binlog = fieldLogs id currentBinlogs ++ fieldLogs id newBinlogs
         | None => (id ∉ FieldID <$> currentBinlogs) ∧ (id ∉ FieldID <$> newBinlogs)
         end).
Proof.
  intros Hnd. cbv zeta.
  destruct (mergeFieldBinlogs_fields currentBinlogs newBinlogs Hnd)
    as (Hnd' & (added & Hids & Hadded) & Hlogs & Hlen).
  split; [done|]. split; [by exists added|]. split; [done|]. split; [done|].
  intros id.
  pose proof (getFieldBinlogs_unique id _ Hnd') as Hget.
  destruct (getFieldBinlogs id (mergeFieldBinlogs currentBinlogs newBinlogs)) as [binlog|].
  - destruct Hget as [Hid Hl]. split; [done|]. by rewrite <- Hl, Hlogs.
  - rewrite Hids, elem_of_app, Hadded in Hget. tauto.
Qed.

(** ** Queries over the segment map *)

Section QueryFacts.
Context {K B : Type}.

Implicit Types m : meta K B.

Lemma elem_of_GetSegments (s : gmap Z SegmentInfo) segment :
  segment ∈ GetSegments s ↔ ∃ id, s !! id = Some segment.
Proof.
  unfold GetSegments. rewrite list_elem_of_fmap. split.
  - intros ([id x] & -> & Hin). apply elem_of_map_to_list in Hin. by exists id.
  - intros (id & Hid). exists (id, segment). split; [done|]. by apply elem_of_map_to_list.
Qed.

Lemma elem_of_SelectSegments selector m segment :
  segment ∈ SelectSegments selector m ↔
  selector segment = true ∧ ∃ id, segments m !! id = Some segment.
Proof.
  unfold SelectSegments. rewrite list_elem_of_filter, elem_of_GetSegments.
  by rewrite Is_true_true.
Qed.





(** *** HasSegments *)

(** X3: [HasSegments] returns [(true, nil)] exactly when every id of the
    list is a key of the segment map (so for the empty list); otherwise it
    returns false with the error that names the first id of the list that
    is missing. *)
Theorem HasSegments_first_missing (segIDs : list UniqueID) m :
  (HasSegments segIDs m = (true, None) ↔ ∀ id, id ∈ segIDs → is_Some (segments m !! id)) ∧
  (HasSegments segIDs m = (true, None) ∨
   ∃ present segID rest,
     segIDs = present ++ segID :: rest ∧
     (∀ id, id ∈ present → is_Some (segments m !! id)) ∧
     segments m !! segID = None ∧
     HasSegments segIDs m = (false, Some (ErrSegmentNotExist segID))).
Proof.
  induction segIDs as [|segID segIDs [IHiff IHcase]]; simpl.
  - split; [|by left]. split; [|done]. intros _ id Hin. by apply elem_of_nil in Hin.
  - destruct (segments m !! segID) as [segment|] eqn:Hs.
    + split.
      * rewrite IHiff. split.
        -- intros Hall id Hin. apply elem_of_cons in Hin as [->|Hin]; [by rewrite Hs|auto].
        -- intros Hall id Hin. apply Hall. by apply list_elem_of_further.
      * destruct IHcase as [Hok|(present & missing & rest & -> & Hpresent & Hmissing & Hres)];
          [by left|right].
        exists (segID :: present), missing, rest. split; [done|]. split; [|done].
        intros id Hin. apply elem_of_cons in Hin as [->|Hin]; [by rewrite Hs|auto].
    + split.
      * split; [done|]. intros Hall.
        destruct (Hall segID) as [x Hx]; [apply list_elem_of_here|congruence].
      * right. exists [], segID, segIDs. split; [done|]. split; [|done].
        intros id Hin. by apply elem_of_nil in Hin.
Qed.

(** *** GetCompactionTo *)

Lemma find_elem_of {A} (f : A → bool) (l : list A) :
  match List.find f l with
  | Some x => x ∈ l ∧ f x = true
  | None => ∀ x, x ∈ l → f x = false
  end.
Proof.
  induction l as [|a l IH]; simpl.
  - intros x Hin. by apply elem_of_nil in Hin.
  - destruct (f a) eqn:Hfa.
    + split; [apply list_elem_of_here|done].
    + destruct (List.find f l) as [x|].
      * destruct IH. split; [by apply list_elem_of_further|done].
      * intros x Hin. apply elem_of_cons in Hin as [->|Hin]; auto.
Qed.

Lemma GetCompactionTo_found segmentID m :
  (∀ segment, GetCompactionTo segmentID m = Some segment →
     segmentID ∈ CompactionFrom (pb segment) ∧ ∃ id, segments m !! id = Some segment) ∧
  (GetCompactionTo segmentID m = None ↔
   ∀ id segment, segments m !! id = Some segment → segmentID ∉ CompactionFrom (pb segment)).
Proof.
  unfold GetCompactionTo.
  pose proof (find_elem_of
                (fun segment => bool_decide (segmentID ∈ CompactionFrom (pb segment)))
                (GetSegments (segments m))) as Hfind.
  destruct (List.find _ _) as [found|].
  - destruct Hfind as [Hin Hfrom]. apply bool_decide_eq_true in Hfrom.
    apply elem_of_GetSegments in Hin as [id Hid]. split.
    + intros segment [= <-]. eauto.
    + split; [done|]. intros Hnone. by destruct (Hnone id found Hid).
  - split; [done|]. split; [|done]. intros _ id segment Hid.
    assert (Hin : segment ∈ GetSegments (segments m)) by (apply elem_of_GetSegments; eauto).
    apply Hfind in Hin. by apply bool_decide_eq_false in Hin.
Qed.

(** X4: [GetCompactionTo].  The segment it returns is a record of the
    segment map whose compactionFrom holds the id, and it returns nil exactly
    when no record of the map has the id in its compactionFrom. *)
Theorem GetCompactionTo_parent segmentID m :
  (∀ segment, GetCompactionTo segmentID m = Some segment →
     segmentID ∈ CompactionFrom (pb segment) ∧ ∃ id, segments m !! id = Some segment) ∧
  (GetCompactionTo segmentID m = None ↔
   ∀ id segment, segments m !! id = Some segment → segmentID ∉ CompactionFrom (pb segment)).
Proof. exact (GetCompactionTo_found segmentID m). Qed.

End QueryFacts.

(** ** The parent of a compacted segment *)

Section CompactionParent.
Context {K B : Type} `{!DataCoordCatalog K} `{!ChunkManager B}.

Implicit Types m : meta K B.

Lemma planSources_stored sbs (s : gmap Z SegmentInfo) srcs :
  planSources sbs s = Some srcs → ∀ src, src ∈ srcs → ∃ id, s !! id = Some src.
Proof.
  revert srcs. induction sbs as [|sb sbs IH]; intros srcs; simpl.
  - intros [= <-] src Hin. by apply elem_of_nil in Hin.
  - destruct (s !! csb_SegmentID sb) as [segment|] eqn:Hs; [|done].
    destruct (planSources sbs s) as [rest|]; [|done].
    intros [= <-] src Hin. apply elem_of_cons in Hin as [->|Hin]; [eauto|].
    by apply (IH rest).
Qed.

Lemma elem_of_markAllDropped now i srcs x :
  x ∈ markAllDropped now i srcs → ∃ t src, src ∈ srcs ∧ x = markDropped t src.
Proof.
  revert i. induction srcs as [|src srcs IH]; intros i; simpl.
  - intros Hin. by apply elem_of_nil in Hin.
  - intros Hin. apply elem_of_cons in Hin as [->|Hin].
    + exists (now i), src. split; [apply list_elem_of_here|done].
    + destruct (IH _ Hin) as (t & src' & Hsrc & ->).
      exists t, src'. split; [by apply list_elem_of_further|done].
Qed.

Lemma installed_lookup (l : list SegmentInfo) (s : gmap Z SegmentInfo) id x :
  fold_left (fun acc info => SetSegment (ID (pb info)) info acc) l s !! id = Some x →
  x ∈ l ∨ s !! id = Some x.
Proof.
  revert s. induction l as [|info l IH]; intros s; simpl; [by right|].
  intros Hx. apply IH in Hx as [Hin|Hx]; [left; by apply list_elem_of_further|].
  unfold SetSegment in Hx. apply lookup_insert_Some in Hx as [[_ <-]|[_ Hx]].
  - left. apply list_elem_of_here.
  - by right.
Qed.

(** X5: after a successful [CompleteCompactionMutation] the returned target
    is stored under its id with the ids of the sources as compactionFrom, so
    that [GetCompactionTo] of every source returns a stored segment that
    lists the source; it is the target itself when no segment listed the
    source before the call. *)
Theorem GetCompactionTo_after_compaction plan planResult now m m' infos mm srcs :
  planSources (SegmentBinlogs plan) (segments m) = Some srcs →
  CompleteCompactionMutation plan planResult now m = (m', Ok (infos, mm)) →
  ∃ target,
    infos = [target] ∧
    segments m' !! ID (pb target) = Some target ∧
    CompactionFrom (pb target) = (fun src => ID (pb src)) <$> srcs ∧
    ∀ src, src ∈ srcs →
      (∃ parent, GetCompactionTo (ID (pb src)) m' = Some parent ∧
                 ID (pb src) ∈ CompactionFrom (pb parent)) ∧
      ((∀ id segment, segments m !! id = Some segment →
                      ID (pb src) ∉ CompactionFrom (pb segment)) →
       GetCompactionTo (ID (pb src)) m' = Some target).
Proof.
  intros Hsrc Hrun.
  destruct (CompleteCompactionMutation_outcome _ _ _ _ _ _ _ Hsrc Hrun)
    as (_ & _ & new & _ & [(_ & _ & Hno & _)|Hok]).
  { by destruct (Hno (infos, mm)). }
  destruct Hok as (compactTo & first & copies & _ & _ & _ & _ & Hres).
  cbv zeta in Hres. destruct Hres as [_ Hres].
  set (latest := markAllDropped now 0 srcs) in *.
  set (target := compactToInfo plan compactTo
                   (lateDeltalogs (logIDsFromPlan plan) latest).*2 srcs latest first) in *.
  destruct (catalog_AlterSegments _ _ (catalog m)) as [k [err|]]; [by destruct Hres|].
  destruct Hres as ([= -> ->] & _ & Hsegs).
  pose proof (compactToInfo_fields plan compactTo
                (lateDeltalogs (logIDsFromPlan plan) latest).*2 srcs latest first) as Hf.
  cbv zeta in Hf. fold target in Hf.
  destruct Hf as (_ & _ & _ & _ & _ & _ & Hfrom & _).
  assert (Hstored : segments m' !! ID (pb target) = Some target).
  { rewrite Hsegs. apply lookup_insert_eq. }
  exists target. split; [done|]. split; [done|]. split; [done|].
  intros src Hin.
  assert (Hlisted : ID (pb src) ∈ CompactionFrom (pb target)).
  { rewrite Hfrom. by apply (list_elem_of_fmap_2 (fun src => ID (pb src))). }
  destruct (GetCompactionTo_found (ID (pb src)) m') as [Hsound Hnone].
  destruct (GetCompactionTo (ID (pb src)) m') as [parent|] eqn:Hget.
  2:{ destruct Hnone as [Hnone _]. by destruct (Hnone eq_refl _ _ Hstored). }
  destruct (Hsound parent eq_refl) as [Hparent [id Hid]].
  split; [by exists parent|].
  intros Hfresh. f_equal. rewrite Hsegs in Hid.
  apply lookup_insert_Some in Hid as [[_ Heq]|[_ Hid]]; [done|].
  apply installed_lookup in Hid as [Hlatest|Hold].
  - apply elem_of_markAllDropped in Hlatest as (t & src' & Hsrc' & ->).
    destruct (planSources_stored _ _ _ Hsrc _ Hsrc') as [id' Hid'].
    by destruct (Hfresh _ _ Hid').
  - by destruct (Hfresh _ _ Hold).
Qed.

End CompactionParent.

(** ** Row counts *)



Section RowCounts.
Context {K B : Type} `{!DataCoordCatalog K} `{!ChunkManager B}.

Implicit Types m : meta K B.





End RowCounts.

(** ** The earliest start position of the growing segments *)

Section EarliestFacts.
Context {K B : Type}.

Implicit Types m : meta K B.

Lemma earliest_fold (l : list SegmentInfo) (e : MsgPosition) :
  (∀ seg, seg ∈ l → StartPosition (pb seg) ≠ None) →
  ∃ p,
    fold_left (fun earliest seg =>
                 match earliest with
                 | None => StartPosition (pb seg)
                 | Some e =>
                     if Timestamp_ e >? GetTimestamp (StartPosition (pb seg))
                     then StartPosition (pb seg)
                     else earliest
                 end) l (Some e) = Some p ∧
    Timestamp_ p <= Timestamp_ e ∧
    (∀ seg, seg ∈ l → Timestamp_ p <= GetTimestamp (StartPosition (pb seg))) ∧
    (p = e ∨ ∃ seg, seg ∈ l ∧ StartPosition (pb seg) = Some p).
Proof.
  revert e. induction l as [|seg l IH]; intros e Hpos; simpl.
  - exists e. split; [done|]. split; [lia|]. split; [|by left].
    intros seg Hin. by apply elem_of_nil in Hin.
  - assert (Hl : ∀ seg', seg' ∈ l → StartPosition (pb seg') ≠ None).
    { intros seg' Hin. apply Hpos. by apply list_elem_of_further. }
    destruct (StartPosition (pb seg)) as [q|] eqn:Hq.
    2:{ by destruct (Hpos seg (list_elem_of_here _ _)). }
    simpl. destruct (Timestamp_ e >? Timestamp_ q) eqn:Hgt.
    + apply Z.gtb_lt in Hgt.
      destruct (IH q Hl) as (p & Hfold & Hle & Hall & Hfrom).
      exists p. split; [done|]. split; [lia|]. split.
      * intros seg' Hin. apply elem_of_cons in Hin as [->|Hin]; [by rewrite Hq|auto].
      * right. destruct Hfrom as [->|(seg' & Hin & Hseg')].
        -- exists seg. split; [apply list_elem_of_here|done].
        -- exists seg'. split; [by apply list_elem_of_further|done].
    + assert (Timestamp_ e <= Timestamp_ q).
      { destruct (Z.gtb_spec (Timestamp_ e) (Timestamp_ q)); [done|lia]. }
      destruct (IH e Hl) as (p & Hfold & Hle & Hall & Hfrom).
      exists p. split; [done|]. split; [lia|]. split.
      * intros seg' Hin. apply elem_of_cons in Hin as [->|Hin]; [rewrite Hq; simpl; lia|auto].
      * destruct Hfrom as [->|(seg' & Hin & Hseg')]; [by left|right].
        exists seg'. split; [by apply list_elem_of_further|done].
Qed.

(** X7: [GetEarliestStartPositionOfGrowingSegments], when every Growing
    segment of the label has a start position.  The result is never nil; its
    timestamp is at most that of the start position of every Growing segment
    of the label and at most the largest 64-bit timestamp; and it is either
    the start position of one of these segments or, when none has a smaller
    timestamp (so when the label has no Growing segment), the position that
    holds only the largest timestamp. *)
Theorem GetEarliestStartPosition_lower_bound (label : CompactionGroupLabel) m :
  let labelled segment :=
    State (pb segment) = Growing ∧ CollectionID (pb segment) = label_CollectionID label ∧
    PartitionID (pb segment) = label_PartitionID label ∧
    InsertChannel (pb segment) = label_Channel label in
  (∀ id segment, segments m !! id = Some segment → labelled segment →
                 StartPosition (pb segment) ≠ None) →
  ∃ earliest,
    GetEarliestStartPositionOfGrowingSegments label m = Some earliest ∧
    Timestamp_ earliest <= MaxUint64 ∧
    (∀ id segment, segments m !! id = Some segment → labelled segment →
                   Timestamp_ earliest <= GetTimestamp (StartPosition (pb segment))) ∧
    (earliest = {| ChannelName := ""; MsgID := None; Timestamp_ := MaxUint64 |}
     ∨ ∃ id segment, segments m !! id = Some segment ∧ labelled segment ∧
                     StartPosition (pb segment) = Some earliest).
Proof.
  intros labelled Hpos. unfold GetEarliestStartPositionOfGrowingSegments.
  set (selector := fun segment : SegmentInfo =>
         bool_decide (State (pb segment) = Growing)
         && bool_decide (CollectionID (pb segment) = label_CollectionID label)
         && bool_decide (PartitionID (pb segment) = label_PartitionID label)
         && bool_decide (InsertChannel (pb segment) = label_Channel label)).
  assert (Hsel : ∀ segment, selector segment = true ↔ labelled segment).
  { intros segment. unfold selector, labelled.
    rewrite !andb_true_iff, !bool_decide_eq_true. tauto. }
  cbv zeta.
  destruct (earliest_fold (SelectSegments selector m)
              {| ChannelName := ""; MsgID := None; Timestamp_ := MaxUint64 |})
    as (p & Hfold & Hle & Hall & Hfrom).
  { intros seg Hin. apply elem_of_SelectSegments in Hin as (Hs & id & Hid).
    apply (Hpos id); [done|]. by apply Hsel. }
  exists p. split; [exact Hfold|]. split; [exact Hle|]. split.
  - intros id segment Hid Hlab. apply Hall. apply elem_of_SelectSegments.
    split; [by apply Hsel|eauto].
  - destruct Hfrom as [->|(seg & Hin & Hseg)]; [by left|right].
    apply elem_of_SelectSegments in Hin as (Hs & id & Hid).
    exists id, seg. split; [done|]. split; [by apply Hsel|done].
Qed.

End EarliestFacts.

(** ** Dropping a channel *)

Lemma set_State_same state (segment : SegmentInfo) :
  State (pb segment) = state → with_pb (set_State state) segment = segment.
Proof. destruct segment as [[] ? ?]. simpl. by intros ->. Qed.

Lemma append_same state level rows (s : segMetricMutation) :
  segMetricMutation_append state state level rows s = s.
Proof.
  unfold segMetricMutation_append.
  rewrite bool_decide_eq_false_2 by (by intros H; apply H).
  rewrite andb_negb_r, andb_false_r. by destruct s.
Qed.

Lemma commit_new (reg : Metrics) : commit new_segMetricMutation reg = reg.
Proof.
  unfold commit. simpl. rewrite map_fold_empty, Z.add_0_r. by destruct reg.
Qed.

Section ChannelDropFacts.
Context {K B : Type} `{!DataCoordChannelCatalog K}.

Implicit Types m : meta K B.

Lemma channel_call_inv f m m1 r :
  channel_call f m = (m1, r) →
  f (catalog m) = (catalog m1, r) ∧ chunkManager m1 = chunkManager m ∧
  segments m1 = segments m ∧ channelCPs m1 = channelCPs m ∧
  metrics m1 = metrics m ∧ trace m1 = trace m.
Proof.
  unfold channel_call. destruct (f (catalog m)) as [k r'].
  intros [= <- <-]. simpl. done.
Qed.

(** *** mergeDropSegment *)

Lemma mergeDropSegment_skipped seg2Drop m :
  isSegmentHealthy (segments m !! ID (pb seg2Drop)) = false →
  mergeDropSegment seg2Drop m = (None, new_segMetricMutation).
Proof.
  unfold mergeDropSegment, GetSegment.
  destruct (segments m !! ID (pb seg2Drop)) as [segment|]; [|done].
  by intros ->.
Qed.

Lemma mergeDropSegment_merged seg2Drop m segment :
  segments m !! ID (pb seg2Drop) = Some segment →
  isSegmentHealthy (Some segment) = true →
  ∃ merged,
    mergeDropSegment seg2Drop m =
      (Some merged,
       segMetricMutation_append (State (pb segment)) Dropped (Level (pb segment))
         (NumOfRows (pb segment)) new_segMetricMutation) ∧
    ID (pb merged) = ID (pb segment) ∧
    CollectionID (pb merged) = CollectionID (pb segment) ∧
    PartitionID (pb merged) = PartitionID (pb segment) ∧
    InsertChannel (pb merged) = InsertChannel (pb segment) ∧
    Level (pb merged) = Level (pb segment) ∧
    State (pb merged) = Dropped ∧
    NumOfRows (pb merged) = currRows seg2Drop ∧
    currRows merged = currRows seg2Drop ∧
    Binlogs (pb merged) = mergeFieldBinlogs (Binlogs (pb segment)) (Binlogs (pb seg2Drop)) ∧
    Statslogs (pb merged) =
      mergeFieldBinlogs (Statslogs (pb segment)) (Statslogs (pb seg2Drop)) ∧
    Deltalogs (pb merged) = Deltalogs (pb segment) ++ Deltalogs (pb seg2Drop) ∧
    StartPosition (pb merged) =
      match StartPosition (pb seg2Drop) with
      | Some p => Some p
      | None => StartPosition (pb segment)
      end ∧
    DmlPosition (pb merged) =
      match DmlPosition (pb seg2Drop) with
      | Some p => Some p
      | None => DmlPosition (pb segment)
      end.
Proof.
  intros Hs Hh. unfold mergeDropSegment, GetSegment. rewrite Hs, Hh. simpl.
  eexists. split; [reflexivity|]. simpl.
  destruct (StartPosition (pb seg2Drop)), (DmlPosition (pb seg2Drop)); done.
Qed.

Lemma mergeDropSegment_cases seg2Drop m :
  (isSegmentHealthy (segments m !! ID (pb seg2Drop)) = false ∧
   mergeDropSegment seg2Drop m = (None, new_segMetricMutation))
  ∨ (∃ segment merged,
       segments m !! ID (pb seg2Drop) = Some segment ∧
       isSegmentHealthy (Some segment) = true ∧
       (mergeDropSegment seg2Drop m).1 = Some merged ∧
       ID (pb merged) = ID (pb segment) ∧
       InsertChannel (pb merged) = InsertChannel (pb segment) ∧
       State (pb merged) = Dropped).
Proof.
  destruct (isSegmentHealthy (segments m !! ID (pb seg2Drop))) eqn:Hh.
  - right. destruct (segments m !! ID (pb seg2Drop)) as [segment|] eqn:Hs; [|done].
    destruct (mergeDropSegment_merged _ _ _ Hs Hh) as (merged & Hrun & Hid & _ & _ & Hch & _ & Hst & _).
    exists segment, merged. rewrite Hrun. done.
  - left. split; [done|]. by apply mergeDropSegment_skipped.
Qed.

(** *** The two loops *)

Lemma mergeDropSegments_snoc segs seg2Drop m mods mm :
  mergeDropSegments (segs ++ [seg2Drop]) m mods mm =
    let mods' := (mergeDropSegments segs m mods mm).1 in
    (match (mergeDropSegment seg2Drop m).1 with
     | Some segment => <[ID (pb seg2Drop) := segment]> mods'
     | None => mods'
     end, (mergeDropSegment seg2Drop m).2).
Proof.
  unfold mergeDropSegments. rewrite fold_left_app. simpl.
  destruct (fold_left _ segs (mods, mm)) as [mods' mm'].
  by destruct (mergeDropSegment seg2Drop m) as [[segment|] mm''].
Qed.

(** The mutation the first loop leaves is that of its last turn. *)
Lemma mergeDropSegments_mutation segs m mods mm :
  (mergeDropSegments segs m mods mm).2 =
    match last segs with
    | Some seg2Drop => (mergeDropSegment seg2Drop m).2
    | None => mm
    end.
Proof.
  destruct segs as [|seg2Drop segs _] using rev_ind; [done|].
  by rewrite mergeDropSegments_snoc, last_snoc.
Qed.

Lemma mergeDropSegments_lookup segs m (id : Z) x :
  (mergeDropSegments segs m ∅ new_segMetricMutation).1 !! id = Some x →
  ∃ seg2Drop, seg2Drop ∈ segs ∧ ID (pb seg2Drop) = id ∧
              (mergeDropSegment seg2Drop m).1 = Some x.
Proof.
  induction segs as [|seg2Drop segs IH] using rev_ind; [simpl; by rewrite lookup_empty|].
  rewrite mergeDropSegments_snoc. cbv zeta. simpl.
  intros Hx.
  assert (Hold : (mergeDropSegments segs m ∅ new_segMetricMutation).1 !! id = Some x →
                 ∃ d, d ∈ segs ++ [seg2Drop] ∧ ID (pb d) = id ∧ (mergeDropSegment d m).1 = Some x).
  { intros H. destruct (IH H) as (d & Hin & Hd). exists d. split; [|done].
    apply elem_of_app. by left. }
  destruct ((mergeDropSegment seg2Drop m).1) as [segment|] eqn:Hm; [|by apply Hold].
  apply lookup_insert_Some in Hx as [[<- <-]|[_ Hx]]; [|by apply Hold].
  exists seg2Drop. split; [|done]. apply elem_of_app. right. apply list_elem_of_here.
Qed.

Lemma mergeDropSegments_covers segs m seg2Drop :
  seg2Drop ∈ segs →
  isSegmentHealthy (segments m !! ID (pb seg2Drop)) = true →
  is_Some ((mergeDropSegments segs m ∅ new_segMetricMutation).1 !! ID (pb seg2Drop)).
Proof.
  induction segs as [|d segs IH] using rev_ind; [by intros Hin; apply elem_of_nil in Hin|].
  intros Hin Hh. rewrite mergeDropSegments_snoc. cbv zeta. simpl.
  destruct (mergeDropSegment_cases d m) as [[Hu Hrun]|(segment & merged & _ & _ & Hrun & _)];
    rewrite Hrun; simpl.
  - apply elem_of_app in Hin as [Hin|Hin]; [by apply IH|].
    apply list_elem_of_singleton in Hin as ->. congruence.
  - destruct (decide (ID (pb d) = ID (pb seg2Drop))) as [Heq|Hne].
    + rewrite Heq, lookup_insert_eq. eauto.
    + rewrite lookup_insert_ne by done.
      apply elem_of_app in Hin as [Hin|Hin]; [by apply IH|].
      apply list_elem_of_singleton in Hin as ->. done.
Qed.

(** With distinct ids in the buffer, no turn overwrites the record of
    another. *)
Lemma mergeDropSegments_distinct segs m seg2Drop merged :
  NoDup ((fun seg => ID (pb seg)) <$> segs) →
  seg2Drop ∈ segs →
  (mergeDropSegment seg2Drop m).1 = Some merged →
  (mergeDropSegments segs m ∅ new_segMetricMutation).1 !! ID (pb seg2Drop) = Some merged.
Proof.
  induction segs as [|d segs IH] using rev_ind; [by intros _ Hin; apply elem_of_nil in Hin|].
  rewrite fmap_app, NoDup_app. intros (Hnd & Hdisj & _) Hin Hm.
  rewrite mergeDropSegments_snoc. cbv zeta. simpl.
  apply elem_of_app in Hin as [Hin|Hin].
  - assert (ID (pb d) ≠ ID (pb seg2Drop)) as Hne.
    { intros Heq. apply (Hdisj (ID (pb seg2Drop))).
      - by apply (list_elem_of_fmap_2 (fun seg => ID (pb seg))).
      - rewrite <- Heq. apply list_elem_of_here. }
    destruct ((mergeDropSegment d m).1); [rewrite lookup_insert_ne by done|]; by apply IH.
  - apply list_elem_of_singleton in Hin as ->. by rewrite Hm, lookup_insert_eq.
Qed.

Lemma dropChannelSegments_cons channel seg stored mods mm :
  dropChannelSegments channel (seg :: stored) mods mm =
    if bool_decide (InsertChannel (pb seg) ≠ channel) then
      dropChannelSegments channel stored mods mm
    else
      match mods !! ID (pb seg) with
      | Some _ => dropChannelSegments channel stored mods mm
      | None =>
          dropChannelSegments channel stored
            (<[ID (pb seg) := with_pb (set_State Dropped) seg]> mods)
            (segMetricMutation_append (State (pb seg)) Dropped (Level (pb seg))
               (NumOfRows (pb seg)) mm)
      end.
Proof.
  unfold dropChannelSegments. simpl.
  destruct (bool_decide (InsertChannel (pb seg) ≠ channel)); [done|].
  by destruct (mods !! ID (pb seg)).
Qed.

Lemma dropChannelSegments_lookup channel stored mods mm (id : Z) x :
  (dropChannelSegments channel stored mods mm).1 !! id = Some x →
  mods !! id = Some x ∨
  ∃ seg, seg ∈ stored ∧ InsertChannel (pb seg) = channel ∧ ID (pb seg) = id ∧
         x = with_pb (set_State Dropped) seg.
Proof.
  revert mods mm. induction stored as [|seg stored IH]; intros mods mm; [by left|].
  rewrite dropChannelSegments_cons.
  assert (Hrest : ∀ mods' mm',
            (dropChannelSegments channel stored mods' mm').1 !! id = Some x →
            mods' !! id = Some x ∨
            ∃ seg', seg' ∈ seg :: stored ∧ InsertChannel (pb seg') = channel ∧
                    ID (pb seg') = id ∧ x = with_pb (set_State Dropped) seg').
  { intros mods' mm' H. apply IH in H as [H|(seg' & Hin & H)]; [by left|right].
    exists seg'. split; [by apply list_elem_of_further|done]. }
  case_bool_decide as Hch; [apply Hrest|].
  destruct (mods !! ID (pb seg)) as [old|] eqn:Hold; [apply Hrest|].
  intros Hx. apply Hrest in Hx as [Hx|Hx]; [|by right].
  apply lookup_insert_Some in Hx as [[<- <-]|[_ Hx]]; [right|by left].
  exists seg. split; [apply list_elem_of_here|]. split; [|done].
  by destruct (decide (InsertChannel (pb seg) = channel)).
Qed.

Lemma dropChannelSegments_keeps channel stored mods mm (id : Z) x :
  mods !! id = Some x → (dropChannelSegments channel stored mods mm).1 !! id = Some x.
Proof.
  revert mods mm. induction stored as [|seg stored IH]; intros mods mm Hx; [done|].
  rewrite dropChannelSegments_cons.
  case_bool_decide as Hch; [by apply IH|].
  destruct (mods !! ID (pb seg)) as [old|] eqn:Hold; [by apply IH|].
  apply IH. rewrite lookup_insert_ne; [done|]. intros Heq.
  unfold UniqueID in *. congruence.
Qed.

Lemma dropChannelSegments_covers channel stored mods mm seg :
  seg ∈ stored → InsertChannel (pb seg) = channel →
  is_Some ((dropChannelSegments channel stored mods mm).1 !! ID (pb seg)).
Proof.
  revert mods mm. induction stored as [|seg' stored IH]; intros mods mm Hin Hch;
    [by apply elem_of_nil in Hin|].
  rewrite dropChannelSegments_cons.
  apply elem_of_cons in Hin as [->|Hin].
  - rewrite bool_decide_eq_false_2 by (by intros H; apply H).
    destruct (mods !! ID (pb seg')) as [old|] eqn:Hold.
    + exists old. by apply dropChannelSegments_keeps.
    + eexists. apply dropChannelSegments_keeps. apply lookup_insert_eq.
  - case_bool_decide; [by apply IH|]. destruct (mods !! ID (pb seg')); by apply IH.
Qed.

(** The second loop changes nothing when every segment of the channel is
    Dropped already or has a record from the first loop. *)
Lemma dropChannelSegments_mutation_same channel stored mods mm :
  (∀ seg, seg ∈ stored → InsertChannel (pb seg) = channel →
          is_Some (mods !! ID (pb seg)) ∨ State (pb seg) = Dropped) →
  (dropChannelSegments channel stored mods mm).2 = mm.
Proof.
  revert mods mm. induction stored as [|seg stored IH]; intros mods mm Hall; [done|].
  rewrite dropChannelSegments_cons.
  assert (Hrest : ∀ seg', seg' ∈ stored → InsertChannel (pb seg') = channel →
                          is_Some (mods !! ID (pb seg')) ∨ State (pb seg') = Dropped).
  { intros seg' Hin. apply Hall. by apply list_elem_of_further. }
  case_bool_decide as Hch; [by apply IH|].
  destruct (mods !! ID (pb seg)) as [old|] eqn:Hold; [by apply IH|].
  assert (InsertChannel (pb seg) = channel) as Hon
    by (by destruct (decide (InsertChannel (pb seg) = channel))).
  destruct (Hall seg (list_elem_of_here _ _) Hon) as [[? Hs]|Hst]; [congruence|].
  rewrite Hst, append_same. apply IH.
  intros seg' Hin Hch'. destruct (Hrest seg' Hin Hch') as [[y Hy]|?]; [left|by right].
  destruct (decide (ID (pb seg) = ID (pb seg'))) as [->|Hne].
  - rewrite lookup_insert_eq. eauto.
  - rewrite lookup_insert_ne by done. eauto.
Qed.

Lemma dropChannelSegments_covered channel stored mods mm :
  (∀ seg, seg ∈ stored → InsertChannel (pb seg) = channel → is_Some (mods !! ID (pb seg))) →
  dropChannelSegments channel stored mods mm = (mods, mm).
Proof.
  revert mods mm. induction stored as [|seg stored IH]; intros mods mm Hall; [done|].
  rewrite dropChannelSegments_cons.
  assert (Hrest : ∀ seg', seg' ∈ stored → InsertChannel (pb seg') = channel →
                          is_Some (mods !! ID (pb seg'))).
  { intros seg' Hin. apply Hall. by apply list_elem_of_further. }
  case_bool_decide as Hch; [by apply IH|].
  assert (InsertChannel (pb seg) = channel) as Hon
    by (by destruct (decide (InsertChannel (pb seg) = channel))).
  destruct (Hall seg (list_elem_of_here _ _) Hon) as [old Hold]. rewrite Hold. by apply IH.
Qed.

(** *** The records and the mutation prepared for a channel *)

Lemma stored_elem m seg :
  seg ∈ (map_to_list (segments m)).*2 ↔ ∃ id, segments m !! id = Some seg.
Proof. apply elem_of_GetSegments. Qed.

Lemma dropChannelPlan_lookup channel segs m (id : Z) x :
  keyed_by_id (segments m) →
  (dropChannelPlan channel segs m).1 !! id = Some x →
  ∃ segment, segments m !! id = Some segment ∧ ID (pb x) = id ∧
             InsertChannel (pb x) = InsertChannel (pb segment) ∧ State (pb x) = Dropped ∧
             ((∃ seg2Drop, seg2Drop ∈ segs ∧ ID (pb seg2Drop) = id ∧
                           isSegmentHealthy (Some segment) = true ∧
                           (mergeDropSegment seg2Drop m).1 = Some x)
              ∨ (InsertChannel (pb segment) = channel ∧
                 x = with_pb (set_State Dropped) segment)).
Proof.
  intros Hkey. unfold dropChannelPlan.
  destruct (mergeDropSegments segs m ∅ new_segMetricMutation) as [mods mm] eqn:Hfirst.
  intros Hx. apply dropChannelSegments_lookup in Hx as [Hx|(seg & Hin & Hch & Hid & ->)].
  - assert (Hx' : (mergeDropSegments segs m ∅ new_segMetricMutation).1 !! id = Some x)
      by (by rewrite Hfirst).
    apply mergeDropSegments_lookup in Hx' as (d & Hin & Hd & Hm).
    destruct (mergeDropSegment_cases d m)
      as [[_ Hrun]|(segment & merged & Hs & Hh & Hrun & Hmid & Hmch & Hmst)].
    { rewrite Hrun in Hm. done. }
    rewrite Hrun in Hm. injection Hm as ->. rewrite Hd in Hs.
    exists segment. split; [done|]. split; [by rewrite Hmid, (Hkey _ _ Hs)|].
    split; [done|]. split; [done|]. left. exists d. rewrite Hrun. done.
  - apply stored_elem in Hin as [id' Hid']. pose proof (Hkey _ _ Hid') as Hk.
    rewrite Hid in Hk. subst id'.
    exists seg. split; [done|]. split; [done|]. split; [done|]. split; [done|]. by right.
Qed.

Lemma dropChannelPlan_channel channel segs m (id : Z) segment :
  keyed_by_id (segments m) →
  segments m !! id = Some segment → InsertChannel (pb segment) = channel →
  is_Some ((dropChannelPlan channel segs m).1 !! id).
Proof.
  intros Hkey Hs Hch. unfold dropChannelPlan.
  destruct (mergeDropSegments segs m ∅ new_segMetricMutation) as [mods mm].
  rewrite <- (Hkey _ _ Hs). apply dropChannelSegments_covers; [|done].
  apply stored_elem. eauto.
Qed.

Lemma dropChannelPlan_buffered channel segs m seg2Drop :
  seg2Drop ∈ segs →
  isSegmentHealthy (segments m !! ID (pb seg2Drop)) = true →
  is_Some ((dropChannelPlan channel segs m).1 !! ID (pb seg2Drop)).
Proof.
  intros Hin Hh. unfold dropChannelPlan.
  pose proof (mergeDropSegments_covers segs m seg2Drop Hin Hh) as [x Hx].
  destruct (mergeDropSegments segs m ∅ new_segMetricMutation) as [mods mm].
  exists x. by apply dropChannelSegments_keeps.
Qed.

Lemma UpdateDropChannelSegmentInfo_unfold channel segs m :
  UpdateDropChannelSegmentInfo channel segs m =
    match batchSaveDropSegments channel (dropChannelPlan channel segs m).1 m with
    | (m1, Some err) => (m1, Err err)
    | (m1, None) =>
        (set_metrics (commit (dropChannelPlan channel segs m).2 (metrics m1)) m1, Ok tt)
    end.
Proof.
  unfold UpdateDropChannelSegmentInfo, dropChannelPlan.
  destruct (mergeDropSegments segs m ∅ new_segMetricMutation) as [mods mm].
  by destruct (dropChannelSegments channel _ mods mm) as [mods' mm'].
Qed.

Lemma UpdateDropChannelSegmentInfo_outcome channel segs m :
  let plan := dropChannelPlan channel segs m in
  let batch := (fun kv => pb kv.2) <$> map_to_list plan.1 in
  ∃ m' r,
    UpdateDropChannelSegmentInfo channel segs m = (m', r) ∧
    channelCPs m' = channelCPs m ∧ trace m' = trace m ∧
    match catalog_SaveDroppedSegmentsInBatch batch (catalog m) with
    | (saved, Some err) => r = Err err ∧ catalog m' = saved ∧ memory_unchanged m m'
    | (saved, None) =>
        match catalog_MarkChannelDeleted channel saved with
        | (marked, Some err) => r = Err err ∧ catalog m' = marked ∧ memory_unchanged m m'
        | (marked, None) =>
            r = Ok tt ∧ catalog m' = marked ∧
            (∀ id, segments m' !! id =
                   match plan.1 !! id with
                   | Some segment => Some segment
                   | None => segments m !! id
                   end) ∧
            metrics m' = commit plan.2 (metrics m)
        end
    end.
Proof.
  cbv zeta. rewrite UpdateDropChannelSegmentInfo_unfold. unfold batchSaveDropSegments.
  destruct (channel_call _ m) as [m1 r1] eqn:Hsave.
  apply channel_call_inv in Hsave as (Hf1 & _ & Hs1 & Hc1 & Hm1 & Ht1).
  rewrite Hf1. destruct r1 as [err|].
  { eexists _, _. split; [done|]. unfold memory_unchanged. done. }
  destruct (channel_call _ m1) as [m2 r2] eqn:Hmark.
  apply channel_call_inv in Hmark as (Hf2 & _ & Hs2 & Hc2 & Hm2 & Ht2).
  rewrite Hf2. destruct r2 as [err|].
  { eexists _, _. split; [done|]. unfold memory_unchanged.
    rewrite Hc2, Hc1, Ht2, Ht1, Hs2, Hs1, Hm2, Hm1. done. }
  eexists _, _. split; [done|]. simpl.
  rewrite Hc2, Hc1, Ht2, Ht1, Hm2, Hm1. split; [done|]. split; [done|].
  split; [done|]. split; [done|]. split; [|done].
  intros id. by rewrite installSegments_lookup, Hs2, Hs1.
Qed.


Lemma UpdateDropChannelSegmentInfo_ok channel segs m m' :
  UpdateDropChannelSegmentInfo channel segs m = (m', Ok tt) →
  (∀ id, segments m' !! id =
         match (dropChannelPlan channel segs m).1 !! id with
         | Some segment => Some segment
         | None => segments m !! id
         end) ∧
  metrics m' = commit (dropChannelPlan channel segs m).2 (metrics m).
Proof.
  intros Hrun.
  destruct (UpdateDropChannelSegmentInfo_outcome channel segs m)
    as (m1 & r & Hrun' & _ & _ & Hcat).
  rewrite Hrun in Hrun'. injection Hrun' as <- <-.
  destruct (catalog_SaveDroppedSegmentsInBatch _ _) as [saved [err|]]; [by destruct Hcat|].
  destruct (catalog_MarkChannelDeleted _ _) as [marked [err|]]; [by destruct Hcat|].
  by destruct Hcat as (_ & _ & Hsegs & Hmet).
Qed.

(** X8: [UpdateDropChannelSegmentInfo] persists before it installs, in two
    calls.  When [SaveDroppedSegmentsInBatch] fails its error is returned,
    the channel is not marked and the segment map and the metrics are as
    before.  When the save succeeds and [MarkChannelDeleted] fails, the
    error is returned and the segment map and the metrics are as before,
    although the catalog has taken the dropped records.  When both succeed
    the prepared records are installed and the metric mutation is
    committed.  In every case the checkpoints and the trace of segment
    writes are untouched. *)
Theorem UpdateDropChannelSegmentInfo_persists_first channel segs m :
  let plan := dropChannelPlan channel segs m in
  let batch := (fun kv => pb kv.2) <$> map_to_list plan.1 in
  ∃ m' r,
    UpdateDropChannelSegmentInfo channel segs m = (m', r) ∧
    channelCPs m' = channelCPs m ∧ trace m' = trace m ∧
    match catalog_SaveDroppedSegmentsInBatch batch (catalog m) with
    | (saved, Some err) => r = Err err ∧ catalog m' = saved ∧ memory_unchanged m m'
    | (saved, None) =>
        match catalog_MarkChannelDeleted channel saved with
        | (marked, Some err) => r = Err err ∧ catalog m' = marked ∧ memory_unchanged m m'
        | (marked, None) =>
            r = Ok tt ∧ catalog m' = marked ∧
            (∀ id, segments m' !! id =
                   match plan.1 !! id with
                   | Some segment => Some segment
                   | None => segments m !! id
                   end) ∧
            metrics m' = commit plan.2 (metrics m)
        end
    end.
Proof. exact (UpdateDropChannelSegmentInfo_outcome channel segs m). Qed.

Lemma dropChannelPlan_merged channel segs m seg2Drop merged :
  NoDup ((fun seg => ID (pb seg)) <$> segs) →
  seg2Drop ∈ segs →
  (mergeDropSegment seg2Drop m).1 = Some merged →
  (dropChannelPlan channel segs m).1 !! ID (pb seg2Drop) = Some merged.
Proof.
  intros Hnd Hin Hm. unfold dropChannelPlan.
  pose proof (mergeDropSegments_distinct segs m seg2Drop merged Hnd Hin Hm) as Hx.
  destruct (mergeDropSegments segs m ∅ new_segMetricMutation) as [mods mm].
  by apply dropChannelSegments_keeps.
Qed.

Lemma UpdateDropChannelSegmentInfo_dropped channel segs m m' :
  keyed_by_id (segments m) →
  UpdateDropChannelSegmentInfo channel segs m = (m', Ok tt) →
  keyed_by_id (segments m') ∧
  (∀ id, is_Some (segments m' !! id) ↔ is_Some (segments m !! id)) ∧
  (∀ id segment, segments m' !! id = Some segment →
                 InsertChannel (pb segment) = channel → State (pb segment) = Dropped) ∧
  (∀ seg2Drop, seg2Drop ∈ segs →
               isSegmentHealthy (segments m' !! ID (pb seg2Drop)) = false) ∧
  (∀ id segment, segments m !! id = Some segment →
                 InsertChannel (pb segment) ≠ channel →
                 id ∉ (fun seg => ID (pb seg)) <$> segs
                 ∨ isSegmentHealthy (Some segment) = false →
                 segments m' !! id = Some segment).
Proof.
  intros Hkey Hrun. apply UpdateDropChannelSegmentInfo_ok in Hrun as [Hsegs _].
  split; [|split; [|split; [|split]]].
  - intros id x. unfold UniqueID in *. rewrite Hsegs.
    destruct ((dropChannelPlan channel segs m).1 !! id) as [y|] eqn:Hy; [|exact (Hkey id x)].
    intros [= <-]. by destruct (dropChannelPlan_lookup _ _ _ _ _ Hkey Hy) as (? & _ & ? & _).
  - intros id. unfold UniqueID in *. rewrite Hsegs.
    destruct ((dropChannelPlan channel segs m).1 !! id) as [y|] eqn:Hy; [|done].
    destruct (dropChannelPlan_lookup _ _ _ _ _ Hkey Hy) as (segment & -> & _). split; eauto.
  - intros id x. unfold UniqueID in *. rewrite Hsegs.
    destruct ((dropChannelPlan channel segs m).1 !! id) as [y|] eqn:Hy.
    + intros [= <-] _.
      by destruct (dropChannelPlan_lookup _ _ _ _ _ Hkey Hy) as (? & _ & _ & _ & ? & _).
    + intros Hx Hch. destruct (dropChannelPlan_channel channel segs m id x Hkey Hx Hch) as [z Hz].
      congruence.
  - intros seg2Drop Hin. unfold UniqueID in *. rewrite Hsegs.
    destruct ((dropChannelPlan channel segs m).1 !! (ID (pb seg2Drop) : Z)) as [y|] eqn:Hy.
    + destruct (dropChannelPlan_lookup _ _ _ _ _ Hkey Hy) as (? & _ & _ & _ & Hst & _).
      apply isSegmentHealthy_false. by left.
    + destruct (isSegmentHealthy (segments m !! ID (pb seg2Drop))) eqn:Hh; [|done].
      destruct (dropChannelPlan_buffered channel segs m seg2Drop Hin Hh) as [z Hz].
      unfold UniqueID in *. congruence.
  - intros id segment Hs Hch Hcase. unfold UniqueID in *. rewrite Hsegs.
    destruct ((dropChannelPlan channel segs m).1 !! id) as [y|] eqn:Hy; [|done].
    destruct (dropChannelPlan_lookup _ _ _ _ _ Hkey Hy)
      as (segment' & Hs' & _ & _ & _ & [(d & Hin & Hd & Hh & _)|[Hon _]]).
    + assert (segment' = segment) as -> by congruence.
      destruct Hcase as [Hnot|Hun]; [|congruence].
      destruct Hnot. rewrite <- Hd. by apply (list_elem_of_fmap_2 (fun seg => ID (pb seg))).
    + assert (segment' = segment) as -> by congruence. done.
Qed.

(** X9: a successful [UpdateDropChannelSegmentInfo] on a segment map keyed
    by the ids of its records.  The map is keyed by id again and has the
    same keys: a buffered segment that the map does not know is skipped, not
    created.  Every segment of the channel is Dropped afterwards, whatever
    its state was.  No buffered segment is healthy afterwards, also one that
    is stored under another channel.  A segment of another channel that the
    buffer does not name, or that was not healthy, is left as it was. *)
Theorem UpdateDropChannelSegmentInfo_drops_channel channel segs m m' :
  keyed_by_id (segments m) →
  UpdateDropChannelSegmentInfo channel segs m = (m', Ok tt) →
  keyed_by_id (segments m') ∧
  (∀ id, is_Some (segments m' !! id) ↔ is_Some (segments m !! id)) ∧
  (∀ id segment, segments m' !! id = Some segment →
                 InsertChannel (pb segment) = channel → State (pb segment) = Dropped) ∧
  (∀ seg2Drop, seg2Drop ∈ segs →
               isSegmentHealthy (segments m' !! ID (pb seg2Drop)) = false) ∧
  (∀ id segment, segments m !! id = Some segment →
                 InsertChannel (pb segment) ≠ channel →
                 id ∉ (fun seg => ID (pb seg)) <$> segs
                 ∨ isSegmentHealthy (Some segment) = false →
                 segments m' !! id = Some segment).
Proof. exact (UpdateDropChannelSegmentInfo_dropped channel segs m m'). Qed.

(** X10: what the buffer contributes.  When the ids of the buffered
    segments are distinct, a buffered segment whose id is stored and healthy
    is installed Dropped with the row count the buffer holds for it (both the
    persisted and the in-memory count), with the buffered insert and stats
    logs merged per field into the stored ones, the buffered delta logs
    appended to the stored ones, and with the buffered start position and
    checkpoint in place of the stored ones when the buffer has them.  Its
    identity, channel and level are the stored ones. *)
Theorem UpdateDropChannelSegmentInfo_merges_buffer channel segs m m' seg2Drop segment :
  NoDup ((fun seg => ID (pb seg)) <$> segs) →
  UpdateDropChannelSegmentInfo channel segs m = (m', Ok tt) →
  seg2Drop ∈ segs →
  segments m !! ID (pb seg2Drop) = Some segment →
  isSegmentHealthy (Some segment) = true →
  ∃ merged,
    segments m' !! ID (pb seg2Drop) = Some merged ∧
    State (pb merged) = Dropped ∧
    NumOfRows (pb merged) = currRows seg2Drop ∧ currRows merged = currRows seg2Drop ∧
    Binlogs (pb merged) = mergeFieldBinlogs (Binlogs (pb segment)) (Binlogs (pb seg2Drop)) ∧
    Statslogs (pb merged) =
      mergeFieldBinlogs (Statslogs (pb segment)) (Statslogs (pb seg2Drop)) ∧
    Deltalogs (pb merged) = Deltalogs (pb segment) ++ Deltalogs (pb seg2Drop) ∧
    StartPosition (pb merged) =
      match StartPosition (pb seg2Drop) with
      | Some p => Some p
      | None => StartPosition (pb segment)
      end ∧
    DmlPosition (pb merged) =
      match DmlPosition (pb seg2Drop) with
      | Some p => Some p
      | None => DmlPosition (pb segment)
      end ∧
    ID (pb merged) = ID (pb segment) ∧ CollectionID (pb merged) = CollectionID (pb segment) ∧
    PartitionID (pb merged) = PartitionID (pb segment) ∧
    InsertChannel (pb merged) = InsertChannel (pb segment) ∧
    Level (pb merged) = Level (pb segment).
Proof.
  intros Hnd Hrun Hin Hs Hh. apply UpdateDropChannelSegmentInfo_ok in Hrun as [Hsegs _].
  destruct (mergeDropSegment_merged _ _ _ Hs Hh)
    as (merged & Hm & Hid & Hcoll & Hpart & Hch & Hlv & Hst & Hrows & Hcur & Hb & Hsl & Hd
        & Hsp & Hdp).
  assert (Hp : (dropChannelPlan channel segs m).1 !! ID (pb seg2Drop) = Some merged).
  { apply dropChannelPlan_merged; [done|done|by rewrite Hm]. }
  exists merged. unfold UniqueID in *. rewrite Hsegs, Hp. done.
Qed.

(** X11: [UpdateDropChannelSegmentInfo] is idempotent in memory.  After a
    successful call on a segment map keyed by id, calling it again with the
    same channel and buffer finds nothing to merge and, when its two catalog
    calls succeed, leaves the segment map and the metrics exactly as the
    first call left them. *)
Theorem UpdateDropChannelSegmentInfo_idempotent channel segs m m1 m2 :
  keyed_by_id (segments m) →
  UpdateDropChannelSegmentInfo channel segs m = (m1, Ok tt) →
  UpdateDropChannelSegmentInfo channel segs m1 = (m2, Ok tt) →
  segments m2 = segments m1 ∧ metrics m2 = metrics m1 ∧
  (∀ seg2Drop, seg2Drop ∈ segs → mergeDropSegment seg2Drop m1 = (None, new_segMetricMutation)).
Proof.
  intros Hkey Hrun1 Hrun2.
  destruct (UpdateDropChannelSegmentInfo_dropped channel segs m m1 Hkey Hrun1)
    as (Hkey1 & _ & Hdropped & Hbuffer & _).
  apply UpdateDropChannelSegmentInfo_ok in Hrun2 as [Hsegs Hmet].
  assert (Hskip : ∀ seg2Drop, seg2Drop ∈ segs →
                    mergeDropSegment seg2Drop m1 = (None, new_segMetricMutation)).
  { intros seg2Drop Hin. apply mergeDropSegment_skipped. by apply Hbuffer. }
  assert (Hfirst : mergeDropSegments segs m1 ∅ new_segMetricMutation = (∅, new_segMetricMutation)).
  { clear -Hskip. induction segs as [|d segs IH] using rev_ind; [done|].
    rewrite mergeDropSegments_snoc. cbv zeta.
    rewrite Hskip by (apply elem_of_app; right; apply list_elem_of_here). simpl.
    rewrite IH; [done|]. intros seg2Drop Hin. apply Hskip. apply elem_of_app. by left. }
  assert (Hall : ∀ seg, seg ∈ (map_to_list (segments m1)).*2 →
                        InsertChannel (pb seg) = channel →
                        is_Some ((∅ : gmap Z SegmentInfo) !! ID (pb seg))
                        ∨ State (pb seg) = Dropped).
  { intros seg Hin Hch. right. apply stored_elem in Hin as [id Hid]. by apply (Hdropped id). }
  split; [|split; [|done]].
  - apply map_eq. intros id. rewrite Hsegs.
    destruct ((dropChannelPlan channel segs m1).1 !! id) as [y|] eqn:Hy; [|done].
    destruct (dropChannelPlan_lookup _ _ _ _ _ Hkey1 Hy)
      as (segment & Hs & _ & _ & _ & [(d & Hin & _ & _ & Hm)|[Hon ->]]).
    + rewrite (Hskip d Hin) in Hm. done.
    + rewrite Hs. f_equal. apply set_State_same. by apply (Hdropped id).
  - rewrite Hmet. unfold dropChannelPlan. rewrite Hfirst.
    rewrite (surjective_pairing (dropChannelSegments _ _ _ _)). simpl.
    rewrite dropChannelSegments_mutation_same by done. apply commit_new.
Qed.

(** X12: the metric mutation of [UpdateDropChannelSegmentInfo].  Each turn
    of the loop over the buffer replaces the mutation of the turn before, so
    when every segment of the channel is healthy and named by the buffer
    (the second loop has nothing to add) the mutation that a successful call
    commits is that of the last buffered segment alone: one segment moves to
    Dropped in the gauge, or none when the last buffered segment is unknown
    or not healthy, however many segments the call dropped. *)
Theorem UpdateDropChannelSegmentInfo_counts_last channel front lastSeg m m' :
  keyed_by_id (segments m) →
  (∀ id segment, segments m !! id = Some segment → InsertChannel (pb segment) = channel →
     isSegmentHealthy (Some segment) = true ∧
     id ∈ (fun seg => ID (pb seg)) <$> front ++ [lastSeg]) →
  UpdateDropChannelSegmentInfo channel (front ++ [lastSeg]) m = (m', Ok tt) →
  metrics m' = commit (mergeDropSegment lastSeg m).2 (metrics m) ∧
  (mergeDropSegment lastSeg m).2 =
    match segments m !! ID (pb lastSeg) with
    | Some segment =>
        if isSegmentHealthy (Some segment)
        then segMetricMutation_append (State (pb segment)) Dropped (Level (pb segment))
               (NumOfRows (pb segment)) new_segMetricMutation
        else new_segMetricMutation
    | None => new_segMetricMutation
    end.
Proof.
  intros Hkey Hall Hrun. apply UpdateDropChannelSegmentInfo_ok in Hrun as [_ Hmet].
  split.
  - rewrite Hmet. f_equal. unfold dropChannelPlan.
    pose proof (mergeDropSegments_mutation (front ++ [lastSeg]) m ∅ new_segMetricMutation)
      as Hmm.
    rewrite last_snoc in Hmm.
    pose proof (mergeDropSegments_covers (front ++ [lastSeg]) m) as Hcov.
    destruct (mergeDropSegments (front ++ [lastSeg]) m ∅ new_segMetricMutation)
      as [mods mm]. simpl in Hmm, Hcov. subst mm.
    rewrite dropChannelSegments_covered; [done|].
    intros seg Hin Hch. apply stored_elem in Hin as [id Hid].
    destruct (Hall id seg Hid Hch) as [Hh Hnamed].
    apply list_elem_of_fmap in Hnamed as (d & Hd & Hin).
    pose proof (Hkey _ _ Hid) as Hk. rewrite Hk, Hd.
    apply Hcov; [done|]. unfold UniqueID in *. by rewrite <- Hd, Hid.
  - unfold mergeDropSegment, GetSegment.
    destruct (segments m !! ID (pb lastSeg)) as [segment|]; [|done].
    by destruct (isSegmentHealthy (Some segment)).
Qed.

(** X25: after a successful [UpdateDropChannelSegmentInfo] on a segment map
    keyed by id the channel has no healthy segment left:
    [GetSegmentsByChannel] returns nothing for it, and no segment of the
    channel is among the unflushed or the flushing segments. *)
Theorem channel_has_no_segment_after_drop channel segs m m' :
  keyed_by_id (segments m) →
  UpdateDropChannelSegmentInfo channel segs m = (m', Ok tt) →
  GetSegmentsByChannel channel m' = [] ∧
  (∀ segment, segment ∈ GetUnFlushedSegments m' → InsertChannel (pb segment) ≠ channel) ∧
  (∀ segment, segment ∈ GetFlushingSegments m' → InsertChannel (pb segment) ≠ channel).
Proof.
  intros Hkey Hrun.
  destruct (UpdateDropChannelSegmentInfo_dropped channel segs m m' Hkey Hrun)
    as (_ & _ & Hdropped & _).
  split; [|split].
  - apply elem_of_nil_inv. intros segment Hin.
    apply elem_of_SelectSegments in Hin as (Hsel & id & Hid).
    apply andb_true_iff in Hsel as [Hh Hch]. apply bool_decide_eq_true in Hch.
    pose proof (Hdropped id segment Hid Hch) as Hst.
    unfold isSegmentHealthy in Hh. rewrite Hst in Hh. done.
  - intros segment Hin Hch.
    apply elem_of_SelectSegments in Hin as (Hsel & id & Hid).
    rewrite (Hdropped id segment Hid Hch) in Hsel. done.
  - intros segment Hin Hch.
    apply elem_of_SelectSegments in Hin as (Hsel & id & Hid).
    rewrite (Hdropped id segment Hid Hch) in Hsel. done.
Qed.

End ChannelDropFacts.

(** ** Dropping a channel checkpoint *)

Section DropCheckpointFacts.
Context {K B : Type} `{!DataCoordCatalog K} `{!DataCoordChannelCatalog K} `{!ChunkManager B}.
Variable ParseTS_Unix : Timestamp → Z.

Implicit Types m : meta K B.

(** X13: [DropChannelCheckpoint] asks the catalog first.  On an error the
    error is returned and the checkpoints are as before.  On success the
    checkpoint of the channel is gone (those of the other channels stay),
    while the checkpoint gauge and the segments are untouched; from then on
    the channel accepts any position that has a message id, whatever its
    timestamp: the save is issued and, when it succeeds, the position is the
    checkpoint again, also one older than the checkpoint that was dropped. *)
Theorem DropChannelCheckpoint_resets vChannel m :
  ∃ m' r,
    DropChannelCheckpoint vChannel m = (m', r) ∧
    segments m' = segments m ∧ metrics m' = metrics m ∧ trace m' = trace m ∧
    match catalog_DropChannelCheckpoint vChannel (catalog m) with
    | (k, Some err) => r = Err err ∧ catalog m' = k ∧ channelCPs m' = channelCPs m
    | (k, None) =>
        r = Ok tt ∧ catalog m' = k ∧
        GetChannelCheckpoint vChannel m' = None ∧
        (∀ other, other ≠ vChannel →
                  GetChannelCheckpoint other m' = GetChannelCheckpoint other m) ∧
        ∀ p, MsgID p ≠ None →
          ∃ m'' r',
            UpdateChannelCheckpoint ParseTS_Unix vChannel (Some p) m' = (m'', r') ∧
            trace m'' = trace m' ++ [CatalogSaveChannelCheckpoint vChannel p] ∧
            match catalog_SaveChannelCheckpoint vChannel p k with
            | (_, None) => r' = Ok tt ∧ GetChannelCheckpoint vChannel m'' = Some p
            | (_, Some err) => r' = Err err ∧ GetChannelCheckpoint vChannel m'' = None
            end
    end.
Proof.
  unfold DropChannelCheckpoint.
  destruct (channel_call _ m) as [m1 r1] eqn:Hcall.
  apply channel_call_inv in Hcall as (Hf & _ & Hs & Hc & Hm & Ht).
  rewrite Hf. destruct r1 as [err|]; eexists _, _; (split; [done|]); simpl.
  { done. }
  split; [done|]. split; [done|]. split; [done|].
  split; [done|]. split; [done|].
  set (m' := set_channelCPs (delete vChannel (channelCPs m1)) m1).
  assert (Hgone : GetChannelCheckpoint vChannel m' = None).
  { unfold GetChannelCheckpoint. simpl. apply lookup_delete_eq. }
  split; [exact Hgone|]. split.
  { intros other Hne. unfold GetChannelCheckpoint. simpl.
    by rewrite lookup_delete_ne, Hc. }
  intros p Hid.
  destruct (UpdateChannelCheckpoint_newer ParseTS_Unix vChannel p m' Hid)
    as (m'' & r' & Hrun & Htr & Hcat).
  { unfold newer. unfold GetChannelCheckpoint in Hgone. by rewrite Hgone. }
  exists m'', r'. split; [done|]. split; [done|].
  change (catalog m') with (catalog m1) in Hcat.
  destruct (catalog_SaveChannelCheckpoint vChannel p (catalog m1)) as [k' [err|]].
  - destruct Hcat as (-> & _ & Hcp). split; [done|].
    unfold GetChannelCheckpoint in *. by rewrite Hcp.
  - destruct Hcat as (-> & _ & Hcp). split; [done|].
    unfold GetChannelCheckpoint. rewrite Hcp. apply lookup_insert_eq.
Qed.

End DropCheckpointFacts.

(** ** The segment map stays keyed by id *)

Lemma keyed_by_id_insert (s : gmap Z SegmentInfo) (id : Z) segment :
  keyed_by_id s → ID (pb segment) = id → keyed_by_id (<[id := segment]> s).
Proof.
  intros Hkey Hid id' x Hx. unfold UniqueID in *.
  apply lookup_insert_Some in Hx as [[<- <-]|[_ Hx]]; [done|by apply Hkey].
Qed.

Lemma keyed_by_id_delete (s : gmap Z SegmentInfo) (id : Z) :
  keyed_by_id s → keyed_by_id (delete id s).
Proof.
  intros Hkey id' x Hx. unfold UniqueID in *.
  apply lookup_delete_Some in Hx as [_ Hx]. by apply (Hkey _ _).
Qed.

Lemma keyed_by_id_install (updated s : gmap Z SegmentInfo) :
  keyed_by_id updated → keyed_by_id s → keyed_by_id (installSegments updated s).
Proof.
  intros Hu Hs id x. unfold UniqueID in *. rewrite installSegments_lookup.
  destruct (updated !! id) as [y|] eqn:Hy; [intros [= <-]; by apply Hu|apply Hs].
Qed.

Lemma keyed_by_id_installed (l : list SegmentInfo) (s : gmap Z SegmentInfo) :
  keyed_by_id s →
  keyed_by_id (fold_left (fun acc info => SetSegment (ID (pb info)) info acc) l s).
Proof.
  revert s. induction l as [|info l IH]; intros s Hs; [done|].
  simpl. apply IH. by apply keyed_by_id_insert.
Qed.

Section KeyedFacts.
Context {K B : Type} `{!DataCoordCatalog K} `{!ChunkManager B}.
Variable CalcRowCountFromBinLog : datapb_SegmentInfo → Z.
Variable ParseTS_Unix : Timestamp → Z.

Implicit Types m : meta K B.
Implicit Types p : updateSegmentPack (K:=K) (B:=B).

Lemma Get_keyed m p (segmentID : UniqueID) p' found :
  keyed_by_id (segments m) → pack_of m p →
  Get segmentID p = (p', found) →
  pack_of m p' ∧
  ∀ segment, found = Some segment →
             p_segments p' !! segmentID = Some segment ∧ ID (pb segment) = segmentID.
Proof.
  intros Hkey [Hm Hp]. unfold Get, GetSegment, Clone.
  destruct (p_segments p !! segmentID) as [segment|] eqn:Hs.
  - intros [= <- <-]. split; [done|]. intros ? [= <-]. split; [done|]. by apply (Hp _ _).
  - rewrite Hm. destruct (segments m !! segmentID) as [segment|] eqn:Hs'.
    + destruct (isSegmentHealthy (Some segment)); intros [= <- <-].
      * split.
        -- split; [done|]. simpl. apply keyed_by_id_insert; [done|]. by apply (Hkey _ _).
        -- intros ? [= <-]. simpl. rewrite lookup_insert_eq. split; [done|]. by apply (Hkey _ _).
      * done.
    + by intros [= <- <-].
Qed.

Lemma put_keyed m p (segmentID : UniqueID) segment :
  pack_of m p → ID (pb segment) = segmentID → pack_of m (put segmentID segment p).
Proof.
  intros [Hm Hp] Hid. split; [done|]. simpl. by apply keyed_by_id_insert.
Qed.

Lemma applyCheckPoints_ID segmentID checkpoints segment segment' :
  applyCheckPoints segmentID checkpoints segment = Some segment' →
  ID (pb segment') = ID (pb segment).
Proof.
  revert segment. induction checkpoints as [|cp cps IH]; intros segment; simpl.
  - by intros [= <-].
  - repeat case_match; try done; intros Hrun; by rewrite (IH _ Hrun).
Qed.

Lemma healRowCount_ID segment :
  ID (pb (healRowCount CalcRowCountFromBinLog segment)) = ID (pb segment).
Proof. unfold healRowCount. by case_match. Qed.

Lemma provided_operator_keyed m (op : UpdateOperator) p p' proceed :
  keyed_by_id (segments m) →
  provided_operator CalcRowCountFromBinLog op →
  pack_of m p → op p = Some (p', proceed) → pack_of m p'.
Proof.
  intros Hkey Hop Hp.
  destruct Hop as [collectionID partitionID segmentID channel|segmentID version
                   |segmentID status now|segmentID|segmentID binlogs statslogs deltalogs
                   |startPositions|segmentID importing checkpoints].
  - unfold CreateL0Operator. destruct (GetSegment _ _); [by intros [= <- <-]|].
    intros [= <- <-]. destruct Hp as [Hm Hp]. split; [done|]. simpl.
    by apply keyed_by_id_insert.
  - unfold UpdateStorageVersionOperator.
    destruct (Get segmentID p) as [p1 [segment|]] eqn:Hget; [|by intros [= <- <-]].
    destruct (Get_keyed _ _ _ _ _ Hkey Hp Hget) as [Hp1 Hfound].
    destruct (Hfound _ eq_refl) as [_ Hid]. intros [= <- <-]. by apply put_keyed.
  - unfold UpdateStatusOperator.
    destruct (Get segmentID p) as [p1 [segment|]] eqn:Hget; [|by intros [= <- <-]].
    destruct (Get_keyed _ _ _ _ _ Hkey Hp Hget) as [[Hm1 Hp1] Hfound].
    destruct (Hfound _ eq_refl) as [_ Hid]. simpl. intros [= <- <-].
    split; [done|]. simpl. apply keyed_by_id_insert; [done|].
    by destruct (bool_decide (status = Dropped)).
  - unfold UpdateCompactedOperator.
    destruct (Get segmentID p) as [p1 [segment|]] eqn:Hget; [|by intros [= <- <-]].
    destruct (Get_keyed _ _ _ _ _ Hkey Hp Hget) as [Hp1 Hfound].
    destruct (Hfound _ eq_refl) as [_ Hid]. intros [= <- <-]. by apply put_keyed.
  - unfold UpdateBinlogsOperator.
    destruct (Get segmentID p) as [p1 [segment|]] eqn:Hget; [|by intros [= <- <-]].
    destruct (Get_keyed _ _ _ _ _ Hkey Hp Hget) as [[Hm1 Hp1] Hfound].
    destruct (Hfound _ eq_refl) as [_ Hid]. intros [= <- <-].
    split; [done|]. simpl. by apply keyed_by_id_insert.
  - unfold UpdateStartPosition. intros [= <- <-].
    revert p Hp. induction startPositions as [|pos rest IH]; intros p Hp; [done|].
    simpl. apply IH. destruct (emptyMsgID (ssp_StartPosition pos)); [done|].
    destruct (Get (ssp_SegmentID pos) p) as [p1 [segment|]] eqn:Hget; [|done].
    destruct (Get_keyed _ _ _ _ _ Hkey Hp Hget) as [Hp1 Hfound].
    destruct (Hfound _ eq_refl) as [_ Hid]. by apply put_keyed.
  - unfold UpdateCheckPointOperator.
    destruct (Get segmentID p) as [p1 [segment|]] eqn:Hget; [|by intros [= <- <-]].
    destruct (Get_keyed _ _ _ _ _ Hkey Hp Hget) as [Hp1 Hfound].
    destruct (Hfound _ eq_refl) as [_ Hid].
    destruct importing.
    + intros [= <- <-]. apply put_keyed; [done|]. by rewrite healRowCount_ID.
    + destruct (applyCheckPoints segmentID checkpoints segment) as [segment'|] eqn:Hcp; [|done].
      intros [= <- <-]. apply put_keyed; [done|].
      by rewrite healRowCount_ID, (applyCheckPoints_ID _ _ _ _ Hcp).
Qed.

Lemma runOperators_keyed m (operators : list UpdateOperator) p p' :
  keyed_by_id (segments m) →
  Forall (provided_operator CalcRowCountFromBinLog) operators →
  pack_of m p → runOperators operators p = Proceed p' → pack_of m p'.
Proof.
  intros Hkey Hall. revert p. induction Hall as [|op ops Hop _ IH]; intros p Hp; simpl.
  - by intros [= <-].
  - destruct (op p) as [[p1 [|]]|] eqn:Hrun; [|done|done].
    apply IH. by apply (provided_operator_keyed m op p p1 true).
Qed.

(** X14: the operations of the engine keep the segment map keyed by the ids
    of its records, whatever the catalog and the blob store answer:
    [AddSegment], [DropSegment], [SetState], [UnsetIsImporting],
    [SetLastExpire], [UpdateSegmentsInfo] with the operators that meta.go
    provides, [CompleteCompactionMutation], [UpdateChannelCheckpoint], and
    [UpdateSegment] with operators that leave the id of the clone alone. *)
Theorem keyed_by_id_preserved m :
  keyed_by_id (segments m) →
  (∀ segment, keyed_by_id (segments (AddSegment segment m).1)) ∧
  (∀ segmentID, keyed_by_id (segments (DropSegment segmentID m).1)) ∧
  (∀ segmentID targetState, keyed_by_id (segments (SetState segmentID targetState m).1)) ∧
  (∀ segmentID, keyed_by_id (segments (UnsetIsImporting segmentID m).1)) ∧
  (∀ segmentID lastExpire m',
     SetLastExpire segmentID lastExpire m = Some m' → keyed_by_id (segments m')) ∧
  (∀ operators : list UpdateOperator,
     Forall (provided_operator CalcRowCountFromBinLog) operators →
     keyed_by_id (segments (UpdateSegmentsInfo operators m).1)) ∧
  (∀ plan planResult now,
     keyed_by_id (segments (CompleteCompactionMutation plan planResult now m).1)) ∧
  (∀ vChannel pos,
     keyed_by_id (segments (UpdateChannelCheckpoint ParseTS_Unix vChannel pos m).1)) ∧
  (∀ segmentID (operators : list SegmentOperator),
     Forall (fun operator : SegmentOperator =>
               ∀ cloned, ID (pb (operator cloned).1) = ID (pb cloned)) operators →
     keyed_by_id (segments (UpdateSegment segmentID operators m).1)).
Proof.
  intros Hkey. repeat split.
  - intros segment. unfold AddSegment.
    catalog_cases m r Hf Hseg Hcp Hmet Htr.
    destruct r; simpl; [by rewrite Hseg|]. rewrite Hseg. by apply keyed_by_id_insert.
  - intros segmentID. unfold DropSegment, GetSegment.
    destruct (segments m !! segmentID) as [segment|]; [|done].
    catalog_cases m r Hf Hseg Hcp Hmet Htr.
    destruct r; simpl; [by rewrite Hseg|]. rewrite Hseg. by apply keyed_by_id_delete.
  - intros segmentID targetState. unfold SetState, GetSegment, Clone.
    destruct (segments m !! segmentID) as [cur|] eqn:Hcur.
    2:{ by destruct (bool_decide (targetState = Dropped)). }
    destruct (isSegmentHealthy (Some cur)); [|done]. simpl.
    catalog_cases m r Hf Hseg Hcp Hmet Htr.
    destruct r; simpl; [by rewrite Hseg|]. unfold SetState_store. rewrite Hseg, Hcur.
    apply keyed_by_id_insert; [done|]. exact (Hkey _ _ Hcur).
  - intros segmentID. unfold UnsetIsImporting, GetSegment, Clone.
    destruct (segments m !! segmentID) as [cur|] eqn:Hcur; [|done].
    assert (Hin : ∀ m1 : meta K B, segments m1 = segments m →
              keyed_by_id (SetIsImporting_store segmentID false (segments m1))).
    { intros m1 ->. unfold SetIsImporting_store. rewrite Hcur.
      apply keyed_by_id_insert; [done|]. exact (Hkey _ _ Hcur). }
    destruct (isSegmentHealthy _); [|by apply Hin].
    catalog_cases m r Hf Hseg Hcp Hmet Htr.
    destruct r; simpl; [by rewrite Hseg|]. by apply Hin.
  - intros segmentID lastExpire m'. unfold SetLastExpire, GetSegment, Clone.
    destruct (segments m !! segmentID) as [cur|] eqn:Hcur; [|done].
    intros [= <-]. simpl. apply keyed_by_id_insert; [done|]. exact (Hkey _ _ Hcur).
  - intros operators Hall. unfold UpdateSegmentsInfo.
    destruct (runOperators operators (newPack m)) as [p| |] eqn:Hrun; [|done|done].
    assert (Hp : pack_of m p).
    { apply (runOperators_keyed m operators (newPack m)); [done|done| |done].
      split; [done|]. intros id x Hx. simpl in Hx. by apply lookup_empty_Some in Hx. }
    catalog_cases m r Hf Hseg Hcp Hmet Htr.
    destruct r; simpl; [by rewrite Hseg|]. rewrite Hseg.
    apply keyed_by_id_install; [apply Hp|done].
  - intros plan planResult now.
    destruct (planSources (SegmentBinlogs plan) (segments m)) as [srcs|] eqn:Hsrc.
    + destruct (CompleteCompactionMutation plan planResult now m) as [m' r] eqn:Hrun.
      destruct (CompleteCompactionMutation_outcome _ _ _ _ _ _ _ Hsrc Hrun)
        as (_ & _ & new & _ & [(Hsame & _)|Hok]); simpl.
      { by rewrite Hsame. }
      destruct Hok as (compactTo & first & copies & _ & _ & _ & _ & Hres).
      cbv zeta in Hres. destruct Hres as [_ Hres].
      destruct (catalog_AlterSegments _ _ (catalog m)) as [k [err|]].
      * destruct Hres as (_ & _ & ->). done.
      * destruct Hres as (_ & _ & ->).
        apply keyed_by_id_insert; [|done]. by apply keyed_by_id_installed.
    + unfold CompleteCompactionMutation.
      destruct (dropSources_missing now 0 _ _ [] [] new_segMetricMutation Hsrc) as [err ->].
      done.
  - intros vChannel pos. unfold UpdateChannelCheckpoint.
    destruct pos as [p|]; [|done]. destruct (MsgID p); [|done].
    destruct (match channelCPs m !! vChannel with Some _ => _ | None => _ end); [|done].
    catalog_cases m r Hf Hseg Hcp Hmet Htr.
    destruct r; simpl; by rewrite Hseg.
  - intros segmentID operators Hall. unfold UpdateSegment, GetSegment, Clone.
    destruct (segments m !! segmentID) as [info|] eqn:Hinfo; [|done].
    destruct (applySegmentOperators operators info) as [cloned updated] eqn:Hops.
    assert (Hid : ID (pb cloned) = ID (pb info)).
    { unfold applySegmentOperators in Hops. revert Hops. clear -Hall. intros Hops.
      assert (Hgen : ∀ c u c' u', ID (pb c) = ID (pb info) →
                fold_left (fun '(c, updated) operator =>
                             if updated : bool then (c, true) else operator c)
                  operators (c, u) = (c', u') → ID (pb c') = ID (pb info)).
      { clear Hops. induction Hall as [|op ops Hop _ IH]; intros c u c' u' Hc; simpl.
        - by intros [= <- <-].
        - destruct u; [intros Hf; exact (IH _ _ _ _ Hc Hf)|].
          destruct (op c) as [c1 u1] eqn:Hrun. intros Hf.
          refine (IH c1 u1 _ _ _ Hf).
          rewrite <- Hc. specialize (Hop c). by rewrite Hrun in Hop. }
      by apply (Hgen info false cloned updated). }
    destruct updated; simpl; [|done].
    catalog_cases m r Hf Hseg Hcp Hmet Htr.
    destruct r; simpl; [by rewrite Hseg|]. rewrite Hseg.
    apply keyed_by_id_insert; [done|]. rewrite Hid. exact (Hkey _ _ Hinfo).
Qed.

End KeyedFacts.

(** ** Edge cases of the pipeline *)

Section PipelineEdges.
Context {K B : Type} `{!DataCoordCatalog K} `{!ChunkManager B}.
Variable CalcRowCountFromBinLog : datapb_SegmentInfo → Z.

Implicit Types m : meta K B.
Implicit Types p : updateSegmentPack (K:=K) (B:=B).

Lemma Get_unknown (segmentID : UniqueID) p :
  p_segments p !! segmentID = None →
  isSegmentHealthy (segments (p_meta p) !! segmentID) = false →
  Get segmentID p = (p, None).
Proof.
  intros Hp Hh. unfold Get, GetSegment. rewrite Hp.
  destruct (segments (p_meta p) !! segmentID) as [s|]; [|done]. by rewrite Hh.
Qed.

(** X15: an update that names a segment the map does not hold, or holds
    Dropped (or in state None or NotExist), is skipped in silence.  Each of
    the five operators that look the segment up returns false, so
    [UpdateSegmentsInfo] with such an operator in front returns nil at once:
    no catalog call, no change, no error, and the operators behind it are
    not run. *)
Theorem unknown_segment_skips_transaction (segmentID : UniqueID) m
    (rest : list UpdateOperator) :
  isSegmentHealthy (segments m !! segmentID) = false →
  (∀ version,
     UpdateSegmentsInfo (UpdateStorageVersionOperator segmentID version :: rest) m
     = (m, Ok tt)) ∧
  (∀ status now,
     UpdateSegmentsInfo (UpdateStatusOperator segmentID status now :: rest) m = (m, Ok tt)) ∧
  UpdateSegmentsInfo (UpdateCompactedOperator segmentID :: rest) m = (m, Ok tt) ∧
  (∀ binlogs statslogs deltalogs,
     UpdateSegmentsInfo
       (UpdateBinlogsOperator segmentID binlogs statslogs deltalogs :: rest) m = (m, Ok tt)) ∧
  (∀ importing checkpoints,
     UpdateSegmentsInfo
       (UpdateCheckPointOperator CalcRowCountFromBinLog segmentID importing checkpoints
        :: rest) m = (m, Ok tt)).
Proof.
  intros Hh.
  assert (Hget : Get segmentID (newPack m) = (newPack m, None)).
  { apply Get_unknown; [apply lookup_empty|done]. }
  repeat split; intros; unfold UpdateSegmentsInfo; simpl;
    unfold UpdateStorageVersionOperator, UpdateStatusOperator, UpdateCompactedOperator,
      UpdateBinlogsOperator, UpdateCheckPointOperator; by rewrite Hget.
Qed.

Lemma UpdateStartPosition_unknown (startPositions : list SegmentStartPosition) p :
  Forall (fun pos => emptyMsgID (ssp_StartPosition pos) = true
                     ∨ (p_segments p !! ssp_SegmentID pos = None ∧
                        isSegmentHealthy (segments (p_meta p) !! ssp_SegmentID pos) = false))
    startPositions →
  UpdateStartPosition startPositions p = Some (p, true).
Proof.
  intros Hall. unfold UpdateStartPosition. do 2 f_equal.
  induction Hall as [|pos rest Hpos _ IH]; [done|]. simpl.
  destruct Hpos as [->|[Hp Hh]]; [done|].
  destruct (emptyMsgID (ssp_StartPosition pos)); [done|].
  by rewrite Get_unknown.
Qed.

(** X16: a transaction that ends with an empty pack still goes to the
    catalog.  For the empty operator list, for [CreateL0Operator] on an id
    the map already holds, and for [UpdateStartPosition] with positions that
    have no message id or name segments that are unknown or not healthy,
    [UpdateSegmentsInfo] issues exactly one [AlterSegments] call with no
    segment and no increment and returns what the catalog answers; the
    segment map and the metrics are as before in either case. *)
Theorem UpdateSegmentsInfo_empty_batch (operators : list UpdateOperator) m :
  operators = []
  ∨ (∃ collectionID partitionID segmentID channel,
       operators = [CreateL0Operator collectionID partitionID segmentID channel] ∧
       is_Some (segments m !! segmentID))
  ∨ (∃ startPositions,
       operators = [UpdateStartPosition startPositions] ∧
       Forall (fun pos => emptyMsgID (ssp_StartPosition pos) = true
                          ∨ isSegmentHealthy (segments m !! ssp_SegmentID pos) = false)
         startPositions) →
  ∃ m' r,
    UpdateSegmentsInfo operators m = (m', r) ∧
    trace m' = trace m ++ [CatalogAlterSegments [] []] ∧
    memory_unchanged m m' ∧
    match catalog_AlterSegments [] [] (catalog m) with
    | (k, None) => r = Ok tt ∧ catalog m' = k
    | (k, Some err) => r = Err err ∧ catalog m' = k
    end.
Proof.
  intros Hops.
  assert (Hrun : runOperators operators (newPack m) = Proceed (newPack m)).
  { destruct Hops as [->|[(c & pt & id & ch & -> & [s Hs])|(sps & -> & Hall)]];
      cbn [runOperators].
    - done.
    - unfold CreateL0Operator, GetSegment. simpl. by rewrite Hs.
    - rewrite UpdateStartPosition_unknown; [done|].
      eapply Forall_impl; [exact Hall|]. intros pos [?|?]; [by left|right].
      split; [apply lookup_empty|done]. }
  destruct (UpdateSegmentsInfo_proceed _ _ _ Hrun) as (m' & r & Hres & Htr & Hcat).
  assert (Hsegs : packSegments (newPack m) = []).
  { unfold packSegments. simpl. by rewrite map_to_list_empty. }
  assert (Hincs : packIncrements (newPack m) = []).
  { unfold packIncrements. simpl. by rewrite map_to_list_empty. }
  rewrite Hsegs, Hincs in Htr, Hcat.
  exists m', r. split; [done|]. split; [done|].
  destruct (catalog_AlterSegments [] [] (catalog m)) as [k [err|]].
  - destruct Hcat as (-> & -> & Hmem). done.
  - destruct Hcat as (-> & -> & Hlook & Hmet). split; [|done]. split.
    + apply map_eq. intros id. rewrite Hlook. simpl. by rewrite lookup_empty.
    + rewrite Hmet. simpl. apply commit_new.
Qed.

(** *** UpdateSegment *)

Lemma applied_stays (operators : list SegmentOperator) cloned :
  fold_left (fun '(c, updated) (operator : SegmentOperator) =>
               if updated : bool then (c, true) else operator c)
    operators (cloned, true) = (cloned, true).
Proof. induction operators as [|op ops IH]; [done|exact IH]. Qed.

Lemma applied_app (pre post : list SegmentOperator) cloned (updated : bool) :
  fold_left (fun '(c, updated) (operator : SegmentOperator) =>
               if updated : bool then (c, true) else operator c)
    (pre ++ post) (cloned, updated) =
    let '(c, updated') :=
      fold_left (fun '(c, updated) (operator : SegmentOperator) =>
                   if updated : bool then (c, true) else operator c)
        pre (cloned, updated) in
    if updated' then (c, true) else applySegmentOperators post c.
Proof.
  revert cloned updated.
  induction pre as [|op pre IH]; intros cloned updated; simpl.
  - destruct updated; [apply applied_stays|done].
  - destruct updated; [apply IH|]. destruct (op cloned) as [c u]. apply IH.
Qed.

Lemma applySegmentOperators_app (pre post : list SegmentOperator) cloned :
  applySegmentOperators (pre ++ post) cloned =
    let '(c, updated) := applySegmentOperators pre cloned in
    if updated then (c, true) else applySegmentOperators post c.
Proof. apply applied_app. Qed.

(** X17: [UpdateSegment] stops at the first operator that reports a change.
    Once the operators applied so far have reported a change, the operators
    that follow are never applied: the call writes and installs the clone as
    the first part left it.  When no operator reports a change the call
    returns nil without a catalog call and nothing changes, also when the
    operators did modify the clone they were given. *)
Theorem UpdateSegment_first_change (segmentID : UniqueID) (pre post : list SegmentOperator)
    m info cloned :
  segments m !! segmentID = Some info →
  (applySegmentOperators pre info = (cloned, true) →
   applySegmentOperators (pre ++ post) info = (cloned, true) ∧
   UpdateSegment segmentID (pre ++ post) m = UpdateSegment segmentID pre m ∧
   ∃ m' r, UpdateSegment segmentID (pre ++ post) m = (m', r) ∧
     trace m' = trace m ++ [CatalogAlterSegments [pb cloned] []] ∧
     match catalog_AlterSegments [pb cloned] [] (catalog m) with
     | (_, None) => r = Ok tt ∧ segments m' = <[segmentID := cloned]> (segments m)
     | (_, Some err) => r = Err err ∧ segments m' = segments m
     end) ∧
  (applySegmentOperators pre info = (cloned, false) →
   UpdateSegment segmentID pre m = (m, Ok tt)).
Proof.
  intros Hinfo. split.
  - intros Hpre.
    assert (Happ : applySegmentOperators (pre ++ post) info = (cloned, true)).
    { by rewrite applySegmentOperators_app, Hpre. }
    split; [done|]. split.
    + unfold UpdateSegment, GetSegment, Clone. by rewrite Hinfo, Happ, Hpre.
    + unfold UpdateSegment, GetSegment, Clone. rewrite Hinfo, Happ. simpl.
      catalog_cases m r Hf Hseg Hcp Hmet Htr.
      rewrite Hf. destruct r as [err|]; eexists _, _; (split; [done|]); simpl.
      * done.
      * unfold SetSegment. by rewrite Hseg.
  - intros Hpre. unfold UpdateSegment, GetSegment, Clone. by rewrite Hinfo, Hpre.
Qed.

End PipelineEdges.

(** ** Committing a metric mutation *)

Lemma gauge_add_value (key : string * string) (d : Z) (g : gmap (string * string) Z)
    (key' : string * string) :
  default 0 (gauge_add key d g !! key') =
    default 0 (g !! key') + (if decide (key' = key) then d else 0).
Proof.
  unfold gauge_add. destruct (decide (key' = key)) as [->|Hne].
  - by rewrite lookup_insert_eq.
  - rewrite lookup_insert_ne by done. lia.
Qed.

Lemma commit_level (level : string) (sub : gmap string Z) (acc : gmap (string * string) Z)
    (st lv : string) :
  default 0 (map_fold (fun state change acc' => gauge_add (state, level) change acc') acc sub
             !! (st, lv)) =
    default 0 (acc !! (st, lv)) + (if decide (lv = level) then default 0 (sub !! st) else 0).
Proof.
  apply (map_fold_weak_ind
           (fun r (sub' : gmap string Z) =>
              default 0 (r !! (st, lv)) =
                default 0 (acc !! (st, lv))
                + (if decide (lv = level) then default 0 (sub' !! st) else 0))).
  - rewrite lookup_empty. simpl. destruct (decide (lv = level)); lia.
  - intros state change sub' r Hfresh IH. rewrite gauge_add_value, IH.
    destruct (decide (lv = level)) as [->|Hlv].
    + destruct (decide (st = state)) as [->|Hst].
      * rewrite decide_True by done. rewrite lookup_insert_eq, Hfresh. simpl. lia.
      * rewrite decide_False by congruence. rewrite lookup_insert_ne by done. lia.
    + rewrite decide_False by congruence. lia.
Qed.

Lemma commit_value (s : segMetricMutation) (reg : Metrics) (state level : string) :
  gaugeValue (commit s reg) state level =
    gaugeValue reg state level + default 0 (stateChange s !! level ≫= (.!! state)).
Proof.
  unfold gaugeValue, commit. simpl.
  apply (map_fold_weak_ind
           (fun r (sc : gmap string (gmap string Z)) =>
              default 0 (r !! (state, level)) =
                default 0 (DataCoordNumSegments reg !! (state, level))
                + default 0 (sc !! level ≫= (.!! state)))).
  - rewrite lookup_empty. simpl. lia.
  - intros lv sub sc r Hfresh IH. rewrite commit_level, IH.
    destruct (decide (level = lv)) as [->|Hlv].
    + rewrite lookup_insert_eq, Hfresh. simpl. lia.
    + rewrite lookup_insert_ne by done. lia.
Qed.

(** X18: what [commit] does to the registry.  Every (state, level) gauge
    moves by the pending change the mutation holds for that level and state
    (by nothing when it holds none), the stored-rows counter grows by the
    accumulated row change, and the checkpoint gauge is untouched.  The
    row-count change of the mutation plays no part: two mutations that differ
    only there commit to the same registry. *)
Theorem commit_moves_gauges (s : segMetricMutation) (reg : Metrics) :
  (∀ state level : string,
     gaugeValue (commit s reg) state level =
       gaugeValue reg state level + default 0 (stateChange s !! level ≫= (.!! state))) ∧
  DataCoordNumStoredRowsCounter (commit s reg) =
    DataCoordNumStoredRowsCounter reg + rowCountAccChange s ∧
  DataCoordCheckpointUnixSeconds (commit s reg) = DataCoordCheckpointUnixSeconds reg ∧
  (∀ rows,
     commit {| stateChange := stateChange s; rowCountChange := rows;
               rowCountAccChange := rowCountAccChange s |} reg = commit s reg).
Proof.
  split; [intros state level; apply commit_value|]. done.
Qed.

(** The pending change of a single transition. *)
Lemma append_new_value (oldState newState : SegmentState) (level : SegmentLevel) (rows : Z)
    (state : SegmentState) (lv : SegmentLevel) :
  default 0 (stateChange (segMetricMutation_append oldState newState level rows
                            new_segMetricMutation)
             !! SegmentLevel_String lv ≫= (.!! SegmentState_String state)) =
    if bool_decide (lv = level ∧ oldState ≠ newState)
    then (if bool_decide (state = newState) then 1 else 0)
         - (if bool_decide (state = oldState) then 1 else 0)
    else 0.
Proof.
  rewrite append_stateChange. simpl.
  destruct (bool_decide_reflect (oldState ≠ newState)) as [Hne|Heq].
  2:{ rewrite lookup_empty. simpl. rewrite bool_decide_eq_false_2; [done|tauto]. }
  destruct (decide (lv = level)) as [->|Hlv].
  2:{ rewrite lookup_insert_ne by (intros H; by apply SegmentLevel_String_inj in H).
      rewrite lookup_empty. simpl. rewrite bool_decide_eq_false_2; [done|tauto]. }
  rewrite lookup_insert_eq, bool_decide_eq_true_2 by done. simpl.
  unfold submap. rewrite lookup_empty. simpl.
  destruct (decide (state = newState)) as [->|Hnew].
  - rewrite bump_lookup, bump_lookup_ne by (intros H; by apply SegmentState_String_inj in H).
    rewrite lookup_empty. simpl.
    rewrite bool_decide_eq_true_2, bool_decide_eq_false_2 by congruence. done.
  - rewrite bump_lookup_ne by (intros H; apply SegmentState_String_inj in H; congruence).
    rewrite (bool_decide_eq_false_2 (state = newState)) by done.
    destruct (decide (state = oldState)) as [->|Hold].
    + rewrite bump_lookup, lookup_empty, bool_decide_eq_true_2 by done. done.
    + rewrite bump_lookup_ne by (intros H; apply SegmentState_String_inj in H; congruence).
      rewrite lookup_empty, bool_decide_eq_false_2 by done. done.
Qed.

Section GaugeFacts.
Context {K B : Type} `{!DataCoordCatalog K} `{!ChunkManager B}.

Implicit Types m : meta K B.

(** X19: a successful [SetState] of a healthy segment keeps the segment
    gauge in step with the map.  When the state changes, the gauge of the
    segment's level and new state goes up by one, that of its level and old
    state goes down by one, and no other gauge moves; when it does not
    change no gauge moves.  The stored-rows counter grows by the segment's
    rows when the segment is newly flushed (target Flushing or Flushed from
    a state that is neither) and stays otherwise. *)
Theorem SetState_moves_gauge (segmentID : UniqueID) targetState m m' cur :
  segments m !! segmentID = Some cur →
  isSegmentHealthy (Some cur) = true →
  SetState segmentID targetState m = (m', Ok tt) →
  (∀ state level,
     gaugeValue (metrics m') (SegmentState_String state) (SegmentLevel_String level) =
       gaugeValue (metrics m) (SegmentState_String state) (SegmentLevel_String level)
       + (if bool_decide (level = Level (pb cur) ∧ State (pb cur) ≠ targetState)
          then (if bool_decide (state = targetState) then 1 else 0)
               - (if bool_decide (state = State (pb cur)) then 1 else 0)
          else 0)) ∧
  DataCoordNumStoredRowsCounter (metrics m') =
    DataCoordNumStoredRowsCounter (metrics m)
    + (if isFlushState targetState && negb (isFlushState (State (pb cur)))
       then wrap64 (NumOfRows (pb cur)) else 0) ∧
  State ∘ pb <$> segments m' !! segmentID = Some targetState.
Proof.
  intros Hcur Hh Hrun.
  destruct (SetState_atomic segmentID targetState m cur Hcur Hh) as (m1 & r & Hrun' & Hcat).
  rewrite Hrun in Hrun'. injection Hrun' as <- <-.
  destruct (catalog_AlterSegments _ _ (catalog m)) as [k [err|]]; [by destruct Hcat|].
  destruct Hcat as (_ & _ & Hsegs & Hmet). rewrite Hmet. split; [|split].
  - intros state level. by rewrite commit_value, append_new_value.
  - unfold commit, segMetricMutation_append. simpl.
    destruct (isFlushState targetState && negb (isFlushState (State (pb cur)))); [done|].
    by destruct (bool_decide (targetState = Dropped) && _).
  - rewrite Hsegs, lookup_insert_eq. done.
Qed.

(** X20: adding a segment under a fresh id and dropping it again.  After
    the successful [AddSegment] the segment is what [GetSegment] returns for
    its id, and what [GetHealthySegment] returns exactly when its state is
    healthy; after the successful [DropSegment] the segment map is the one
    from before the two calls and every segment gauge reads as before; the
    catalog has been called twice, to add and to drop the record. *)
Theorem AddSegment_DropSegment_round_trip segment m m1 m2 :
  segments m !! ID (pb segment) = None →
  AddSegment segment m = (m1, Ok tt) →
  DropSegment (ID (pb segment)) m1 = (m2, Ok tt) →
  GetSegment (segments m1) (ID (pb segment)) = Some segment ∧
  GetHealthySegment (ID (pb segment)) m1 =
    (if isSegmentHealthy (Some segment) then Some segment else None) ∧
  gaugeValue (metrics m1) (segment_labels (pb segment)).1 (segment_labels (pb segment)).2 =
    gaugeValue (metrics m) (segment_labels (pb segment)).1 (segment_labels (pb segment)).2 + 1 ∧
  segments m2 = segments m ∧
  (∀ state level : string,
     gaugeValue (metrics m2) state level = gaugeValue (metrics m) state level) ∧
  trace m2 = trace m ++ [CatalogAddSegment (pb segment); CatalogDropSegment (pb segment)].
Proof.
  intros Hfresh Hadd Hdrop.
  unfold AddSegment in Hadd. revert Hadd.
  catalog_cases m r Hf Hseg Hcp Hmet Htr.
  destruct r as [err|]; [done|]. intros [= <-].
  assert (Hin : GetSegment (segments (set_metrics
             {| DataCoordNumSegments :=
                  gauge_add (segment_labels (pb segment)) 1 (DataCoordNumSegments (metrics m0));
                DataCoordNumStoredRowsCounter := DataCoordNumStoredRowsCounter (metrics m0);
                DataCoordCheckpointUnixSeconds := DataCoordCheckpointUnixSeconds (metrics m0) |}
             (set_segments (SetSegment (ID (pb segment)) segment (segments m0)) m0)))
           (ID (pb segment)) = Some segment).
  { unfold GetSegment, SetSegment. simpl. apply lookup_insert_eq. }
  split; [exact Hin|]. split.
  { unfold GetHealthySegment. rewrite Hin. done. }
  split.
  { unfold gaugeValue, segment_labels. simpl. rewrite gauge_add_value, Hmet.
    by rewrite decide_True. }
  unfold DropSegment in Hdrop. rewrite Hin in Hdrop. revert Hdrop.
  match goal with |- context [catalog_call ?e ?f ?mm] => set (mid := mm) end.
  catalog_cases mid r Hf2 Hseg2 Hcp2 Hmet2 Htr2.
  destruct r as [err|]; [done|]. intros [= <-]. simpl. split; [|split].
  - rewrite Hseg2. unfold DropSegment_store, SetSegment. simpl.
    rewrite Hseg. by apply delete_insert_id.
  - intros state level. unfold gaugeValue. simpl.
    rewrite gauge_add_value, Hmet2. simpl. rewrite gauge_add_value, Hmet.
    destruct (decide _); lia.
  - rewrite Htr2. simpl. rewrite Htr, <- app_assoc. done.
Qed.

End GaugeFacts.

(** ** Sizes (util.go) *)

Lemma totalLogSize_app l1 l2 : totalLogSize (l1 ++ l2) = totalLogSize l1 + totalLogSize l2.
Proof.
  unfold totalLogSize. induction l1 as [|fb l1 IH]; simpl; [done|]. rewrite IH. lia.
Qed.

Lemma logSizes_app (l1 l2 : list Binlog) :
  foldr (fun l acc => LogSize l + acc) 0 (l1 ++ l2) =
    foldr (fun l acc => LogSize l + acc) 0 l1 + foldr (fun l acc => LogSize l + acc) 0 l2.
Proof. induction l1 as [|l l1 IH]; simpl; [done|]. rewrite IH. lia. Qed.

Lemma totalLogSize_mergeFieldBinlog current newBinlog :
  totalLogSize (mergeFieldBinlog current newBinlog) =
    totalLogSize current + totalLogSize [newBinlog].
Proof.
  unfold mergeFieldBinlog.
  destruct (appendToField _ _ current) as [merged|] eqn:Happ; [|apply totalLogSize_app].
  revert merged Happ. induction current as [|binlog rest IH]; intros merged; simpl; [done|].
  destruct (bool_decide (FieldID newBinlog = FieldID binlog)).
  - intros [= <-]. unfold totalLogSize. simpl. rewrite logSizes_app. lia.
  - destruct (appendToField _ _ rest) as [merged'|]; simpl; [|done].
    intros [= <-]. specialize (IH merged' eq_refl). unfold totalLogSize in *. simpl in *. lia.
Qed.

Lemma totalLogSize_mergeFieldBinlogs current newBinlogs :
  totalLogSize (mergeFieldBinlogs current newBinlogs) =
    totalLogSize current + totalLogSize newBinlogs.
Proof.
  induction newBinlogs as [|newBinlog newBinlogs IH] using rev_ind.
  - unfold totalLogSize at 3. simpl. lia.
  - rewrite mergeFieldBinlogs_snoc, totalLogSize_mergeFieldBinlog, IH, totalLogSize_app. lia.
Qed.

Lemma calculateL0SegmentSize_exact fields :
  calculateL0SegmentSize fields = wrap64 (totalLogSize fields).
Proof.
  change (calculateL0SegmentSize fields) with (addLogSizes 0 fields).
  rewrite addLogSizes_exact; [done|]. unfold int64_range. lia.
Qed.

(** X21: sizes add up over a merge.  [calculateL0SegmentSize] is the 64-bit
    sum of the sizes of all the logs, however they are grouped into fields,
    and [mergeFieldBinlogs] only regroups logs: the size of a merged list is
    the 64-bit sum of the sizes of the current list and of the new list.
    The total that [UpdateCompactionSegmentSizeMetrics] observes counts the
    delta logs of every segment twice, as [getCompactedSegmentSize] does. *)
Theorem sizes_add_up (currentBinlogs newBinlogs : list FieldBinlog)
    (segs : list CompactionSegment) :
  calculateL0SegmentSize currentBinlogs = wrap64 (totalLogSize currentBinlogs) ∧
  calculateL0SegmentSize (mergeFieldBinlogs currentBinlogs newBinlogs) =
    add64 (calculateL0SegmentSize currentBinlogs) (calculateL0SegmentSize newBinlogs) ∧
  compactionTotalSize segs =
    wrap64 (foldr (fun seg acc =>
                     totalLogSize (InsertLogs seg) + 2 * totalLogSize (cs_Deltalogs seg) + acc)
              0 segs).
Proof.
  split; [apply calculateL0SegmentSize_exact|]. split.
  - rewrite !calculateL0SegmentSize_exact, totalLogSize_mergeFieldBinlogs.
    unfold add64.
    rewrite wrap64_add_l, (Z.add_comm _ (wrap64 (totalLogSize newBinlogs))), wrap64_add_l.
    f_equal. lia.
  - unfold compactionTotalSize.
    assert (Hgen : ∀ acc, int64_range acc →
              fold_left (fun totalSize seg =>
                           add64 totalSize (getCompactedSegmentSize (Some seg))) segs acc =
              wrap64 (acc + foldr (fun seg acc =>
                                     totalLogSize (InsertLogs seg)
                                     + 2 * totalLogSize (cs_Deltalogs seg) + acc) 0 segs)).
    { induction segs as [|seg segs IH]; intros acc Hacc; cbn [fold_left foldr].
      - by rewrite Z.add_0_r, wrap64_id.
      - rewrite IH by apply wrap64_range.
        assert (Hsize : getCompactedSegmentSize (Some seg) =
                  wrap64 (totalLogSize (InsertLogs seg)
                          + 2 * totalLogSize (cs_Deltalogs seg))).
        { unfold getCompactedSegmentSize.
          rewrite (addLogSizes_exact 0) by (unfold int64_range; lia).
          rewrite (addLogSizes_exact (wrap64 _)) by apply wrap64_range.
          rewrite (addLogSizes_exact (wrap64 _)) by apply wrap64_range.
          rewrite wrap64_add_l, <- Z.add_assoc, wrap64_add_l. f_equal. lia. }
        rewrite Hsize. unfold add64. rewrite wrap64_add_l.
        rewrite (Z.add_comm acc (wrap64 _)), <- Z.add_assoc, wrap64_add_l. f_equal. lia. }
    rewrite Hgen; [done|]. unfold int64_range. lia.
Qed.

(** ** Indexed segments *)

Section IndexFilterFacts.
Variable DataType : Type.
Variable IsVectorType : DataType → bool.
Variable handler_GetCollection : UniqueID → error + list (UniqueID * DataType).
Variable indexFinished : UniqueID → UniqueID → UniqueID → bool.

Lemma vecFields_fold (collection : Z) (fields : list (UniqueID * DataType))
    (acc : gmap Z (list Z)) (c : Z) :
  default [] (fold_left (fun (vecFieldIDs : gmap Z (list Z)) field =>
                           if IsVectorType field.2
                           then <[collection :=
                                    default [] (vecFieldIDs !! collection) ++ [field.1]]>
                                  vecFieldIDs
                           else vecFieldIDs) fields acc !! c) =
    default [] (acc !! c)
    ++ (if decide (c = collection)
        then omap (fun field => if IsVectorType field.2 then Some field.1 else None) fields
        else []).
Proof.
  revert acc. induction fields as [|field fields IH]; intros acc; simpl.
  - destruct (decide (c = collection)); by rewrite app_nil_r.
  - rewrite IH. destruct (IsVectorType field.2); [|done].
    destruct (decide (c = collection)) as [->|Hne].
    + rewrite lookup_insert_eq. simpl. by rewrite <- app_assoc.
    + by rewrite lookup_insert_ne.
Qed.

Lemma vecFieldIDsOf_lookup (collectionSegments : gmap Z (list Z)) (c : Z) :
  default [] (vecFieldIDsOf DataType IsVectorType handler_GetCollection collectionSegments !! c) =
    match collectionSegments !! c with
    | Some _ => vecFieldsOf DataType IsVectorType handler_GetCollection c
    | None => []
    end.
Proof.
  unfold vecFieldIDsOf.
  apply (map_fold_weak_ind
           (fun r (cs : gmap Z (list Z)) =>
              default [] (r !! c) =
                match cs !! c with
                | Some _ => vecFieldsOf DataType IsVectorType handler_GetCollection c
                | None => []
                end)).
  - by rewrite !lookup_empty.
  - intros collection ids cs r Hfresh IH.
    assert (Hstep : default [] (match handler_GetCollection collection with
                                | inl _ => r
                                | inr fields =>
                                    fold_left (fun (vecFieldIDs : gmap Z (list Z)) field =>
                                                 if IsVectorType field.2
                                                 then <[collection :=
                                                          default [] (vecFieldIDs !! collection)
                                                          ++ [field.1]]> vecFieldIDs
                                                 else vecFieldIDs) fields r
                                end !! c) =
                    default [] (r !! c)
                    ++ (if decide (c = collection)
                        then vecFieldsOf DataType IsVectorType handler_GetCollection collection
                        else [])).
    { unfold vecFieldsOf. destruct (handler_GetCollection collection) as [err|fields].
      - destruct (decide (c = collection)); by rewrite app_nil_r.
      - apply vecFields_fold. }
    rewrite Hstep, IH. destruct (decide (c = collection)) as [->|Hne].
    + rewrite lookup_insert_eq. unfold UniqueID in *. by rewrite Hfresh.
    + rewrite lookup_insert_ne by done. by rewrite app_nil_r.
Qed.

Lemma collectionSegments_covers (segs : list SegmentInfo) (acc : gmap Z (list Z)) segment :
  segment ∈ segs ∨ is_Some (acc !! CollectionID (pb segment)) →
  is_Some (fold_left (fun (collectionSegments : gmap Z (list Z)) segment =>
                        let collectionID := CollectionID (pb segment) in
                        <[collectionID :=
                            default [] (collectionSegments !! collectionID)
                            ++ [ID (pb segment)]]> collectionSegments)
             segs acc !! CollectionID (pb segment)).
Proof.
  revert acc. induction segs as [|s segs IH]; intros acc; simpl.
  - intros [Hin|Hacc]; [by apply elem_of_nil in Hin|done].
  - intros Hcase. apply IH.
    destruct (decide (CollectionID (pb s) = CollectionID (pb segment))) as [Heq|Hne].
    + right. rewrite Heq, lookup_insert_eq. eauto.
    + destruct Hcase as [Hin|Hacc].
      * apply elem_of_cons in Hin as [->|Hin]; [done|by left].
      * right. by rewrite lookup_insert_ne.
Qed.

Lemma hasUnindexed_fold (finished : UniqueID → bool) (fieldIDs : list UniqueID) (acc : bool) :
  fold_left (fun hasUnindexedVecField fieldID =>
               if negb (finished fieldID) then true else hasUnindexedVecField)
    fieldIDs acc = acc || negb (forallb finished fieldIDs).
Proof.
  revert acc. induction fieldIDs as [|fieldID fieldIDs IH]; intros acc; simpl.
  - by rewrite orb_false_r.
  - rewrite IH. by destruct (finished fieldID), acc.
Qed.

(** X22: [FilterInIndexedSegments] returns, in the order of its input, the
    segments that are flushing, flushed or dropped and that have a finished
    index on every vector field of their collection's schema.  The schema is
    asked from the handler once per collection; when that fails the
    collection counts as having no vector field, so that every flushing,
    flushed or dropped segment of it passes the filter. *)
Theorem FilterInIndexedSegments_keeps (segs : list SegmentInfo) :
  let indexed := FilterInIndexedSegments DataType IsVectorType handler_GetCollection
                   indexFinished segs in
  indexed = List.filter (isIndexedSegment DataType IsVectorType handler_GetCollection
                           indexFinished) segs ∧
  indexed `sublist_of` segs ∧
  (∀ segment, segment ∈ indexed ↔
     segment ∈ segs ∧
     (isFlushState (State (pb segment)) = true ∨ State (pb segment) = Dropped) ∧
     ∀ fields, handler_GetCollection (CollectionID (pb segment)) = inr fields →
       ∀ field, field ∈ fields → IsVectorType field.2 = true →
         indexFinished (CollectionID (pb segment)) (ID (pb segment)) field.1 = true) ∧
  (∀ segment err, segment ∈ segs →
     handler_GetCollection (CollectionID (pb segment)) = inl err →
     isFlushState (State (pb segment)) = true ∨ State (pb segment) = Dropped →
     segment ∈ indexed).
Proof.
  set (keep := isIndexedSegment DataType IsVectorType handler_GetCollection indexFinished).
  assert (Heq : FilterInIndexedSegments DataType IsVectorType handler_GetCollection
                  indexFinished segs = List.filter keep segs).
  { unfold FilterInIndexedSegments. destruct segs as [|s0 segs0] eqn:Hsegs; [done|].
    rewrite <- Hsegs. clear Hsegs.
    set (collectionSegments := fold_left _ segs ∅).
    set (vecFieldIDs := vecFieldIDsOf _ _ _ collectionSegments).
    assert (Hvec : ∀ segment, segment ∈ segs →
              default [] (vecFieldIDs !! CollectionID (pb segment)) =
              vecFieldsOf DataType IsVectorType handler_GetCollection
                (CollectionID (pb segment))).
    { intros segment Hin. unfold vecFieldIDs. rewrite vecFieldIDsOf_lookup.
      destruct (collectionSegments_covers segs ∅ segment) as [ids Hids]; [by left|].
      destruct (collectionSegments !! (CollectionID (pb segment) : Z)) as [x|] eqn:Hnone;
        [done|].
      exfalso. assert (Hc : Some ids = None); [|done]. rewrite <- Hids. exact Hnone. }
    clearbody vecFieldIDs. clear collectionSegments.
    assert (Hgen : ∀ acc,
              fold_left (fun indexedSegments segment =>
                           if negb (isFlushState (State (pb segment)))
                              && bool_decide (State (pb segment) ≠ Dropped)
                           then indexedSegments
                           else
                             let hasUnindexedVecField :=
                               fold_left (fun hasUnindexedVecField fieldID =>
                                            if negb (indexFinished (CollectionID (pb segment))
                                                       (ID (pb segment)) fieldID)
                                            then true else hasUnindexedVecField)
                                 (default [] (vecFieldIDs !! CollectionID (pb segment)))
                                 false in
                             if negb hasUnindexedVecField then indexedSegments ++ [segment]
                             else indexedSegments)
                segs acc = acc ++ List.filter keep segs).
    { induction segs as [|segment segs IH]; intros acc; [by rewrite app_nil_r|].
      cbn [fold_left List.filter]. rewrite IH.
      2:{ intros s Hin. apply Hvec. by apply list_elem_of_further. }
      rewrite (Hvec segment) by apply list_elem_of_here.
      cbv zeta. rewrite hasUnindexed_fold. unfold keep at 2, isIndexedSegment.
      destruct (isFlushState (State (pb segment))) eqn:Hflush; simpl.
      - destruct (forallb _ _); simpl; [by rewrite <- app_assoc|done].
      - destruct (bool_decide_reflect (State (pb segment) = Dropped)) as [Hd|Hd].
        + rewrite bool_decide_eq_false_2 by (by intros H; apply H).
          destruct (forallb _ _); simpl; [by rewrite <- app_assoc|done].
        + by rewrite bool_decide_eq_true_2. }
    by rewrite Hgen. }
  assert (Hkeep : ∀ segment, keep segment = true ↔
            (isFlushState (State (pb segment)) = true ∨ State (pb segment) = Dropped) ∧
            ∀ fields, handler_GetCollection (CollectionID (pb segment)) = inr fields →
              ∀ field, field ∈ fields → IsVectorType field.2 = true →
                indexFinished (CollectionID (pb segment)) (ID (pb segment)) field.1 = true).
  { intros segment. unfold keep, isIndexedSegment, vecFieldsOf.
    rewrite andb_true_iff, orb_true_iff, bool_decide_eq_true, forallb_forall.
    split; intros [Hstate Hfields]; (split; [done|]).
    - intros fields Hget field Hin Hvec. apply Hfields. rewrite Hget.
      apply list_elem_of_In, list_elem_of_omap. exists field. by rewrite Hvec.
    - intros fieldID Hin. apply list_elem_of_In in Hin.
      destruct (handler_GetCollection (CollectionID (pb segment))) as [err|fields] eqn:Hget;
        [by apply elem_of_nil in Hin|].
      apply list_elem_of_omap in Hin as (field & Hin & Hsome).
      destruct (IsVectorType field.2) eqn:Hvec; [|done]. injection Hsome as <-.
      by apply (Hfields fields). }
  cbv zeta. rewrite Heq. split; [done|]. split; [|split].
  - clear. induction segs as [|s segs IH]; simpl; [done|].
    destruct (keep s); [by apply sublist_skip|by apply sublist_cons].
  - intros segment. rewrite <- Hkeep, list_elem_of_In, filter_In, <- list_elem_of_In. done.
  - intros segment err Hin Herr Hstate.
    apply list_elem_of_In, filter_In. split; [by apply list_elem_of_In|].
    apply Hkeep. split; [done|]. intros fields Hget. congruence.
Qed.

End IndexFilterFacts.

(** ** The collection cache *)

Section CollectionFacts.
Context {CollectionSchema : Type}.

Implicit Types c : collectionCache CollectionSchema.
Implicit Types collection : collectionInfo CollectionSchema.

Lemma AddCollections_snoc added collection c :
  AddCollections (added ++ [collection]) c = AddCollection collection (AddCollections added c).
Proof. unfold AddCollections. by rewrite fold_left_app. Qed.

(** X23: the collection cache after any sequence of [AddCollection] calls.
    [GetCollection] returns for an id the collection added last under that
    id, or what the cache held before when none was added; the ids of the
    cache are the ids it had and the ids added; after at least one call the
    gauge [DataCoordNumCollections] is the number of ids of the cache, so
    that adding an id again replaces the entry without moving the gauge.
    [GetClonedCollectionInfo] returns what [GetCollection] returns, except
    for the creation timestamp, which is zero in every clone. *)
Theorem collection_cache_after_adds (added : list (collectionInfo CollectionSchema)) c :
  let c' := AddCollections added c in
  (∀ id, GetCollection id c' =
         match last (filter (fun collection => coll_ID collection = id) added) with
         | Some collection => Some collection
         | None => GetCollection id c
         end) ∧
  dom (collections c') = dom (collections c) ∪ list_to_set (coll_ID <$> added) ∧
  (added ≠ [] → DataCoordNumCollections c' = Z.of_nat (size (collections c'))) ∧
  (∀ id, GetClonedCollectionInfo id c' =
         (fun coll => {| coll_ID := coll_ID coll; coll_Schema := coll_Schema coll;
                         coll_Partitions := coll_Partitions coll;
                         coll_StartPositions := coll_StartPositions coll;
                         coll_Properties := coll_Properties coll;
                         coll_CreatedAt := 0 |}) <$> GetCollection id c').
Proof.
  cbv zeta. split; [|split; [|split]].
  - induction added as [|collection added IH] using rev_ind; intros id; [done|].
    rewrite AddCollections_snoc, filter_app, filter_cons, filter_nil.
    unfold GetCollection, AddCollection. simpl.
    destruct (decide (coll_ID collection = id)) as [<-|Hne].
    + by rewrite lookup_insert_eq, last_snoc.
    + rewrite lookup_insert_ne, app_nil_r by done. apply IH.
  - induction added as [|collection added IH] using rev_ind.
    + simpl. by rewrite (right_id_L ∅ (∪)).
    + rewrite AddCollections_snoc, fmap_app, list_to_set_app_L. simpl.
      rewrite dom_insert_L, IH, (right_id_L ∅ (∪)).
      rewrite (comm_L (∪) {[coll_ID collection]}), (assoc_L (∪)). done.
  - intros Hne. destruct added as [|collection added _] using rev_ind; [done|].
    by rewrite AddCollections_snoc.
  - intros id. unfold GetClonedCollectionInfo, GetCollection.
    by destruct (collections (AddCollections added c) !! id).
Qed.

End CollectionFacts.

(** ** Segments by partition and channel *)

Lemma string_app_cons a (s1 s2 : string) : String a s1 +:+ s2 = String a (s1 +:+ s2).
Proof. reflexivity. Qed.

Lemma string_app_nil (s : string) : "" +:+ s = s.
Proof. reflexivity. Qed.

Lemma string_app_nil_r (s : string) : s +:+ "" = s.
Proof. induction s as [|a s IH]; [done|]. rewrite string_app_cons. by f_equal. Qed.

Lemma string_app_assoc (s1 s2 s3 : string) : (s1 +:+ s2) +:+ s3 = s1 +:+ (s2 +:+ s3).
Proof.
  induction s1 as [|a s1 IH]; [done|]. rewrite !string_app_cons. by f_equal.
Qed.

Lemma dashless_app (s1 s2 : string) : dashless s1 → dashless s2 → dashless (s1 +:+ s2).
Proof.
  induction s1 as [|a s1 IH]; [done|]. rewrite string_app_cons. simpl.
  intros [Ha Hs1] Hs2. auto.
Qed.

Lemma pretty_N_char_dashless x : String (pretty_N_char x) EmptyString ≠ "-".
Proof. unfold pretty_N_char. by repeat case_match. Qed.

Lemma pretty_N_go_shape (x : N) (s : string) :
  ∃ ds, dashless ds ∧ pretty_N_go x s = ds +:+ s ∧ ((0 < x)%N → ds ≠ "").
Proof.
  revert s. induction (N.lt_wf_0 x) as [x _ IH]. intros s.
  assert (x = 0 ∨ 0 < x)%N as [->|Hpos] by lia.
  - exists "". rewrite pretty_N_go_0. split; [done|]. split; [done|]. lia.
  - rewrite pretty_N_go_step by done.
    destruct (IH (x `div` 10)%N (N.div_lt x 10 Hpos ltac:(lia))
                (String (pretty_N_char (x `mod` 10)) s)) as (ds & Hds & -> & _).
    exists (ds +:+ String (pretty_N_char (x `mod` 10)) ""). split; [|split].
    + apply dashless_app; [done|]. simpl. split; [apply pretty_N_char_dashless|done].
    + by rewrite string_app_assoc.
    + intros _. by destruct ds.
Qed.

Lemma pretty_Z_shape (z : Z) :
  ∃ ds, dashless ds ∧ ds ≠ "" ∧ (pretty z = ds ∨ pretty z = "-" +:+ ds).
Proof.
  assert (HN : ∀ p : positive, ∃ ds, dashless ds ∧ ds ≠ "" ∧ pretty (N.pos p) = ds).
  { intros p. unfold pretty, pretty_N. rewrite decide_False by done.
    destruct (pretty_N_go_shape (N.pos p) "") as (ds & Hds & -> & Hne).
    exists ds. split; [done|]. split; [apply Hne; lia|]. apply string_app_nil_r. }
  destruct z as [|p|p].
  - exists "0". split; [by split|]. split; [done|]. by left.
  - destruct (HN p) as (ds & Hds & Hne & Heq). exists ds. split; [done|]. split; [done|].
    left. exact Heq.
  - destruct (HN p) as (ds & Hds & Hne & Heq). exists ds. split; [done|]. split; [done|].
    right. unfold pretty, pretty_Z. f_equal. exact Heq.
Qed.

Lemma dashless_split (ds1 ds2 r1 r2 : string) :
  dashless ds1 → dashless ds2 →
  ds1 +:+ "-" +:+ r1 = ds2 +:+ "-" +:+ r2 → ds1 = ds2 ∧ r1 = r2.
Proof.
  revert ds2. induction ds1 as [|a ds1 IH]; intros [|b ds2];
    rewrite ?string_app_cons, ?string_app_nil; simpl.
  - intros _ _ [= ->]. done.
  - intros _ [Hb _] [= <- _]. done.
  - intros [Ha _] _ [= -> _]. done.
  - intros [_ H1] [_ H2] [= -> Heq]. destruct (IH ds2 H1 H2 Heq) as [-> ->]. done.
Qed.

Lemma dimKey_inj (p1 p2 : Z) (c1 c2 : string) :
  dimKey p1 c1 = dimKey p2 c2 → p1 = p2 ∧ c1 = c2.
Proof.
  unfold dimKey.
  destruct (pretty_Z_shape p1) as (ds1 & Hd1 & Hn1 & Hs1).
  destruct (pretty_Z_shape p2) as (ds2 & Hd2 & Hn2 & Hs2).
  intros Heq. unfold UniqueID in Heq.
  assert (pretty p1 = pretty p2 ∧ c1 = c2) as [Hp ->].
  { destruct Hs1 as [Hs1|Hs1], Hs2 as [Hs2|Hs2]; rewrite Hs1, Hs2 in Heq |- *.
    - destruct (dashless_split _ _ _ _ Hd1 Hd2 Heq) as [-> ->]. done.
    - destruct ds1 as [|a ds1]; [done|]. destruct Hd1 as [Ha _].
      rewrite !string_app_cons, string_app_nil in Heq. injection Heq as -> _. done.
    - destruct ds2 as [|a ds2]; [done|]. destruct Hd2 as [Ha _].
      rewrite !string_app_cons, string_app_nil in Heq. injection Heq as <- _. done.
    - rewrite !string_app_cons, !string_app_nil in Heq. injection Heq as Heq.
      destruct (dashless_split _ _ _ _ Hd1 Hd2 Heq) as [-> ->]. done. }
  split; [|done]. by apply (inj pretty).
Qed.

Section ChanPartFacts.
Context {K B : Type}.

Implicit Types m : meta K B.

Lemma selectedOn_snoc selector key l segment :
  selectedOn selector key (l ++ [segment]) =
    selectedOn selector key l
    ++ (if decide (selector segment = true ∧
                   dimKey (PartitionID (pb segment)) (InsertChannel (pb segment)) = key)
        then [segment] else []).
Proof.
  unfold selectedOn. rewrite filter_app, filter_cons, filter_nil.
  by destruct (decide _).
Qed.

Lemma addToDimEntry_lookup selector (mDim : gmap string chanPartSegments) segment key :
  addToDimEntry selector mDim segment !! key =
    if decide (selector segment = true ∧
               dimKey (PartitionID (pb segment)) (InsertChannel (pb segment)) = key)
    then Some match mDim !! key with
              | Some entry =>
                  {| cps_collectionID := cps_collectionID entry;
                     cps_partitionID := cps_partitionID entry;
                     cps_channelName := cps_channelName entry;
                     cps_segments := cps_segments entry ++ [segment] |}
              | None =>
                  {| cps_collectionID := CollectionID (pb segment);
                     cps_partitionID := PartitionID (pb segment);
                     cps_channelName := InsertChannel (pb segment);
                     cps_segments := [segment] |}
              end
    else mDim !! key.
Proof.
  unfold addToDimEntry, Clone. destruct (selector segment); cbn [negb].
  - destruct (decide (dimKey (PartitionID (pb segment)) (InsertChannel (pb segment)) = key))
      as [<-|Hne].
    + rewrite decide_True by done. cbv zeta. rewrite lookup_insert_eq.
      by destruct (mDim !! _).
    + rewrite decide_False by tauto. cbv zeta. by rewrite lookup_insert_ne.
  - rewrite decide_False; [done|]. by intros [? _].
Qed.

(** What the map of the loop holds after the segments of [l]. *)
Lemma dimEntries_after selector (l : list SegmentInfo) (key : string) :
  match fold_left (addToDimEntry selector) l ∅ !! key with
  | Some entry =>
      cps_segments entry = selectedOn selector key l ∧
      ∃ first, head (selectedOn selector key l) = Some first ∧
               cps_collectionID entry = CollectionID (pb first) ∧
               cps_partitionID entry = PartitionID (pb first) ∧
               cps_channelName entry = InsertChannel (pb first)
  | None => selectedOn selector key l = []
  end.
Proof.
  induction l as [|segment l IH] using rev_ind; [simpl; by rewrite lookup_empty|].
  rewrite fold_left_app, selectedOn_snoc. cbn [fold_left].
  rewrite addToDimEntry_lookup.
  set (mDim := fold_left (addToDimEntry selector) l ∅) in *.
  destruct (decide _) as [Hon|Hoff]; [|rewrite app_nil_r; exact IH].
  destruct (mDim !! key) as [entry|]; simpl.
  - destruct IH as (Hsegs & first & Hfirst & Hc & Hp & Hch).
    rewrite Hsegs. split; [done|]. exists first. split; [|done].
    rewrite head_app. by rewrite Hfirst.
  - rewrite IH. simpl. split; [done|]. by exists segment.
Qed.

Lemma head_elem_of {A} (l : list A) x : head l = Some x → x ∈ l.
Proof. destruct l; [done|]. intros [= ->]. apply list_elem_of_here. Qed.

(** X24: [GetSegmentsChanPart] groups the selected segments by partition
    and channel.  No two entries have the same partition and channel; the
    segments of an entry are exactly the selected segments of its partition
    and channel, in the order in which the map is ranged over, and there is
    at least one; the collection of an entry is that of its first segment;
    and every selected segment is in the entry of its partition and channel. *)
Theorem GetSegmentsChanPart_groups (selector : SegmentInfoSelector) m :
  let entries := GetSegmentsChanPart selector m in
  NoDup ((fun entry => (cps_partitionID entry, cps_channelName entry)) <$> entries) ∧
  (∀ entry, entry ∈ entries →
     cps_segments entry =
       filter (fun segment =>
                 selector segment = true ∧
                 PartitionID (pb segment) = cps_partitionID entry ∧
                 InsertChannel (pb segment) = cps_channelName entry)
         (GetSegments (segments m)) ∧
     ∃ first, head (cps_segments entry) = Some first ∧
              cps_collectionID entry = CollectionID (pb first)) ∧
  (∀ segment, segment ∈ SelectSegments selector m →
     ∃ entry, entry ∈ entries ∧
              cps_partitionID entry = PartitionID (pb segment) ∧
              cps_channelName entry = InsertChannel (pb segment) ∧
              segment ∈ cps_segments entry).
Proof.
  cbv zeta. unfold GetSegmentsChanPart.
  change (fold_left _ (GetSegments (segments m)) ∅)
    with (fold_left (addToDimEntry selector) (GetSegments (segments m)) ∅).
  set (l := GetSegments (segments m)).
  set (mDim := fold_left (addToDimEntry selector) l ∅).
  assert (Hentry : ∀ key entry, mDim !! key = Some entry →
            key = dimKey (cps_partitionID entry) (cps_channelName entry) ∧
            cps_segments entry = selectedOn selector key l ∧
            ∃ first, head (cps_segments entry) = Some first ∧
                     cps_collectionID entry = CollectionID (pb first)).
  { intros key entry Hkey. pose proof (dimEntries_after selector l key) as Hafter.
    fold mDim in Hafter. rewrite Hkey in Hafter.
    destruct Hafter as (Hsegs & first & Hfirst & Hc & Hp & Hch).
    split; [|split; [done|]].
    - apply head_elem_of, list_elem_of_filter in Hfirst as [[_ Hdim] _].
      by rewrite Hp, Hch.
    - exists first. by rewrite Hsegs. }
  split; [|split].
  - apply (NoDup_fmap_1 (fun pc : Z * string => dimKey pc.1 pc.2)).
    rewrite <- list_fmap_compose.
    assert (Hkeys : (fun pc : Z * string => dimKey pc.1 pc.2)
                    ∘ (fun entry => (cps_partitionID entry, cps_channelName entry))
                    <$> (map_to_list mDim).*2 = (map_to_list mDim).*1).
    { rewrite <- list_fmap_compose. apply Forall_fmap_ext_1, Forall_forall.
      intros [key entry] Hin. apply elem_of_map_to_list in Hin. simpl.
      by destruct (Hentry key entry Hin) as [<- _]. }
    rewrite Hkeys. apply NoDup_fst_map_to_list.
  - intros entry Hin. apply list_elem_of_fmap in Hin as ([key e] & -> & Hin).
    apply elem_of_map_to_list in Hin. simpl.
    destruct (Hentry key e Hin) as (Hkey & Hsegs & Hfirst). split; [|done].
    rewrite Hsegs. unfold selectedOn. apply list_filter_iff. intros segment.
    rewrite Hkey. split.
    + intros [Hsel Hdim]. by destruct (dimKey_inj _ _ _ _ Hdim) as [-> ->].
    + intros (Hsel & -> & ->). done.
  - intros segment Hin. apply list_elem_of_filter in Hin as [Hsel Hin].
    apply Is_true_true in Hsel. fold l in Hin.
    set (key := dimKey (PartitionID (pb segment)) (InsertChannel (pb segment))).
    assert (Hon : segment ∈ selectedOn selector key l).
    { apply list_elem_of_filter. done. }
    pose proof (dimEntries_after selector l key) as Hafter. fold mDim in Hafter.
    destruct (mDim !! key) as [entry|] eqn:Hkey.
    2:{ rewrite Hafter in Hon. by apply elem_of_nil in Hon. }
    destruct (Hentry key entry Hkey) as (Hdim & Hsegs & _).
    destruct (dimKey_inj _ _ _ _ Hdim) as [Hp Hch].
    exists entry. split; [|by rewrite Hsegs].
    apply list_elem_of_fmap. exists (key, entry). split; [done|].
    by apply elem_of_map_to_list.
Qed.

End ChanPartFacts.

(** ** The further properties on the scenarios *)

Lemma keyed_by_id_empty : keyed_by_id ∅.
Proof. intros id segment Hs. by apply lookup_empty_Some in Hs. Qed.

Lemma mergeFieldBinlogs_per_field_witness :
  let currentBinlogs := [getFieldBinlogIDs 1 [1; 2]; getFieldBinlogIDs 2 [3]] in
  let newBinlogs :=
    [getFieldBinlogIDs 2 [4]; getFieldBinlogIDs 3 [5]; getFieldBinlogIDs 3 [6]] in
  NoDup (FieldID <$> currentBinlogs) ∧
  let merged := mergeFieldBinlogs currentBinlogs newBinlogs in
  NoDup (FieldID <$> merged) ∧
  (∃ added, FieldID <$> merged = (FieldID <$> currentBinlogs) ++ added ∧
            ∀ id, id ∈ added ↔ id ∈ FieldID <$> newBinlogs ∧ id ∉ FieldID <$> currentBinlogs) ∧
  (∀ id, fieldLogs id merged = fieldLogs id currentBinlogs ++ fieldLogs id newBinlogs) ∧
  length (flat_map fb_Binlogs merged) =
    (length (flat_map fb_Binlogs currentBinlogs) + length (flat_map fb_Binlogs newBinlogs))%nat ∧
  (∀ id, match getFieldBinlogs id merged with
         | Some binlog =>
             FieldID binlog = id ∧
             fb_Binlogs binlog = fieldLogs id currentBinlogs ++ fieldLogs id newBinlogs
         | None => (id ∉ FieldID <$> currentBinlogs) ∧ (id ∉ FieldID <$> newBinlogs)
         end).
Proof.
  intros currentBinlogs newBinlogs.
  assert (Hnd : NoDup (FieldID <$> currentBinlogs)).
  { apply (bool_decide_unpack _). vm_compute. exact I. }
  split; [exact Hnd|].
  exact (mergeFieldBinlogs_per_field currentBinlogs newBinlogs Hnd).
Defined.

(** The merge of the scenario: field 2 receives log 4, field 3 is new and
    holds logs 5 and 6. *)
Example merged_fields :
  (fun fb => (FieldID fb, LogID <$> fb_Binlogs fb)) <$>
    mergeFieldBinlogs [getFieldBinlogIDs 1 [1; 2]; getFieldBinlogIDs 2 [3]]
      [getFieldBinlogIDs 2 [4]; getFieldBinlogIDs 3 [5]; getFieldBinlogIDs 3 [6]]
  = [(1, [1; 2]); (2, [3; 4]); (3, [5; 6])].
Proof. reflexivity. Qed.

Lemma channelSegments_keyed : keyed_by_id channelSegments.
Proof.
  unfold channelSegments.
  repeat (apply keyed_by_id_insert; [|reflexivity]). apply keyed_by_id_empty.
Qed.


Lemma GetCompactionTo_after_compaction_witness :
  let run := compactionRun 2 false in
  let ret := compactionReturned 2 in
  planSources (SegmentBinlogs compactionPlan) (segments (compactionMeta false))
    = Some [seg1; seg2] ∧
  CompleteCompactionMutation compactionPlan (compactionResult 2) clock (compactionMeta false)
    = (run.1, Ok (ret.1, ret.2)) ∧
  ∃ target,
    ret.1 = [target] ∧
    segments run.1 !! ID (pb target) = Some target ∧
    CompactionFrom (pb target) = (fun src => ID (pb src)) <$> [seg1; seg2] ∧
    ∀ src, src ∈ [seg1; seg2] →
      (∃ parent, GetCompactionTo (ID (pb src)) run.1 = Some parent ∧
                 ID (pb src) ∈ CompactionFrom (pb parent)) ∧
      ((∀ id segment, segments (compactionMeta false) !! id = Some segment →
                      ID (pb src) ∉ CompactionFrom (pb segment)) →
       GetCompactionTo (ID (pb src)) run.1 = Some target).
Proof.
  intros run ret.
  assert (Hsrc : planSources (SegmentBinlogs compactionPlan) (segments (compactionMeta false))
                 = Some [seg1; seg2]) by reflexivity.
  assert (Hrun : CompleteCompactionMutation compactionPlan (compactionResult 2) clock
                   (compactionMeta false) = (run.1, Ok (ret.1, ret.2))).
  { vm_compute. reflexivity. }
  split; [exact Hsrc|]. split; [exact Hrun|].
  exact (GetCompactionTo_after_compaction compactionPlan (compactionResult 2) clock
           (compactionMeta false) run.1 ret.1 ret.2 [seg1; seg2] Hsrc Hrun).
Defined.

(** In the compaction scenario the parent of both sources is segment 3. *)
Example compaction_parent :
  let m' := (compactionRun 2 false).1 in
  (ID ∘ pb <$> GetCompactionTo 1 m') = Some 3 ∧ (ID ∘ pb <$> GetCompactionTo 2 m') = Some 3 ∧
  GetCompactionTo 3 m' = None ∧
  HasSegments [1; 2; 3] m' = (true, None) ∧
  HasSegments [1; 4; 5] m' = (false, Some (ErrSegmentNotExist 4)).
Proof. vm_compute. repeat split; reflexivity. Qed.


(** The collection of the scenario has 22 rows, and 14 once segment 2 is
    dropped. *)
Example rows_after_drop :
  let m := newMemoryMeta false channelSegments in
  GetNumRowsOfCollection 100 m = 22 ∧
  GetNumRowsOfCollection 100 (SetState 2 Dropped m).1 = 14 ∧
  GetNumRowsOfPartition 100 10 (SetState 2 Dropped m).1 = 14 ∧
  GetNumRowsOfCollection 101 m = 0.
Proof. vm_compute. repeat split; reflexivity. Qed.

Lemma GetEarliestStartPosition_lower_bound_witness :
  let labelled segment :=
    State (pb segment) = Growing ∧ CollectionID (pb segment) = label_CollectionID groupLabel ∧
    PartitionID (pb segment) = label_PartitionID groupLabel ∧
    InsertChannel (pb segment) = label_Channel groupLabel in
  (∀ id segment, segments growingMeta !! id = Some segment → labelled segment →
                 StartPosition (pb segment) ≠ None) ∧
  ∃ earliest,
    GetEarliestStartPositionOfGrowingSegments groupLabel growingMeta = Some earliest ∧
    Timestamp_ earliest <= MaxUint64 ∧
    (∀ id segment, segments growingMeta !! id = Some segment → labelled segment →
                   Timestamp_ earliest <= GetTimestamp (StartPosition (pb segment))) ∧
    (earliest = {| ChannelName := ""; MsgID := None; Timestamp_ := MaxUint64 |}
     ∨ ∃ id segment, segments growingMeta !! id = Some segment ∧ labelled segment ∧
                     StartPosition (pb segment) = Some earliest).
Proof.
  intros labelled.
  assert (Hpos : ∀ id segment, segments growingMeta !! id = Some segment → labelled segment →
                   StartPosition (pb segment) ≠ None).
  { intros id segment Hs [Hst _]. simpl in Hs.
    apply lookup_insert_Some in Hs as [[_ <-]|[_ Hs]]; [done|].
    apply lookup_insert_Some in Hs as [[_ <-]|[_ Hs]]; [done|].
    apply lookup_insert_Some in Hs as [[_ <-]|[_ Hs]]; [done|].
    by apply lookup_empty_Some in Hs. }
  split; [exact Hpos|].
  exact (GetEarliestStartPosition_lower_bound groupLabel growingMeta Hpos).
Defined.

(** The earliest start position of the scenario is the one at 30; a label
    without growing segments yields the largest timestamp. *)
Example earliest_of_scenario :
  GetEarliestStartPositionOfGrowingSegments groupLabel growingMeta = Some (position 30) ∧
  (Timestamp_ <$> GetEarliestStartPositionOfGrowingSegments
                    {| label_CollectionID := 100; label_PartitionID := 11;
                       label_Channel := "ch" |} growingMeta) = Some MaxUint64.
Proof. vm_compute. repeat split; reflexivity. Qed.

Lemma UpdateDropChannelSegmentInfo_drops_channel_witness :
  let m' := (UpdateDropChannelSegmentInfo "ch" dropBuffer channelMeta).1 in
  keyed_by_id (segments channelMeta) ∧
  UpdateDropChannelSegmentInfo "ch" dropBuffer channelMeta = (m', Ok tt) ∧
  keyed_by_id (segments m') ∧
  (∀ id, is_Some (segments m' !! id) ↔ is_Some (segments channelMeta !! id)) ∧
  (∀ id segment, segments m' !! id = Some segment →
                 InsertChannel (pb segment) = "ch" → State (pb segment) = Dropped) ∧
  (∀ seg2Drop, seg2Drop ∈ dropBuffer →
               isSegmentHealthy (segments m' !! ID (pb seg2Drop)) = false) ∧
  (∀ id segment, segments channelMeta !! id = Some segment →
                 InsertChannel (pb segment) ≠ "ch" →
                 id ∉ (fun seg => ID (pb seg)) <$> dropBuffer
                 ∨ isSegmentHealthy (Some segment) = false →
                 segments m' !! id = Some segment).
Proof.
  intros m'.
  assert (Hkey : keyed_by_id (segments channelMeta)) by exact channelSegments_keyed.
  assert (Hrun : UpdateDropChannelSegmentInfo "ch" dropBuffer channelMeta = (m', Ok tt)).
  { vm_compute. reflexivity. }
  split; [exact Hkey|]. split; [exact Hrun|].
  exact (UpdateDropChannelSegmentInfo_drops_channel "ch" dropBuffer channelMeta m' Hkey Hrun).
Defined.

Lemma UpdateDropChannelSegmentInfo_merges_buffer_witness :
  let m' := (UpdateDropChannelSegmentInfo "ch" dropBuffer channelMeta).1 in
  let seg2Drop :=
    buffered 1 7 [getFieldBinlogIDs 1 [12]; getFieldBinlogIDs 2 [21]] (Some (position 90)) in
  let segment := mkSegmentOn 1 "ch" Growing 5 in
  NoDup ((fun seg => ID (pb seg)) <$> dropBuffer) ∧
  UpdateDropChannelSegmentInfo "ch" dropBuffer channelMeta = (m', Ok tt) ∧
  seg2Drop ∈ dropBuffer ∧
  segments channelMeta !! ID (pb seg2Drop) = Some segment ∧
  isSegmentHealthy (Some segment) = true ∧
  ∃ merged,
    segments m' !! ID (pb seg2Drop) = Some merged ∧
    State (pb merged) = Dropped ∧
    NumOfRows (pb merged) = currRows seg2Drop ∧ currRows merged = currRows seg2Drop ∧
    Binlogs (pb merged) = mergeFieldBinlogs (Binlogs (pb segment)) (Binlogs (pb seg2Drop)) ∧
    Statslogs (pb merged) =
      mergeFieldBinlogs (Statslogs (pb segment)) (Statslogs (pb seg2Drop)) ∧
    Deltalogs (pb merged) = Deltalogs (pb segment) ++ Deltalogs (pb seg2Drop) ∧
    StartPosition (pb merged) =
      match StartPosition (pb seg2Drop) with
      | Some p => Some p
      | None => StartPosition (pb segment)
      end ∧
    DmlPosition (pb merged) =
      match DmlPosition (pb seg2Drop) with
      | Some p => Some p
      | None => DmlPosition (pb segment)
      end ∧
    ID (pb merged) = ID (pb segment) ∧ CollectionID (pb merged) = CollectionID (pb segment) ∧
    PartitionID (pb merged) = PartitionID (pb segment) ∧
    InsertChannel (pb merged) = InsertChannel (pb segment) ∧
    Level (pb merged) = Level (pb segment).
Proof.
  intros m' seg2Drop segment.
  assert (Hnd : NoDup ((fun seg => ID (pb seg)) <$> dropBuffer)).
  { apply (bool_decide_unpack _). vm_compute. exact I. }
  assert (Hrun : UpdateDropChannelSegmentInfo "ch" dropBuffer channelMeta = (m', Ok tt)).
  { vm_compute. reflexivity. }
  assert (Hin : seg2Drop ∈ dropBuffer) by apply list_elem_of_here.
  assert (Hs : segments channelMeta !! ID (pb seg2Drop) = Some segment) by reflexivity.
  assert (Hh : isSegmentHealthy (Some segment) = true) by reflexivity.
  split; [exact Hnd|]. split; [exact Hrun|]. split; [exact Hin|].
  split; [exact Hs|]. split; [exact Hh|].
  exact (UpdateDropChannelSegmentInfo_merges_buffer "ch" dropBuffer channelMeta m' seg2Drop
           segment Hnd Hrun Hin Hs Hh).
Defined.

Lemma UpdateDropChannelSegmentInfo_idempotent_witness :
  let m1 := (UpdateDropChannelSegmentInfo "ch" dropBuffer channelMeta).1 in
  let m2 := (UpdateDropChannelSegmentInfo "ch" dropBuffer m1).1 in
  keyed_by_id (segments channelMeta) ∧
  UpdateDropChannelSegmentInfo "ch" dropBuffer channelMeta = (m1, Ok tt) ∧
  UpdateDropChannelSegmentInfo "ch" dropBuffer m1 = (m2, Ok tt) ∧
  segments m2 = segments m1 ∧ metrics m2 = metrics m1 ∧
  (∀ seg2Drop, seg2Drop ∈ dropBuffer →
               mergeDropSegment seg2Drop m1 = (None, new_segMetricMutation)).
Proof.
  intros m1 m2.
  assert (Hkey : keyed_by_id (segments channelMeta)) by exact channelSegments_keyed.
  assert (Hrun1 : UpdateDropChannelSegmentInfo "ch" dropBuffer channelMeta = (m1, Ok tt)).
  { vm_compute. reflexivity. }
  assert (Hrun2 : UpdateDropChannelSegmentInfo "ch" dropBuffer m1 = (m2, Ok tt)).
  { vm_compute. reflexivity. }
  split; [exact Hkey|]. split; [exact Hrun1|]. split; [exact Hrun2|].
  exact (UpdateDropChannelSegmentInfo_idempotent "ch" dropBuffer channelMeta m1 m2
           Hkey Hrun1 Hrun2).
Defined.

Lemma UpdateDropChannelSegmentInfo_counts_last_witness :
  let front :=
    [buffered 1 7 [getFieldBinlogIDs 1 [12]; getFieldBinlogIDs 2 [21]] (Some (position 90))] in
  let lastSeg := buffered 2 8 [] None in
  let m' := (UpdateDropChannelSegmentInfo "ch" (front ++ [lastSeg]) channelMeta).1 in
  keyed_by_id (segments channelMeta) ∧
  (∀ id segment, segments channelMeta !! id = Some segment →
     InsertChannel (pb segment) = "ch" →
     isSegmentHealthy (Some segment) = true ∧
     id ∈ (fun seg => ID (pb seg)) <$> front ++ [lastSeg]) ∧
  UpdateDropChannelSegmentInfo "ch" (front ++ [lastSeg]) channelMeta = (m', Ok tt) ∧
  metrics m' = commit (mergeDropSegment lastSeg channelMeta).2 (metrics channelMeta) ∧
  (mergeDropSegment lastSeg channelMeta).2 =
    match segments channelMeta !! ID (pb lastSeg) with
    | Some segment =>
        if isSegmentHealthy (Some segment)
        then segMetricMutation_append (State (pb segment)) Dropped (Level (pb segment))
               (NumOfRows (pb segment)) new_segMetricMutation
        else new_segMetricMutation
    | None => new_segMetricMutation
    end.
Proof.
  intros front lastSeg m'.
  assert (Hkey : keyed_by_id (segments channelMeta)) by exact channelSegments_keyed.
  assert (Hall : ∀ id segment, segments channelMeta !! id = Some segment →
            InsertChannel (pb segment) = "ch" →
            isSegmentHealthy (Some segment) = true ∧
            id ∈ (fun seg => ID (pb seg)) <$> front ++ [lastSeg]).
  { intros id segment Hs Hch. simpl in Hs. unfold channelSegments in Hs.
    apply lookup_insert_Some in Hs as [[<- <-]|[_ Hs]].
    { split; [reflexivity|]. apply list_elem_of_here. }
    apply lookup_insert_Some in Hs as [[<- <-]|[_ Hs]].
    { split; [reflexivity|]. apply list_elem_of_further, list_elem_of_here. }
    apply lookup_insert_Some in Hs as [[<- <-]|[_ Hs]]; [discriminate Hch|].
    by apply lookup_empty_Some in Hs. }
  assert (Hrun : UpdateDropChannelSegmentInfo "ch" (front ++ [lastSeg]) channelMeta
                 = (m', Ok tt)).
  { vm_compute. reflexivity. }
  split; [exact Hkey|]. split; [exact Hall|]. split; [exact Hrun|].
  exact (UpdateDropChannelSegmentInfo_counts_last "ch" front lastSeg channelMeta m'
           Hkey Hall Hrun).
Defined.

Lemma channel_has_no_segment_after_drop_witness :
  let m' := (UpdateDropChannelSegmentInfo "ch" dropBuffer channelMeta).1 in
  keyed_by_id (segments channelMeta) ∧
  UpdateDropChannelSegmentInfo "ch" dropBuffer channelMeta = (m', Ok tt) ∧
  GetSegmentsByChannel "ch" m' = [] ∧
  (∀ segment, segment ∈ GetUnFlushedSegments m' → InsertChannel (pb segment) ≠ "ch") ∧
  (∀ segment, segment ∈ GetFlushingSegments m' → InsertChannel (pb segment) ≠ "ch").
Proof.
  intros m'.
  assert (Hkey : keyed_by_id (segments channelMeta)) by exact channelSegments_keyed.
  assert (Hrun : UpdateDropChannelSegmentInfo "ch" dropBuffer channelMeta = (m', Ok tt)).
  { vm_compute. reflexivity. }
  split; [exact Hkey|]. split; [exact Hrun|].
  exact (channel_has_no_segment_after_drop "ch" dropBuffer channelMeta m' Hkey Hrun).
Defined.

(** Dropping the channel "ch" of the scenario: both of its segments end
    Dropped and segment 1 carries the buffered rows, logs and checkpoint;
    the segment of the other channel is untouched; the channel is flagged in
    the catalog; yet the Dropped gauge has moved by one segment only, that of
    the last buffered segment. *)
Example drop_channel_scenario :
  let m' := (UpdateDropChannelSegmentInfo "ch" dropBuffer channelMeta).1 in
  (State ∘ pb <$> segments m' !! 1) = Some Dropped ∧
  (State ∘ pb <$> segments m' !! 2) = Some Dropped ∧
  (State ∘ pb <$> segments m' !! 3) = Some Flushed ∧
  (NumOfRows ∘ pb <$> segments m' !! 1) = Some 7 ∧
  ((fun s => (fun fb => (FieldID fb, LogID <$> fb_Binlogs fb)) <$> Binlogs (pb s))
     <$> segments m' !! 1) = Some [(1, [11; 12]); (2, [21])] ∧
  (DmlPosition ∘ pb <$> segments m' !! 1) = Some (Some (position 90)) ∧
  "ch" ∈ kv_removed (catalog m') ∧
  gaugeValue (metrics m') "Dropped" "L1" = 1 ∧
  gaugeValue (metrics m') "Growing" "L1" = 0 ∧
  gaugeValue (metrics m') "Flushed" "L1" = -1.
Proof. vm_compute. repeat split; reflexivity. Qed.

(** When marking the channel fails the records are in the catalog as
    Dropped while the segment map still holds them healthy. *)
Example drop_channel_mark_fails :
  let m := newChannelMeta false true channelSegments in
  let out := UpdateDropChannelSegmentInfo "ch" dropBuffer m in
  out.2 = Err (ErrExternal "mocked fail") ∧
  segments out.1 = segments m ∧ metrics out.1 = metrics m ∧
  (State <$> kv_segments (kv_base (catalog out.1)) !! 1) = Some Dropped ∧
  (State ∘ pb <$> segments out.1 !! 1) = Some Growing.
Proof. vm_compute. repeat split; reflexivity. Qed.

Lemma keyed_by_id_preserved_witness :
  let m := compactionMeta false in
  keyed_by_id (segments m) ∧
  (∀ segment, keyed_by_id (segments (AddSegment segment m).1)) ∧
  (∀ segmentID, keyed_by_id (segments (DropSegment segmentID m).1)) ∧
  (∀ segmentID targetState, keyed_by_id (segments (SetState segmentID targetState m).1)) ∧
  (∀ segmentID, keyed_by_id (segments (UnsetIsImporting segmentID m).1)) ∧
  (∀ segmentID lastExpire m',
     SetLastExpire segmentID lastExpire m = Some m' → keyed_by_id (segments m')) ∧
  (∀ operators : list UpdateOperator,
     Forall (provided_operator countEntries) operators →
     keyed_by_id (segments (UpdateSegmentsInfo operators m).1)) ∧
  (∀ plan planResult now,
     keyed_by_id (segments (CompleteCompactionMutation plan planResult now m).1)) ∧
  (∀ vChannel pos,
     keyed_by_id (segments (UpdateChannelCheckpoint physicalSeconds vChannel pos m).1)) ∧
  (∀ segmentID (operators : list SegmentOperator),
     Forall (fun operator : SegmentOperator =>
               ∀ cloned, ID (pb (operator cloned).1) = ID (pb cloned)) operators →
     keyed_by_id (segments (UpdateSegment segmentID operators m).1)).
Proof.
  intros m.
  assert (Hkey : keyed_by_id (segments m)).
  { simpl. repeat (apply keyed_by_id_insert; [|reflexivity]). apply keyed_by_id_empty. }
  split; [exact Hkey|].
  exact (keyed_by_id_preserved countEntries physicalSeconds m Hkey).
Defined.

Lemma unknown_segment_skips_transaction_witness :
  let m := flushMeta false in
  let rest : list UpdateOperator := [CreateL0Operator 100 10 8 "ch"] in
  isSegmentHealthy (segments m !! 9) = false ∧
  (∀ version,
     UpdateSegmentsInfo (UpdateStorageVersionOperator 9 version :: rest) m = (m, Ok tt)) ∧
  (∀ status now,
     UpdateSegmentsInfo (UpdateStatusOperator 9 status now :: rest) m = (m, Ok tt)) ∧
  UpdateSegmentsInfo (UpdateCompactedOperator 9 :: rest) m = (m, Ok tt) ∧
  (∀ binlogs statslogs deltalogs,
     UpdateSegmentsInfo (UpdateBinlogsOperator 9 binlogs statslogs deltalogs :: rest) m
     = (m, Ok tt)) ∧
  (∀ importing checkpoints,
     UpdateSegmentsInfo
       (UpdateCheckPointOperator countEntries 9 importing checkpoints :: rest) m = (m, Ok tt)).
Proof.
  intros m rest.
  assert (Hh : isSegmentHealthy (segments m !! 9) = false) by reflexivity.
  split; [exact Hh|].
  exact (unknown_segment_skips_transaction countEntries 9 m rest Hh).
Defined.

Lemma UpdateSegmentsInfo_empty_batch_witness :
  let m := flushMeta false in
  let operators : list UpdateOperator := [CreateL0Operator 100 10 1 "ch"] in
  (operators = []
   ∨ (∃ collectionID partitionID segmentID channel,
        operators = [CreateL0Operator collectionID partitionID segmentID channel] ∧
        is_Some (segments m !! segmentID))
   ∨ (∃ startPositions,
        operators = [UpdateStartPosition startPositions] ∧
        Forall (fun pos => emptyMsgID (ssp_StartPosition pos) = true
                           ∨ isSegmentHealthy (segments m !! ssp_SegmentID pos) = false)
          startPositions)) ∧
  ∃ m' r,
    UpdateSegmentsInfo operators m = (m', r) ∧
    trace m' = trace m ++ [CatalogAlterSegments [] []] ∧
    memory_unchanged m m' ∧
    match catalog_AlterSegments [] [] (catalog m) with
    | (k, None) => r = Ok tt ∧ catalog m' = k
    | (k, Some err) => r = Err err ∧ catalog m' = k
    end.
Proof.
  intros m operators.
  assert (Hops : operators = []
                 ∨ (∃ collectionID partitionID segmentID channel,
                      operators = [CreateL0Operator collectionID partitionID segmentID channel] ∧
                      is_Some (segments m !! segmentID))
                 ∨ (∃ startPositions,
                      operators = [UpdateStartPosition startPositions] ∧
                      Forall (fun pos => emptyMsgID (ssp_StartPosition pos) = true
                                         ∨ isSegmentHealthy (segments m !! ssp_SegmentID pos)
                                           = false) startPositions)).
  { right. left. exists 100, 10, 1, "ch". split; [reflexivity|]. by exists growing. }
  split; [exact Hops|].
  exact (UpdateSegmentsInfo_empty_batch operators m Hops).
Defined.

Lemma UpdateSegment_first_change_witness :
  let m := flushMeta false in
  let pre := [setRows 5] in
  let post := [markCompacted] in
  let cloned := with_pb (set_NumOfRows 5) growing in
  segments m !! 1 = Some growing ∧
  (applySegmentOperators pre growing = (cloned, true) →
   applySegmentOperators (pre ++ post) growing = (cloned, true) ∧
   UpdateSegment 1 (pre ++ post) m = UpdateSegment 1 pre m ∧
   ∃ m' r, UpdateSegment 1 (pre ++ post) m = (m', r) ∧
     trace m' = trace m ++ [CatalogAlterSegments [pb cloned] []] ∧
     match catalog_AlterSegments [pb cloned] [] (catalog m) with
     | (_, None) => r = Ok tt ∧ segments m' = <[1 := cloned]> (segments m)
     | (_, Some err) => r = Err err ∧ segments m' = segments m
     end) ∧
  (applySegmentOperators pre growing = (cloned, false) →
   UpdateSegment 1 pre m = (m, Ok tt)).
Proof.
  intros m pre post cloned.
  assert (Hinfo : segments m !! 1 = Some growing) by reflexivity.
  split; [exact Hinfo|].
  exact (UpdateSegment_first_change 1 pre post m growing cloned Hinfo).
Defined.

(** In the scenario the second operator is not applied: the record written
    and installed has five rows and is not marked compacted. *)
Example UpdateSegment_second_operator_unused :
  let out := UpdateSegment 1 [setRows 5; markCompacted] (flushMeta false) in
  out.2 = Ok tt ∧
  (NumOfRows ∘ pb <$> segments out.1 !! 1) = Some 5 ∧
  (Compacted ∘ pb <$> segments out.1 !! 1) = Some false.
Proof. vm_compute. repeat split; reflexivity. Qed.

Lemma SetState_moves_gauge_witness :
  let m := flushMeta false in
  let m' := (SetState 1 Flushed m).1 in
  segments m !! 1 = Some growing ∧
  isSegmentHealthy (Some growing) = true ∧
  SetState 1 Flushed m = (m', Ok tt) ∧
  (∀ state level,
     gaugeValue (metrics m') (SegmentState_String state) (SegmentLevel_String level) =
       gaugeValue (metrics m) (SegmentState_String state) (SegmentLevel_String level)
       + (if bool_decide (level = Level (pb growing) ∧ State (pb growing) ≠ Flushed)
          then (if bool_decide (state = Flushed) then 1 else 0)
               - (if bool_decide (state = State (pb growing)) then 1 else 0)
          else 0)) ∧
  DataCoordNumStoredRowsCounter (metrics m') =
    DataCoordNumStoredRowsCounter (metrics m)
    + (if isFlushState Flushed && negb (isFlushState (State (pb growing)))
       then wrap64 (NumOfRows (pb growing)) else 0) ∧
  State ∘ pb <$> segments m' !! 1 = Some Flushed.
Proof.
  intros m m'.
  assert (Hcur : segments m !! 1 = Some growing) by reflexivity.
  assert (Hh : isSegmentHealthy (Some growing) = true) by reflexivity.
  assert (Hrun : SetState 1 Flushed m = (m', Ok tt)) by (vm_compute; reflexivity).
  split; [exact Hcur|]. split; [exact Hh|]. split; [exact Hrun|].
  exact (SetState_moves_gauge 1 Flushed m m' growing Hcur Hh Hrun).
Defined.

Lemma AddSegment_DropSegment_round_trip_witness :
  let m := flushMeta false in
  let segment := mkSegment 5 Sealed 3 [] in
  let m1 := (AddSegment segment m).1 in
  let m2 := (DropSegment 5 m1).1 in
  segments m !! ID (pb segment) = None ∧
  AddSegment segment m = (m1, Ok tt) ∧
  DropSegment (ID (pb segment)) m1 = (m2, Ok tt) ∧
  GetSegment (segments m1) (ID (pb segment)) = Some segment ∧
  GetHealthySegment (ID (pb segment)) m1 =
    (if isSegmentHealthy (Some segment) then Some segment else None) ∧
  gaugeValue (metrics m1) (segment_labels (pb segment)).1 (segment_labels (pb segment)).2 =
    gaugeValue (metrics m) (segment_labels (pb segment)).1 (segment_labels (pb segment)).2 + 1 ∧
  segments m2 = segments m ∧
  (∀ state level : string,
     gaugeValue (metrics m2) state level = gaugeValue (metrics m) state level) ∧
  trace m2 = trace m ++ [CatalogAddSegment (pb segment); CatalogDropSegment (pb segment)].
Proof.
  intros m segment m1 m2.
  assert (Hfresh : segments m !! ID (pb segment) = None) by reflexivity.
  assert (Hadd : AddSegment segment m = (m1, Ok tt)) by (vm_compute; reflexivity).
  assert (Hdrop : DropSegment (ID (pb segment)) m1 = (m2, Ok tt)) by (vm_compute; reflexivity).
  split; [exact Hfresh|]. split; [exact Hadd|]. split; [exact Hdrop|].
  exact (AddSegment_DropSegment_round_trip segment m m1 m2 Hfresh Hadd Hdrop).
Defined.

(** The checkpoint of a channel can go back after it has been dropped. *)
Example checkpoint_after_drop :
  let m1 := (UpdateChannelCheckpoint physicalSeconds "ch" (Some (position 100))
               (newChannelMeta false false ∅)).1 in
  let m2 := (UpdateChannelCheckpoint physicalSeconds "ch" (Some (position 50)) m1).1 in
  let m3 := (DropChannelCheckpoint "ch" m1).1 in
  let m4 := (UpdateChannelCheckpoint physicalSeconds "ch" (Some (position 50)) m3).1 in
  GetChannelCheckpoint "ch" m2 = Some (position 100) ∧
  GetChannelCheckpoint "ch" m3 = None ∧
  GetChannelCheckpoint "ch" m4 = Some (position 50) ∧
  kv_checkpoints (kv_base (catalog m3)) !! "ch" = None.
Proof. vm_compute. repeat split; reflexivity. Qed.

(** Segments grouped by partition and channel, and the filter of indexed
    segments with a schema that has one vector field, indexed on segment 2
    only. *)
Example grouping_and_index_filter :
  let m := newMemoryMeta false channelSegments in
  let entries := GetSegmentsChanPart (fun _ => true) m in
  let fields (collection : UniqueID) : error + list (UniqueID * bool) :=
    if bool_decide (collection = 100) then inr [(101, true); (102, false)]
    else inl (ErrExternal "no schema") in
  let finished (collection segment field : UniqueID) := bool_decide (segment = 2) in
  let stored :=
    [mkSegmentOn 1 "ch" Growing 5; mkSegmentOn 2 "ch" Flushed 8;
     mkSegmentOn 3 "other" Flushed 9] in
  length entries = 2%nat ∧
  (fun s => ID (pb s)) <$> FilterInIndexedSegments bool id fields finished stored = [2] ∧
  (fun s => ID (pb s)) <$> FilterInIndexedSegments bool id (fun _ => inl (ErrExternal "down"))
                             finished stored = [2; 3].
Proof. vm_compute. repeat split; reflexivity. Qed.
